(** * videoshuffle: the session / pairing server of [index.js]

    A shallow embedding of the WebSocket server (the part of [index.js]
    titled [server.js]): the in-memory [sessions] table, the
    [joinSession] and [webrtc-signal] message handlers, the [close]
    handler, [broadcastToSession], [performShuffle] and
    [initiateShuffleCycle], followed by the properties of the
    specification that concern them.

    JavaScript objects that are enumerated ([sessions], a session's
    [participants], [newLinks]) are association lists in insertion order
    together with the enumeration order of the language; the socket objects,
    which are only ever reached through references, live in a finite map
    keyed by [ws.id]; the table of live [setInterval] handles is a finite
    map from handle to the session code its callback closes over. *)

From Stdlib Require Import Ascii String.
From stdpp Require Import gmap strings list sorting.

Local Open Scope string_scope.
Local Open Scope list_scope.
Set Warnings "-register-all,-clear-no-such-hyp".

(** ** JavaScript values as [JSON.parse] produces them *)

(** A number is kept as the string [Number.prototype.toString] gives for
    it: the server never computes with a client-supplied number, it only
    uses it as a property key or passes it on. [JUndefined] is what a
    missing property reads as. *)
Inductive jsval : Type :=
  | JUndefined
  | JNull
  | JBool (b : bool)
  | JNum (repr : string)
  | JStr (s : string)
  | JArr (elems : list jsval)
  | JObj (fields : list (string * jsval)).

(** [v[k]] / [v.k] for the property names the server reads ([type],
    [payload], [sessionCode], [participantName], [to], [signal]; none is
    inherited from a prototype). Reading a property of [undefined] or
    [null] is a TypeError: [None]. *)
Definition get_prop (v : jsval) (k : string) : option jsval :=
  match v with
  | JUndefined | JNull => None
  | JObj fields =>
      match list_find (fun kv => kv.1 = k) fields with
      | Some (_, (_, x)) => Some x
      | None => Some JUndefined
      end
  | _ => Some JUndefined
  end.

(** Whether the object literal has an own property [k]. *)
Definition has_own (k : string) (fields : list (string * jsval)) : bool :=
  bool_decide (k ∈ fields.*1).

(** [ToString(v)], the conversion a template literal applies to the value
    it interpolates. An array is joined with commas ([null] and [undefined]
    elements give the empty string, the others are converted in turn). An
    object is converted through its [toString] and [valueOf]: a parsed
    object that has no own [toString] inherits the one of
    [Object.prototype]; one that has an own [toString] holds a value that
    cannot be called, and the inherited [valueOf] (or an own one, no more
    callable) gives no primitive, so that the conversion is a TypeError:
    [None]. *)
Fixpoint ToString (v : jsval) : option string :=
  match v with
  | JUndefined => Some "undefined"
  | JNull => Some "null"
  | JBool true => Some "true"
  | JBool false => Some "false"
  | JNum repr => Some repr
  | JStr s => Some s
  | JArr elems =>
      (fix join (l : list jsval) : option string :=
         match l with
         | [] => Some EmptyString
         | x :: l' =>
             match match x with
                   | JUndefined | JNull => Some EmptyString
                   | _ => ToString x
                   end with
             | None => None
             | Some sx =>
                 match l' with
                 | [] => Some sx
                 | _ :: _ =>
                     match join l' with
                     | None => None
                     | Some rest => Some (sx +:+ "," +:+ rest)
                     end
                 end
             end
         end) elems
  | JObj fields =>
      if has_own "toString" fields then None else Some "[object Object]"
  end.

(** The conversion of a value used in [o[v]] to a property key: the same
    conversion (no parsed value is a symbol), and the same TypeError. *)
Definition ToPropertyKey (v : jsval) : option string := ToString v.

(** ** Plain objects used as dictionaries *)

(** Own properties in insertion order. *)
Definition obj (V : Type) : Type := list (string * V).

Fixpoint obj_get {V} (k : string) (o : obj V) : option V :=
  match o with
  | [] => None
  | (k', v) :: o' => if decide (k' = k) then Some v else obj_get k o'
  end.

(** [o[k] = v]: an existing property keeps its place, a new one is added
    last. *)
Fixpoint obj_set {V} (k : string) (v : V) (o : obj V) : obj V :=
  match o with
  | [] => [(k, v)]
  | (k', v') :: o' =>
      if decide (k' = k) then (k, v) :: o' else (k', v') :: obj_set k v o'
  end.

(** [delete o[k]]. *)
Fixpoint obj_delete {V} (k : string) (o : obj V) : obj V :=
  match o with
  | [] => []
  | (k', v') :: o' =>
      if decide (k' = k) then obj_delete k o' else (k', v') :: obj_delete k o'
  end.

(** A field update [o[k].f = x] on the object stored under [k]. *)
Fixpoint obj_alter {V} (f : V -> V) (k : string) (o : obj V) : obj V :=
  match o with
  | [] => []
  | (k', v') :: o' =>
      if decide (k' = k) then (k', f v') :: o' else (k', v') :: obj_alter f k o'
  end.

(** Array indices: canonical decimal strings below 2^32 - 1. The language
    enumerates them first, in ascending numeric order, and the other keys
    after them in insertion order. *)
Definition is_digit (c : ascii) : bool :=
  (48 <=? nat_of_ascii c)%nat && (nat_of_ascii c <=? 57)%nat.

Fixpoint digits_value (s : string) (acc : N) : option N :=
  match s with
  | EmptyString => Some acc
  | String c s' =>
      if is_digit c
      then digits_value s' (acc * 10 + (N_of_ascii c - 48))%N
      else None
  end.

Definition array_index (s : string) : option N :=
  match s with
  | EmptyString => None
  | String c s' =>
      if bool_decide (c = "0"%char) && negb (bool_decide (s' = EmptyString))
      then None
      else match digits_value s 0%N with
           | Some n => if (n <? 4294967295)%N then Some n else None
           | None => None
           end
  end.

Definition index_le (a b : string) : Prop :=
  match array_index a, array_index b with
  | Some x, Some y => (x <= y)%N
  | _, _ => True
  end.

Global Instance index_le_dec a b : Decision (index_le a b).
Proof.
  unfold index_le.
  destruct (array_index a), (array_index b); try (left; exact I).
  apply N.le_dec.
Defined.

Definition own_keys (ks : list string) : list string :=
  merge_sort index_le (filter (fun k => is_Some (array_index k)) ks)
  ++ filter (fun k => ¬ is_Some (array_index k)) ks.

(** [Object.keys(o)], also the order of [for (k in o)]. *)
Definition obj_keys {V} (o : obj V) : list string := own_keys (o.*1).

(** The properties in enumeration order, and [Object.values(o)]. *)
Definition obj_entries {V} (o : obj V) : list (string * V) :=
  omap (fun k => (fun v => (k, v)) <$> obj_get k o) (obj_keys o).

Definition obj_values {V} (o : obj V) : list V := (obj_entries o).*2.

(** The names every plain object inherits from [Object.prototype]. *)
Definition Object_prototype_keys : list string :=
  [ "constructor"; "__defineGetter__"; "__defineSetter__"; "hasOwnProperty";
    "__lookupGetter__"; "__lookupSetter__"; "isPrototypeOf";
    "propertyIsEnumerable"; "toString"; "valueOf"; "__proto__";
    "toLocaleString" ].

(** What [o[k]] reads on a plain object [o]: an own property, an inherited
    member of [Object.prototype] (truthy, and without any of the fields the
    server stores), or [undefined]. *)
Inductive lookup_result (V : Type) : Type :=
  | Own (v : V)
  | Inherited
  | Absent.
Arguments Own {V} v.
Arguments Inherited {V}.
Arguments Absent {V}.

Definition js_lookup {V} (k : string) (o : obj V) : lookup_result V :=
  match obj_get k o with
  | Some v => Own v
  | None => if bool_decide (k ∈ Object_prototype_keys) then Inherited else Absent
  end.

(** ** The server state *)

(** [ws.readyState] of a socket handed to the [connection] handler (such a
    socket is never in the connecting state). *)
Inductive ReadyState : Type := OPEN | CLOSING | CLOSED.

Global Instance ReadyState_eq_dec : EqDecision ReadyState.
Proof. solve_decision. Defined.

(** The fields of a socket object [ws] the server reads or writes; [ws.id]
    is the key under which the object is stored. *)
Record Conn : Type := mkConn {
  sessionCode : jsval;       (* ws.sessionCode, undefined until a join *)
  readyState : ReadyState
}.

(** [{ name: participantName, socket: ws }]; the socket is a reference. *)
Record Participant : Type := mkParticipant {
  name : jsval;
  socket : string
}.

(** [{ participants: {}, links: {}, timer: null }]. *)
Record Session : Type := mkSession {
  participants : obj Participant;
  links : obj string;
  timer : option nat
}.

(** The messages the server sends (the argument of [JSON.stringify]). *)
Inductive Msg : Type :=
  | participantListUpdate (payload : list jsval)
  | shuffle (partnerId : string) (partnerName : jsval) (polite : bool)
  | shuffle_countdown (duration : nat)
  | webrtc_signal (from : string) (signal : jsval).

Record Server : Type := mkServer {
  sessions : obj Session;
  conns : gmap string Conn;        (* the socket objects, by ws.id *)
  intervals : gmap nat string;     (* live setInterval handles *)
  timeouts : list string;          (* pending setTimeout callbacks, oldest first *)
  next_handle : nat;               (* the next timer handle *)
  sent : list (string * Msg)       (* what was written to which socket *)
}.

(** The state at process start: [const sessions = {}]. *)
Definition initial : Server := mkServer [] ∅ ∅ [] 0 [].

Definition set_sessions (f : obj Session -> obj Session) (st : Server) : Server :=
  mkServer (f (sessions st)) (conns st) (intervals st) (timeouts st)
           (next_handle st) (sent st).

Definition set_conns (f : gmap string Conn -> gmap string Conn) (st : Server) : Server :=
  mkServer (sessions st) (f (conns st)) (intervals st) (timeouts st)
           (next_handle st) (sent st).

Definition set_participants (ps : obj Participant) (s : Session) : Session :=
  mkSession ps (links s) (timer s).

Definition set_links (l : obj string) (s : Session) : Session :=
  mkSession (participants s) l (timer s).

Definition set_timer (t : option nat) (s : Session) : Session :=
  mkSession (participants s) (links s) t.

(** A handler either runs to completion or an exception leaves it;
    [index.js] has no [try]/[catch], so nothing of the handler runs after
    the throw. Both carry the state reached. *)
Inductive outcome : Type :=
  | Done (st : Server)
  | Thrown (st : Server).

Definition final (o : outcome) : Server :=
  match o with Done st | Thrown st => st end.

(** Whether an exception leaves the handler. Such an exception is
    uncaught: the events are emitted from the callbacks of the runtime,
    [index.js] wraps no handler in [try]/[catch] and registers no listener
    for [uncaughtException], so that the runtime reports the error and ends
    the process unless something outside [index.js] provides for it. *)
Definition uncaught (o : outcome) : bool :=
  match o with Thrown _ => true | Done _ => false end.

Definition bind (o : outcome) (k : Server -> outcome) : outcome :=
  match o with
  | Done st => k st
  | Thrown st => Thrown st
  end.

(** [for (x of xs) body(x)], stopping at the first throw. *)
Fixpoint forEach {A} (xs : list A) (body : A -> Server -> outcome)
    (st : Server) : outcome :=
  match xs with
  | [] => Done st
  | x :: xs' => bind (body x st) (forEach xs' body)
  end.

(** ** Sockets *)

Definition is_open (sock : string) (st : Server) : bool :=
  match conns st !! sock with
  | Some c => bool_decide (readyState c = OPEN)
  | None => false
  end.

(** [sock.send(JSON.stringify(m))] of the ws library: the text is
    transmitted when the socket is open; on a closing or closed socket, and
    without a callback, the call returns without transmitting and without
    throwing. *)
Definition send (sock : string) (m : Msg) (st : Server) : Server :=
  if is_open sock st
  then mkServer (sessions st) (conns st) (intervals st) (timeouts st)
                (next_handle st) (sent st ++ [(sock, m)])
  else st.

(** ** [broadcastToSession] *)

Definition broadcastToSession (code : string) (message : Msg)
    (st : Server) : outcome :=
  match js_lookup code (sessions st) with
  | Own session =>
      forEach (obj_values (participants session))
        (fun participant st' =>
           Done (if is_open (socket participant) st'
                 then send (socket participant) message st'
                 else st'))
        st
  | Inherited => Thrown st      (* Object.values(undefined) *)
  | Absent => Done st
  end.

(** ** [performShuffle] *)

(** [[a[i], a[j]] = [a[j], a[i]]] for indices inside the array. *)
Definition swap (i j : nat) (a : list string) : list string :=
  match a !! i, a !! j with
  | Some x, Some y => <[j := x]> (<[i := y]> a)
  | _, _ => a
  end.

(** [for (let i = length - 1; i > 0; i--)] with
    [j = Math.floor(Math.random() * (i + 1))]. The random source is an
    oracle [rnd]: the draw made at index [i] is [rnd i] reduced to the range
    [0 .. i] that the expression can yield, so that every oracle stands for
    one run of the loop and every run is covered by some oracle. *)
Fixpoint shuffle_from (rnd : nat -> nat) (i : nat) (a : list string) : list string :=
  match i with
  | O => a
  | S i' => shuffle_from rnd i' (swap i (rnd i mod (i + 1)) a)
  end.

Definition shuffled (rnd : nat -> nat) (a : list string) : list string :=
  shuffle_from rnd (length a - 1) a.

(** One turn of the second loop: [newLinks[ids[i]] = ids[(i + 1) % n]]. *)
Definition link_at (ids : list string) (newLinks : obj string) (i : nat) : obj string :=
  match ids !! i, ids !! ((i + 1) mod length ids) with
  | Some currentId, Some nextId => obj_set currentId nextId newLinks
  | _, _ => newLinks
  end.

Definition make_links (ids : list string) : obj string :=
  foldl (link_at ids) [] (seq 0 (length ids)).

(** [const polite = fromId > toId], on strings: the identities are the
    ASCII strings of [uuidv4()], which the language and [String.ltb] order
    alike, character by character. *)
Definition polite_flag (fromId toId : string) : bool := String.ltb toId fromId.

(** The body of [Object.keys(newLinks).forEach(fromId => ...)]. Reading
    [.socket] or [.name] of a participant that is not there is a
    TypeError. *)
Definition notify (session : Session) (newLinks : obj string)
    (fromId : string) (st : Server) : outcome :=
  match obj_get fromId newLinks with
  | Some toId =>
      match obj_get fromId (participants session),
            obj_get toId (participants session) with
      | Some fromP, Some toP =>
          Done (if is_open (socket fromP) st
                then send (socket fromP)
                          (shuffle toId (name toP) (polite_flag fromId toId)) st
                else st)
      | _, _ => Thrown st
      end
  | None => Thrown st
  end.

Definition performShuffle (code : string) (rnd : nat -> nat)
    (st : Server) : outcome :=
  match js_lookup code (sessions st) with
  | Absent => Done st                         (* if (!session) return; *)
  | Inherited => Thrown st                    (* Object.keys(undefined) *)
  | Own session =>
      let participantIds := shuffled rnd (obj_keys (participants session)) in
      let newLinks := make_links participantIds in
      let st1 := set_sessions (obj_alter (set_links newLinks) code) st in
      forEach (obj_keys newLinks) (notify session newLinks) st1
  end.

(** ** [initiateShuffleCycle] *)

Definition interval_ms : N := 10000 * 60.
Definition delay_ms : N := 3000.
Definition countdown_duration : nat := 10.

(** [clearInterval(h)]. *)
Definition clearInterval (h : option nat) (st : Server) : Server :=
  match h with
  | Some t => mkServer (sessions st) (conns st) (delete t (intervals st))
                       (timeouts st) (next_handle st) (sent st)
  | None => st
  end.

(** [session.timer = setInterval(() => ..., 10000*60)] for the session
    stored under [code]: a fresh handle, live until it is cleared, ticking
    every [interval_ms]. *)
Definition setInterval (code : string) (st : Server) : Server :=
  let h := next_handle st in
  mkServer (obj_alter (set_timer (Some h)) code (sessions st)) (conns st)
           (<[h := code]> (intervals st)) (timeouts st) (S h) (sent st).

(** [performShuffle] leaves [session.participants] alone, so the test
    after it reads the participants of the session found at entry. *)
Definition initiateShuffleCycle (code : string) (rnd : nat -> nat)
    (st : Server) : outcome :=
  match js_lookup code (sessions st) with
  | Absent => Done st                         (* if (!session) return; *)
  | Inherited => Thrown st                    (* performShuffle throws *)
  | Own session =>
      let st1 :=
        match timer session with
        | Some h =>
            set_sessions (obj_alter (set_timer None) code)
                         (clearInterval (Some h) st)
        | None => st
        end in
      bind (performShuffle code rnd st1) (fun st2 =>
        Done (if (2 <? length (obj_keys (participants session)))%nat
              then setInterval code st2
              else st2))
  end.

(** The callback of the interval: the countdown is broadcast and the
    shuffle is scheduled [delay_ms] later. *)
Definition interval_callback (code : string) (st : Server) : outcome :=
  bind (broadcastToSession code (shuffle_countdown countdown_duration) st)
    (fun st1 =>
       Done (mkServer (sessions st1) (conns st1) (intervals st1)
                      (timeouts st1 ++ [code]) (next_handle st1) (sent st1))).

(** The callback of the timeout: [() => performShuffle(sessionCode)]. *)
Definition timeout_callback (code : string) (rnd : nat -> nat)
    (st : Server) : outcome :=
  performShuffle code rnd st.

(** ** The handlers of a connection *)

(** [wss.on('connection', ws => { ws.id = uuidv4(); ... })]. *)
Definition on_connection (ws : string) (st : Server) : Server :=
  set_conns (insert ws (mkConn JUndefined OPEN)) st.

(** [ws.sessionCode]. *)
Definition ws_sessionCode (ws : string) (st : Server) : jsval :=
  match conns st !! ws with
  | Some c => sessionCode c
  | None => JUndefined
  end.

(** [case 'joinSession']. The destructuring of [data.payload] throws on
    [undefined] and [null]. [sessions[sessionCode]] throws on a code that
    cannot be converted to a property key. A code that names a member of
    [Object.prototype] finds [sessions[sessionCode]] truthy, creates
    nothing, and throws on [.participants[ws.id] = ...]. Once the
    participant is stored and the code is recorded on the socket, the
    template literal of the [console.log] converts the name and the code to
    strings, and throws on a name that cannot be converted: the broadcast
    and the shuffle cycle after it are then not reached. *)
Definition joinSession (ws : string) (payload : jsval) (rnd : nat -> nat)
    (st : Server) : outcome :=
  match get_prop payload "sessionCode", get_prop payload "participantName" with
  | Some sessionCode, Some participantName =>
      match ToPropertyKey sessionCode with
      | None => Thrown st               (* sessions[sessionCode] *)
      | Some code =>
          match js_lookup code (sessions st) with
          | Inherited => Thrown st
          | found =>
              let session :=
                match found with
                | Own s => s
                | _ => mkSession [] [] None
                end in
              let ps := obj_set ws (mkParticipant participantName ws)
                                (participants session) in
              let st1 :=
                set_sessions (obj_set code (set_participants ps session)) st in
              let st2 :=
                set_conns (alter (fun c => mkConn sessionCode (readyState c)) ws)
                          st1 in
              match ToString participantName, ToString sessionCode with
              | Some _, Some _ =>     (* `Participant ${...} joined session ${...}` *)
                  bind (broadcastToSession code
                          (participantListUpdate (name <$> obj_values ps)) st2)
                    (fun st3 =>
                       if (2 <=? length (obj_keys ps))%nat
                       then initiateShuffleCycle code rnd st3
                       else Done st3)
              | _, _ => Thrown st2
              end
          end
      end
  | _, _ => Thrown st
  end.

(** [case 'webrtc-signal']:
    [sessions[ws.sessionCode]?.participants[to]?.socket]. Either property
    access throws on a value that cannot be converted to a property key;
    [to] is converted only if the session is found. *)
Definition relay (ws : string) (payload : jsval) (st : Server) : outcome :=
  match get_prop payload "to", get_prop payload "signal" with
  | Some to, Some signal =>
      match ToPropertyKey (ws_sessionCode ws st) with
      | None => Thrown st
      | Some code =>
          match js_lookup code (sessions st) with
          | Own session =>
              match ToPropertyKey to with
              | None => Thrown st
              | Some key =>
                  match obj_get key (participants session) with
                  | Some recipient =>
                      Done (send (socket recipient) (webrtc_signal ws signal) st)
                  | None => Done st
                  end
              end
          | Inherited => Thrown st       (* undefined[to] *)
          | Absent => Done st
          end
      end
  | _, _ => Thrown st
  end.

(** [ws.on('message', message => ...)]; [message] is what [JSON.parse]
    returns, [None] when it throws. *)
Definition on_message (ws : string) (message : option jsval) (rnd : nat -> nat)
    (st : Server) : outcome :=
  match message with
  | None => Thrown st
  | Some data =>
      match get_prop data "type", get_prop data "payload" with
      | Some (JStr type), Some payload =>
          if decide (type = "joinSession") then joinSession ws payload rnd st
          else if decide (type = "webrtc-signal") then relay ws payload st
          else Done st
      | Some _, Some _ => Done st
      | _, _ => Thrown st
      end
  end.

(** [ws.on('close', () => ...)]: the first session, in enumeration order,
    that has [ws.id] among its participants. The socket is closed when the
    event is emitted. *)
Definition on_close (ws : string) (rnd : nat -> nat) (st : Server) : outcome :=
  let st0 := set_conns (alter (fun c => mkConn (sessionCode c) CLOSED) ws) st in
  match list_find (fun e => is_Some (obj_get ws (participants e.2)))
                  (obj_entries (sessions st0)) with
  | Some (_, (code, session)) =>
      let ps := obj_delete ws (participants session) in
      if decide (length (obj_keys ps) = 0%nat)
      then Done (set_sessions (obj_delete code)
                              (clearInterval (timer session) st0))
      else
        let st1 := set_sessions (obj_alter (set_participants ps) code) st0 in
        bind (broadcastToSession code
                (participantListUpdate (name <$> obj_values ps)) st1)
          (fun st2 =>
             if (1 <? length (obj_keys ps))%nat
             then initiateShuffleCycle code rnd st2
             else Done st2)
  | None => Done st0
  end.

(** ** The event loop *)

(** What the runtime delivers to the server, one run-to-completion step
    each: a new connection with the identity [uuidv4()] gave it, a text
    frame, the start of a closing handshake, the close event, a tick of a
    live interval, the expiry of the oldest pending timeout. An event that
    shuffles carries the draws of [Math.random]. *)
Inductive Event : Type :=
  | Connects (ws : string)
  | Receives (ws : string) (message : option jsval) (rnd : nat -> nat)
  | StartsClosing (ws : string)
  | Closes (ws : string) (rnd : nat -> nat)
  | IntervalFires (h : nat)
  | TimeoutFires (rnd : nat -> nat).

(** An identity as [uuidv4()] returns it is neither a member of
    [Object.prototype] nor an array index. *)
Definition valid_id (id : string) : Prop :=
  (id ∉ Object_prototype_keys) ∧ (array_index id = None).

Definition enabled (e : Event) (st : Server) : bool :=
  match e with
  | Connects ws =>
      bool_decide (valid_id ws) &&
      (match conns st !! ws with Some _ => false | None => true end)
  | Receives ws _ _ => is_open ws st
  | StartsClosing ws => is_open ws st
  | Closes ws _ =>
      match conns st !! ws with
      | Some c => bool_decide (readyState c ≠ CLOSED)
      | None => false
      end
  | IntervalFires h =>
      match intervals st !! h with Some _ => true | None => false end
  | TimeoutFires _ =>
      match timeouts st with [] => false | _ :: _ => true end
  end.

Definition handle (e : Event) (st : Server) : outcome :=
  match e with
  | Connects ws => Done (on_connection ws st)
  | Receives ws message rnd => on_message ws message rnd st
  | StartsClosing ws =>
      Done (set_conns (alter (fun c => mkConn (sessionCode c) CLOSING) ws) st)
  | Closes ws rnd => on_close ws rnd st
  | IntervalFires h =>
      match intervals st !! h with
      | Some code => interval_callback code st
      | None => Done st
      end
  | TimeoutFires rnd =>
      match timeouts st with
      | code :: rest =>
          timeout_callback code rnd
            (mkServer (sessions st) (conns st) (intervals st) rest
                      (next_handle st) (sent st))
      | [] => Done st
      end
  end.

(** The states the server can be in. A step that throws is kept, with the
    state the handler had reached: an exception that leaves a handler is
    uncaught ([index.js] catches nothing), and where the process outlives
    it the server goes on from that state. *)
Inductive reachable : Server -> Prop :=
  | reachable_initial : reachable initial
  | reachable_step st e :
      reachable st -> enabled e st = true -> reachable (final (handle e st)).

Fixpoint run (es : list Event) (st : Server) : option Server :=
  match es with
  | [] => Some st
  | e :: es' => if enabled e st then run es' (final (handle e st)) else None
  end.

(** The states reached while every handler has returned normally. *)
Inductive reachable_without_throw : Server -> Prop :=
  | quiet_initial : reachable_without_throw initial
  | quiet_step st e st' :
      reachable_without_throw st -> enabled e st = true ->
      handle e st = Done st' -> reachable_without_throw st'.

(** ** What the properties are stated with *)

(** The successor of each element of a sequence read as a ring: the next
    one, and the first one after the last. *)
Definition successors (c : list string) : list string :=
  match c with
  | [] => []
  | x :: t => t ++ [x]
  end.

Definition cycle_links (c : list string) : list (string * string) :=
  zip c (successors c).

(** [L] is one directed cycle through [members]: some arrangement of the
    members, each listed once, has the links of [L] as its steps. *)
Definition single_cycle (L : obj string) (members : list string) : Prop :=
  exists c, NoDup c /\ c ≡ₚ members /\ L = cycle_links c.

(** Following the links [k] times from [a]. *)
Fixpoint follow (L : obj string) (k : nat) (a : string) : option string :=
  match k with
  | O => Some a
  | S k' => match obj_get a L with
            | Some b => follow L k' b
            | None => None
            end
  end.

(** ** What a handler writes to the sockets *)

Definition add_sent (extra : list (string * Msg)) (st : Server) : Server :=
  mkServer (sessions st) (conns st) (intervals st) (timeouts st)
           (next_handle st) (sent st ++ extra).

(** The [shuffle] message of one link, if its socket is open. *)
Definition shuffle_message (session : Session) (newLinks : obj string)
    (st : Server) (fromId : string) : list (string * Msg) :=
  match obj_get fromId newLinks with
  | Some toId =>
      match obj_get fromId (participants session),
            obj_get toId (participants session) with
      | Some fromP, Some toP =>
          if is_open (socket fromP) st
          then [(socket fromP, shuffle toId (name toP) (polite_flag fromId toId))]
          else []
      | _, _ => []
      end
  | None => []
  end.

Definition resolvable (session : Session) (newLinks : obj string)
    (fromId : string) : Prop :=
  exists toId, obj_get fromId newLinks = Some toId /\
    is_Some (obj_get fromId (participants session)) /\
    is_Some (obj_get toId (participants session)).

(** The messages of a broadcast, in the order of [Object.values]. *)
Definition broadcast_messages (session : Session) (message : Msg)
    (st : Server) : list (string * Msg) :=
  obj_values (participants session) ≫=
    (fun p => if is_open (socket p) st then [(socket p, message)] else []).

(** The links and the messages of a shuffle of [session]. *)
Definition shuffle_links (rnd : nat -> nat) (session : Session) : obj string :=
  make_links (shuffled rnd (obj_keys (participants session))).

Definition shuffle_messages (rnd : nat -> nat) (session : Session)
    (st : Server) : list (string * Msg) :=
  obj_keys (shuffle_links rnd session)
    ≫= shuffle_message session (shuffle_links rnd session) st.


(** Every participant is stored under the identity of its own socket, as
    [participants[ws.id] = { name, socket: ws }] stores it. *)
Definition sockets_own (session : Session) : Prop :=
  forall k p, (k, p) ∈ participants session -> socket p = k.

(** [x] is sent a [shuffle] naming [y] as its partner with
    [polite: true]. *)
Definition told_polite (msgs : list (string * Msg)) (x y : string) : Prop :=
  exists partnerName, (x, shuffle y partnerName true) ∈ msgs.

(** ** States and traces used in the examples *)

Definition ring_order : nat -> nat := fun i => i.

Definition member (id nm : string) : string * Participant :=
  (id, mkParticipant (JStr nm) id).

(** Three participants [a], [b], [c] in session [X] with its recurring
    timer. *)
Definition trio_session : Session :=
  mkSession [member "a" "A"; member "b" "B"; member "c" "C"] [] (Some 0).

Definition trio : Server :=
  mkServer
    [("X", trio_session)]
    (list_to_map [("a", mkConn (JStr "X") OPEN); ("b", mkConn (JStr "X") OPEN);
                  ("c", mkConn (JStr "X") OPEN)])
    {[ 0 := "X" ]} [] 1 [].

(** ** The invariant of the session table and the timer table *)

(** What holds of a session stored under [code] when [ivs] are the live
    intervals: its participants are distinct, each stored under the
    identity of its socket, and there is at least one; it has no timer
    unless it has more than two participants; its timer is a live interval
    whose callback is for [code]. Under [strict], which stands for "no
    handler has thrown so far", it has a timer if it has more than two
    participants: a join that throws between the registration and the
    shuffle cycle leaves a session for which this fails. *)
Record session_ok (strict : Prop) (ivs : gmap nat string) (code : string)
    (s : Session) : Prop := {
  ok_distinct : NoDup (participants s).*1;
  ok_sockets : sockets_own s;
  ok_nonempty : participants s ≠ [];
  ok_timer : length (obj_keys (participants s)) <= 2 -> timer s = None;
  ok_started : strict -> timer s = None ->
               length (obj_keys (participants s)) <= 2;
  ok_live : forall h, timer s = Some h -> ivs !! h = Some code;
  ok_code : code ∉ Object_prototype_keys
}.

(** Every session is in order, and every live interval is the timer of
    the session its callback is for, with a handle already given out. *)
Record consistent (strict : Prop) (st : Server) : Prop := {
  sessions_ok :
    forall code s, obj_get code (sessions st) = Some s ->
                   session_ok strict (intervals st) code s;
  intervals_owned :
    forall h code, intervals st !! h = Some code ->
      h < next_handle st /\
      exists s, obj_get code (sessions st) = Some s /\ timer s = Some h
}.

(** The part of the invariant that is about timers only; it also holds
    inside a handler, between a change of membership and the restart of the
    shuffle cycle. *)
Record timers_consistent (st : Server) : Prop := {
  timers_live :
    forall code s h, obj_get code (sessions st) = Some s -> timer s = Some h ->
                     intervals st !! h = Some code;
  timers_owned :
    forall h code, intervals st !! h = Some code ->
      h < next_handle st /\
      exists s, obj_get code (sessions st) = Some s /\ timer s = Some h
}.

(** The timer of the session stored under [code], if any. *)
Definition timer_of (code : string) (ss : obj Session) : option nat :=
  obj_get code ss ≫= timer.

(** The live intervals once the timer of the session under [code] is
    cancelled. *)
Definition cleared (code : string) (st : Server) : gmap nat string :=
  match timer_of code (sessions st) with
  | Some h => delete h (intervals st)
  | None => intervals st
  end.

(** The state [initiateShuffleCycle] leaves for the session [session]
    stored under [code]: the old timer cancelled, the links of a fresh
    shuffle, its messages, and a new timer if there are more than two
    participants. *)
Definition restarted (code : string) (rnd : nat -> nat) (session : Session)
    (st : Server) : Server :=
  let more := (2 <? length (obj_keys (participants session)))%nat in
  mkServer
    (obj_alter (fun _ => mkSession (participants session)
                           (shuffle_links rnd session)
                           (if more then Some (next_handle st) else None))
               code (sessions st))
    (conns st)
    (if more then <[next_handle st := code]> (cleared code st)
     else cleared code st)
    (timeouts st)
    (if more then S (next_handle st) else next_handle st)
    (sent st ++ shuffle_messages rnd session st).

(** The state reached by a trace from the initial state (the initial state
    itself if the trace cannot run). *)
Definition after (es : list Event) : Server := default initial (run es initial).

Definition join_msg (code nm : string) : option jsval :=
  Some (JObj [("type", JStr "joinSession");
              ("payload", JObj [("sessionCode", JStr code);
                                ("participantName", JStr nm)])]).

Definition signal_msg (to : string) (signal : jsval) : option jsval :=
  Some (JObj [("type", JStr "webrtc-signal");
              ("payload", JObj [("to", JStr to); ("signal", signal)])]).

(** [a], [b] and [c] connect and join [X]. *)
Definition three_join : list Event :=
  [ Connects "a"; Connects "b"; Connects "c";
    Receives "a" (join_msg "X" "A") ring_order;
    Receives "b" (join_msg "X" "B") ring_order;
    Receives "c" (join_msg "X" "C") ring_order ].

(** The interval of [X] ticks, and [a] and [b] leave before the timeout it
    scheduled expires. *)
Definition two_leave_in_countdown : list Event :=
  three_join ++
  [ IntervalFires 0; Closes "a" ring_order; Closes "b" ring_order ].

(** All three leave in that time: [X] is torn down with the timeout still
    pending. *)
Definition all_leave_in_countdown : list Event :=
  two_leave_in_countdown ++ [ Closes "c" ring_order ].

(** ... and [d] joins [X] anew, still before the timeout expires. *)
Definition rejoin_in_countdown : list Event :=
  all_leave_in_countdown ++
  [ Connects "d"; Receives "d" (join_msg "X" "D") ring_order ].

(** One connection joins [X] and then [Y]. *)
Definition join_twice : list Event :=
  [ Connects "a";
    Receives "a" (join_msg "X" "A") ring_order;
    Receives "a" (join_msg "Y" "A") ring_order ].

(** [a] joins the session whose code is the string "undefined"; [b]
    connects and joins nothing. *)
Definition undefined_session : list Event :=
  [ Connects "a";
    Receives "a" (join_msg "undefined" "A") ring_order;
    Connects "b" ].

(** A [joinSession] whose payload has no session code. *)
Definition join_without_code (nm : string) : option jsval :=
  Some (JObj [("type", JStr "joinSession");
              ("payload", JObj [("participantName", JStr nm)])]).

(** A participant name that cannot be converted to a string: the parsed
    [{"toString": 1}]. *)
Definition unprintable : jsval := JObj [("toString", JNum "1")].


(** [a] and [b] join [X]; [c] is connected. *)
Definition two_join : list Event :=
  [ Connects "a"; Connects "b"; Connects "c";
    Receives "a" (join_msg "X" "A") ring_order;
    Receives "b" (join_msg "X" "B") ring_order ].



(** The session [X] once [a], [b] and [c] have joined in that order and
    the last shuffle has kept the order. *)
Definition joined_session : Session :=
  mkSession [member "a" "A"; member "b" "B"; member "c" "C"]
            [("a", "b"); ("b", "c"); ("c", "a")] (Some 0).



(** ** Further definitions: joins, closes and the countdown of the client *)

(** The oracle that draws [j] at index [i] and follows [rnd] elsewhere. *)
Definition draw_at (i j : nat) (rnd : nat -> nat) : nat -> nat :=
  fun k => if decide (k = i) then j else rnd k.

(** The state a join has reached when it comes to its log line: the
    session under the key [code] of the session code [sc], created if
    absent, has the connection among its participants, and the socket
    records the code as received. *)
Definition registered (ws code : string) (sc pn : jsval) (st : Server) : Server :=
  let old := default (mkSession [] [] None) (obj_get code (sessions st)) in
  let ps := obj_set ws (mkParticipant pn ws) (participants old) in
  set_conns (alter (fun c => mkConn sc (readyState c)) ws)
            (set_sessions (obj_set code (set_participants ps old)) st).

(** The state a join leaves before the shuffle cycle is looked at: the
    connection is registered and the list of names has been broadcast. *)
Definition joined_base (ws code : string) (sc pn : jsval) (st : Server) : Server :=
  let old := default (mkSession [] [] None) (obj_get code (sessions st)) in
  let ps := obj_set ws (mkParticipant pn ws) (participants old) in
  let s1 := set_participants ps old in
  let st2 := set_conns (alter (fun c => mkConn sc (readyState c)) ws)
                       (set_sessions (obj_set code s1) st) in
  add_sent (broadcast_messages s1
              (participantListUpdate (name <$> obj_values ps)) st2) st2.

(** The list of names a session broadcasts. *)
Definition names_of (ps : obj Participant) : list jsval := name <$> obj_values ps.

(** The socket of [ws] once its [close] event is emitted. *)
Definition closed (ws : string) (st : Server) : Server :=
  set_conns (alter (fun c => mkConn (sessionCode c) CLOSED) ws) st.

(** [ws] is a participant of no session. *)
Definition in_no_session (ws : string) (st : Server) : Prop :=
  forall c s, obj_get c (sessions st) = Some s ->
              obj_get ws (participants s) = None.

(** [ws] is a participant of the session under [code] and of no other. *)
Definition only_member_of (ws code : string) (st : Server) : Prop :=
  forall c s, obj_get c (sessions st) = Some s ->
              is_Some (obj_get ws (participants s)) -> c = code.

(** ** The countdown of the client *)

(** The numbers of the language are doubles. For an arithmetic operation
    whose exact result is the integer [z], the result is the nearest
    double, the one with the even significand if two are as near: every
    integer of magnitude up to 2^53 is a double, and above that a double
    keeps the 53 leading bits (magnitudes stay far below 2^1024, where the
    doubles end). *)
Definition round_to_double (z : Z) : Z :=
  let a := Z.abs z in
  if (a <=? 2 ^ 53)%Z then z
  else
    let e := (Z.log2 a - 52)%Z in
    let q := Z.shiftr a e in
    let r := Z.land a (Z.ones e) in
    let half := (2 ^ (e - 1))%Z in
    let q' := if (half <? r)%Z || ((r =? half)%Z && Z.odd q)
              then (q + 1)%Z else q in
    (Z.sgn z * Z.shiftl q' e)%Z.

(** [case 'shuffle-countdown'] of [ws.onmessage] in the client part of
    [index.js] (App.tsx): the local [duration], the React states
    [countdown] and [statusMessage] as far as this case writes them, and
    whether the interval it starts is still live. Durations are numbers
    that hold an integer (the server sends 10). *)
Inductive StatusMessage : Type :=
  | ShufflingIn (seconds : Z)      (* `Shuffling in ${duration} seconds...` *)
  | ShufflingNow.                  (* 'Shuffling...' *)

Record Countdown : Type := mkCountdown {
  cd_duration : Z;
  cd_countdown : option Z;
  cd_statusMessage : StatusMessage;
  cd_live : bool
}.

(** The message arrives: [setStatusMessage], [setCountdown(duration)],
    [setInterval(..., 1000)]. *)
Definition countdown_start (duration : Z) : Countdown :=
  mkCountdown duration (Some duration) (ShufflingIn duration) true.

(** One firing of the interval, if it is still live:
    [duration--; setCountdown(duration); if (duration <= 0) { clearInterval;
    setCountdown(null); setStatusMessage('Shuffling...') }]. *)
Definition countdown_tick (c : Countdown) : Countdown :=
  if cd_live c then
    let duration := round_to_double (cd_duration c - 1) in
    if (duration <=? 0)%Z
    then mkCountdown duration None ShufflingNow false
    else mkCountdown duration (Some duration) (cd_statusMessage c) true
  else c.

(** ** Further states and messages used in the examples *)

(** [a], [b], [c] have joined [X] and the closing handshake of [b] has
    begun. *)
Definition b_closing : list Event := three_join ++ [StartsClosing "b"].

(** [a] has joined [X]; [b] is connected. *)
Definition one_joined : list Event :=
  [ Connects "a"; Connects "b"; Receives "a" (join_msg "X" "A") ring_order ].

(** [a], [b], [c] have joined [X]; [d] is connected. *)
Definition three_joined_one_waiting : list Event :=
  three_join ++ [Connects "d"].

Definition join_payload (code nm : string) : jsval :=
  JObj [("sessionCode", JStr code); ("participantName", JStr nm)].

(** A trace in which every handler returns normally. *)
Fixpoint run_done (es : list Event) (st : Server) : option Server :=
  match es with
  | [] => Some st
  | e :: es' =>
      if enabled e st
      then match handle e st with
           | Done st' => run_done es' st'
           | Thrown _ => None
           end
      else None
  end.

Definition unprintable_join_payload : jsval :=
  JObj [("sessionCode", JStr "X"); ("participantName", unprintable)].
(** * Lemmas on objects *)

#[local] Arguments Nat.ltb : simpl never.
#[local] Arguments Nat.leb : simpl never.
#[local] Arguments Nat.modulo : simpl never.

Section objects.
Context {V : Type}.
Implicit Types (o : obj V) (k : string) (v : V).

Lemma own_keys_perm (ks : list string) : own_keys ks ≡ₚ ks.
Proof.
  unfold own_keys. rewrite merge_sort_Permutation.
  apply filter_app_complement.
Qed.

Lemma obj_keys_perm o : obj_keys o ≡ₚ o.*1.
Proof. apply own_keys_perm. Qed.

Lemma length_obj_keys o : length (obj_keys o) = length o.
Proof. rewrite obj_keys_perm. apply length_fmap. Qed.

Lemma elem_of_obj_keys o k : k ∈ obj_keys o <-> k ∈ o.*1.
Proof. by rewrite obj_keys_perm. Qed.

Lemma NoDup_obj_keys o : NoDup (obj_keys o) <-> NoDup o.*1.
Proof. by rewrite obj_keys_perm. Qed.

Lemma obj_get_Some_elem o k v : obj_get k o = Some v -> (k, v) ∈ o.
Proof.
  induction o as [|[k' v'] o IH]; simpl; [done|].
  case_decide; intros; simplify_eq; [left | right; auto].
Qed.

Lemma obj_get_is_Some o k : is_Some (obj_get k o) <-> k ∈ o.*1.
Proof.
  induction o as [|[k' v'] o IH]; simpl.
  - split; [intros [? ?]; done | intros H; inversion H].
  - case_decide; subst.
    + split; [intros _; left | eauto].
    + rewrite IH. split; [by right|]. intros H'.
      apply elem_of_cons in H' as [?|?]; [congruence | done].
Qed.

Lemma obj_get_None o k : obj_get k o = None <-> k ∉ o.*1.
Proof. rewrite <- obj_get_is_Some, eq_None_not_Some. done. Qed.

Lemma obj_get_elem_NoDup o k v :
  NoDup o.*1 -> (k, v) ∈ o -> obj_get k o = Some v.
Proof.
  induction o as [|[k' v'] o IH]; simpl; intros Hnd Hin.
  - inversion Hin.
  - apply NoDup_cons in Hnd as [Hk Hnd].
    apply elem_of_cons in Hin as [?|Hin]; simplify_eq.
    + by rewrite decide_True.
    + rewrite decide_False; [auto|]. intros ->. apply Hk.
      apply list_elem_of_fmap. by exists (k, v).
Qed.

Lemma obj_set_get_eq o k v : obj_get k (obj_set k v o) = Some v.
Proof.
  induction o as [|[k' v'] o IH]; simpl.
  - by rewrite decide_True.
  - case_decide; subst; simpl; [by rewrite decide_True|].
    by rewrite decide_False.
Qed.

Lemma obj_set_get_ne o k k' v :
  k ≠ k' -> obj_get k' (obj_set k v o) = obj_get k' o.
Proof.
  intros Hne. induction o as [|[k0 v0] o IH]; simpl.
  - by rewrite decide_False.
  - case_decide; subst; simpl.
    + by rewrite !decide_False.
    + case_decide; auto.
Qed.

Lemma obj_set_keys_new o k v :
  k ∉ o.*1 -> obj_set k v o = o ++ [(k, v)].
Proof.
  induction o as [|[k' v'] o IH]; simpl; intros Hk; [done|].
  apply not_elem_of_cons in Hk as [? ?].
  rewrite decide_False by done. by rewrite IH.
Qed.

Lemma obj_set_keys_old o k v :
  k ∈ o.*1 -> (obj_set k v o).*1 = o.*1.
Proof.
  induction o as [|[k' v'] o IH]; simpl; intros Hk; [inversion Hk|].
  case_decide; subst; [done|]. rewrite !fmap_cons. f_equal.
  apply elem_of_cons in Hk as [?|?]; [simpl in *; congruence | auto].
Qed.

Lemma obj_set_keys o k v :
  (obj_set k v o).*1 = if decide (k ∈ o.*1) then o.*1 else o.*1 ++ [k].
Proof.
  case_decide.
  - by apply obj_set_keys_old.
  - rewrite obj_set_keys_new by done. by rewrite fmap_app.
Qed.

Lemma obj_set_NoDup o k v : NoDup o.*1 -> NoDup (obj_set k v o).*1.
Proof.
  intros Hnd. rewrite obj_set_keys. case_decide; [done|].
  apply NoDup_app. split_and!; [done| |apply NoDup_singleton].
  intros x Hx Hx'. apply list_elem_of_singleton in Hx'. by subst.
Qed.

Lemma obj_alter_keys f o k : (obj_alter f k o).*1 = o.*1.
Proof.
  induction o as [|[k' v'] o IH]; simpl; [done|].
  case_decide; [done|]. rewrite !fmap_cons. by f_equal.
Qed.

Lemma obj_alter_get_eq f o k :
  obj_get k (obj_alter f k o) = f <$> obj_get k o.
Proof.
  induction o as [|[k' v'] o IH]; simpl; [done|].
  case_decide; simpl; [by rewrite decide_True | by rewrite decide_False].
Qed.

Lemma obj_alter_get_ne f o k k' :
  k ≠ k' -> obj_get k' (obj_alter f k o) = obj_get k' o.
Proof.
  intros Hne. induction o as [|[k0 v0] o IH]; simpl; [done|].
  case_decide; subst; simpl.
  - by rewrite !decide_False by done.
  - case_decide; auto.
Qed.

Lemma obj_alter_compose f g o k :
  obj_alter f k (obj_alter g k o) = obj_alter (fun x => f (g x)) k o.
Proof.
  induction o as [|[k' v'] o IH]; simpl; [done|].
  case_decide; simpl.
  - by rewrite decide_True.
  - rewrite decide_False by done. by rewrite IH.
Qed.

Lemma obj_alter_ext f g o k v :
  obj_get k o = Some v -> f v = g v -> obj_alter f k o = obj_alter g k o.
Proof.
  induction o as [|[k' v'] o IH]; simpl; [done|].
  case_decide; intros; simplify_eq; [by f_equal; f_equal|].
  f_equal. auto.
Qed.

Lemma elem_of_obj_set o k v k' v' :
  (k', v') ∈ obj_set k v o -> (k', v') = (k, v) \/ (k', v') ∈ o.
Proof.
  induction o as [|[k0 v0] o IH]; simpl.
  - intros ?%list_elem_of_singleton. by left.
  - case_decide; subst; rewrite !elem_of_cons; naive_solver.
Qed.

Lemma elem_of_obj_delete o k k' v' :
  (k', v') ∈ obj_delete k o -> (k', v') ∈ o.
Proof.
  induction o as [|[k0 v0] o IH]; simpl; [done|].
  case_decide; subst; rewrite !elem_of_cons; naive_solver.
Qed.

Lemma obj_set_length_ge o k v : length o <= length (obj_set k v o).
Proof.
  rewrite <- !(length_fmap fst), obj_set_keys. case_decide; [done|].
  rewrite length_app. lia.
Qed.

Lemma obj_set_nonempty o k v : obj_set k v o ≠ [].
Proof. destruct o as [|[k' v'] o]; simpl; [done|]. by case_decide. Qed.

Lemma elem_of_obj_entries o k v :
  (k, v) ∈ obj_entries o -> obj_get k o = Some v.
Proof.
  unfold obj_entries. intros (k' & _ & Hk)%list_elem_of_omap.
  destruct (obj_get k' o) eqn:Hg; simpl in Hk; by simplify_eq.
Qed.

Lemma js_lookup_Own o k v : js_lookup k o = Own v <-> obj_get k o = Some v.
Proof.
  unfold js_lookup. destruct (obj_get k o); [naive_solver|].
  case_bool_decide; naive_solver.
Qed.

Lemma js_lookup_Absent o k :
  js_lookup k o = Absent <-> obj_get k o = None /\ k ∉ Object_prototype_keys.
Proof.
  unfold js_lookup. destruct (obj_get k o); [naive_solver|].
  case_bool_decide; naive_solver.
Qed.

Lemma obj_delete_get_eq o k : obj_get k (obj_delete k o) = None.
Proof.
  induction o as [|[k' v'] o IH]; simpl; [done|].
  case_decide; simpl; [done | by rewrite decide_False].
Qed.

Lemma obj_delete_get_ne o k k' :
  k ≠ k' -> obj_get k' (obj_delete k o) = obj_get k' o.
Proof.
  intros Hne. induction o as [|[k0 v0] o IH]; simpl; [done|].
  case_decide; subst; simpl.
  - by rewrite !decide_False by done.
  - case_decide; auto.
Qed.

Lemma obj_delete_keys o k :
  (obj_delete k o).*1 = filter (fun x => x ≠ k) o.*1.
Proof.
  induction o as [|[k' v'] o IH]; [done|].
  rewrite fmap_cons, filter_cons. simpl obj_delete. simpl fst.
  case_decide; subst.
  - rewrite decide_False by (intros ?; done). done.
  - rewrite decide_True by done. rewrite fmap_cons. by f_equal.
Qed.

Lemma obj_delete_NoDup o k : NoDup o.*1 -> NoDup (obj_delete k o).*1.
Proof. rewrite obj_delete_keys. apply NoDup_filter. Qed.

Lemma obj_delete_length o k :
  NoDup o.*1 -> k ∈ o.*1 -> S (length (obj_delete k o)) = length o.
Proof.
  induction o as [|[k' v'] o IH]; simpl; intros Hnd Hk; [inversion Hk|].
  apply NoDup_cons in Hnd as [Hk' Hnd].
  case_decide; subst.
  - f_equal. clear IH Hk Hnd. induction o as [|[k0 v0] o IH]; simpl; [done|].
    apply not_elem_of_cons in Hk' as [? ?].
    rewrite decide_False by done. simpl. by rewrite IH.
  - simpl. f_equal. apply IH; [done|].
    apply elem_of_cons in Hk as [?|?]; [congruence | done].
Qed.
End objects.

(** * The shuffle *)

Lemma swap_length i j a : length (swap i j a) = length a.
Proof.
  unfold swap. destruct (a !! i), (a !! j); try done.
  by rewrite !length_insert.
Qed.

Lemma swap_perm i j a : swap i j a ≡ₚ a.
Proof.
  unfold swap.
  destruct (a !! i) as [x|] eqn:Hi; [|done].
  destruct (a !! j) as [y|] eqn:Hj; [|done].
  pose proof (lookup_lt_Some _ _ _ Hi) as Hli.
  pose proof (lookup_lt_Some _ _ _ Hj) as Hlj.
  apply Permutation_inj. split; [by rewrite !length_insert|].
  exists (fun k => if decide (k = i) then j else if decide (k = j) then i else k).
  split.
  - intros k1 k2. repeat case_decide; intros; subst; congruence.
  - intros k. destruct (decide (k = j)) as [->|Hkj].
    + rewrite list_lookup_insert_eq by (by rewrite length_insert).
      case_decide; subst; congruence.
    + rewrite list_lookup_insert_ne by done.
      destruct (decide (k = i)) as [->|Hki].
      * by rewrite list_lookup_insert_eq.
      * by rewrite list_lookup_insert_ne.
Qed.

Lemma shuffle_from_perm rnd i a : shuffle_from rnd i a ≡ₚ a.
Proof.
  revert a. induction i as [|i IH]; intros a; simpl; [done|].
  rewrite IH. apply swap_perm.
Qed.

Lemma shuffled_perm rnd a : shuffled rnd a ≡ₚ a.
Proof. apply shuffle_from_perm. Qed.

Lemma successors_length c : length (successors c) = length c.
Proof. destruct c; simpl; [done|]. rewrite length_app. simpl. lia. Qed.

Lemma successors_lookup c i :
  i < length c -> successors c !! i = c !! ((i + 1) mod length c).
Proof.
  destruct c as [|x t]; [simpl; lia|]. intros Hi.
  change (length (x :: t)) with (S (length t)) in *. unfold successors.
  destruct (decide (i + 1 < S (length t))) as [Hlt|Hge].
  - rewrite Nat.mod_small by done.
    rewrite lookup_app_l by lia. by replace (i + 1) with (S i) by lia.
  - assert (i = length t) as -> by lia.
    replace (length t + 1) with (S (length t)) by lia.
    rewrite Nat.Div0.mod_same.
    rewrite lookup_app_r by lia. by rewrite Nat.sub_diag.
Qed.

Lemma cycle_links_keys c : (cycle_links c).*1 = c.
Proof. apply fst_zip. by rewrite successors_length. Qed.

Lemma cycle_links_targets c : (cycle_links c).*2 ≡ₚ c.
Proof.
  unfold cycle_links. rewrite snd_zip by (by rewrite successors_length).
  destruct c as [|x t]; simpl; [done|].
  by rewrite <- Permutation_cons_append.
Qed.

Lemma cycle_links_length c : length (cycle_links c) = length c.
Proof. rewrite <- (length_fmap fst). by rewrite cycle_links_keys. Qed.

Lemma cycle_links_elem c a b :
  (a, b) ∈ cycle_links c <->
  exists i, c !! i = Some a /\ c !! ((i + 1) mod length c) = Some b.
Proof.
  unfold cycle_links. split.
  - intros (i & x & y & Heq & Hx & Hy)%elem_of_lookup_zip_with.
    simplify_eq. exists i. split; [done|].
    rewrite <- successors_lookup; [done|]. by eapply lookup_lt_Some.
  - intros (i & Ha & Hb). apply elem_of_lookup_zip_with.
    exists i, a, b. split_and!; [done..|].
    rewrite successors_lookup; [done|]. by eapply lookup_lt_Some.
Qed.

Lemma cycle_links_irrefl c a b :
  NoDup c -> 2 <= length c -> (a, b) ∈ cycle_links c -> a ≠ b.
Proof.
  intros Hnd Hlen (i & Ha & Hb)%cycle_links_elem ->.
  pose proof (lookup_lt_Some _ _ _ Ha) as Hi.
  pose proof (NoDup_lookup _ _ _ _ Hnd Ha Hb) as Heq.
  destruct (decide (i + 1 < length c)).
  - rewrite Nat.mod_small in Heq by done. lia.
  - assert (i + 1 = length c) as Hn by lia.
    rewrite Hn, Nat.Div0.mod_same in Heq. lia.
Qed.

(** The second loop of [performShuffle] builds the ring of the shuffled
    identities. *)
Lemma make_links_prefix ids k :
  NoDup ids -> k <= length ids ->
  foldl (link_at ids) [] (seq 0 k) = zip (take k ids) (take k (successors ids)).
Proof.
  intros Hnd. induction k as [|k IH]; intros Hk; [done|].
  rewrite seq_S, foldl_app, IH by lia. simpl.
  destruct (lookup_lt_is_Some_2 ids k) as [x Hx]; [lia|].
  destruct (lookup_lt_is_Some_2 (successors ids) k) as [y Hy];
    [rewrite successors_length; lia|].
  unfold link_at. rewrite Hx.
  rewrite <- successors_lookup by lia. rewrite Hy.
  rewrite (take_S_r _ _ _ Hx), (take_S_r _ _ _ Hy).
  rewrite (zip_with_app pair (take k ids) [x]); last first.
  { rewrite !length_take, successors_length. lia. }
  simpl. apply obj_set_keys_new.
  rewrite fst_zip; last first.
  { rewrite !length_take, successors_length. lia. }
  intros (j & Hj & Hjk)%elem_of_take.
  pose proof (NoDup_lookup _ _ _ _ Hnd Hx Hj). lia.
Qed.

Lemma make_links_cycle ids : NoDup ids -> make_links ids = cycle_links ids.
Proof.
  intros Hnd. unfold make_links. rewrite make_links_prefix by done.
  rewrite !take_ge; [done| |done]. by rewrite successors_length.
Qed.

(** * What a handler writes to the sockets *)

Lemma add_sent_nil st : add_sent [] st = st.
Proof. destruct st. unfold add_sent. simpl. by rewrite app_nil_r. Qed.

Lemma add_sent_app e1 e2 st : add_sent e2 (add_sent e1 st) = add_sent (e1 ++ e2) st.
Proof. unfold add_sent. simpl. by rewrite app_assoc. Qed.

Lemma is_open_add_sent sock e st : is_open sock (add_sent e st) = is_open sock st.
Proof. done. Qed.

Lemma send_add_sent sock m st :
  send sock m st = add_sent (if is_open sock st then [(sock, m)] else []) st.
Proof. unfold send. destruct (is_open sock st); [done|]. by rewrite add_sent_nil. Qed.

Lemma shuffle_message_add_sent session newLinks e st fromId :
  shuffle_message session newLinks (add_sent e st) fromId
  = shuffle_message session newLinks st fromId.
Proof. done. Qed.

Lemma notify_Done session newLinks fromId st :
  resolvable session newLinks fromId ->
  notify session newLinks fromId st
  = Done (add_sent (shuffle_message session newLinks st fromId) st).
Proof.
  intros (toId & Hto & [fromP HfromP] & [toP HtoP]).
  unfold notify, shuffle_message. rewrite Hto, HfromP, HtoP.
  rewrite send_add_sent. destruct (is_open (socket fromP) st); [done|].
  by rewrite add_sent_nil.
Qed.

Lemma forEach_notify session newLinks keys st :
  Forall (resolvable session newLinks) keys ->
  forEach keys (notify session newLinks) st
  = Done (add_sent (keys ≫= shuffle_message session newLinks st) st).
Proof.
  intros Hall. revert st. induction Hall as [|k keys Hk Hall IH]; intros st; simpl.
  - by rewrite add_sent_nil.
  - rewrite notify_Done by done. simpl. rewrite IH.
    rewrite add_sent_app. do 2 f_equal.
Qed.

Lemma forEach_broadcast (ps : list Participant) message st :
  forEach ps
    (fun participant st' =>
       Done (if is_open (socket participant) st'
             then send (socket participant) message st'
             else st')) st
  = Done (add_sent
            (ps ≫= (fun p => if is_open (socket p) st
                             then [(socket p, message)] else [])) st).
Proof.
  revert st. induction ps as [|p ps IH]; intros st; simpl.
  - by rewrite add_sent_nil.
  - rewrite IH. rewrite send_add_sent.
    destruct (is_open (socket p) st) eqn:Hopen; simpl.
    + by rewrite add_sent_app.
    + done.
Qed.

Lemma broadcastToSession_Own code message st session :
  obj_get code (sessions st) = Some session ->
  broadcastToSession code message st
  = Done (add_sent (broadcast_messages session message st) st).
Proof.
  intros Hs. unfold broadcastToSession, js_lookup. rewrite Hs.
  apply forEach_broadcast.
Qed.

Lemma broadcastToSession_Absent code message st :
  js_lookup code (sessions st) = Absent ->
  broadcastToSession code message st = Done st.
Proof. intros Hs. unfold broadcastToSession. by rewrite Hs. Qed.

Lemma shuffled_keys_NoDup rnd session :
  NoDup (participants session).*1 ->
  NoDup (shuffled rnd (obj_keys (participants session))).
Proof. intros Hnd. rewrite shuffled_perm. by apply NoDup_obj_keys. Qed.

Lemma shuffle_links_cycle rnd session :
  NoDup (participants session).*1 ->
  shuffle_links rnd session
  = cycle_links (shuffled rnd (obj_keys (participants session))).
Proof. intros Hnd. apply make_links_cycle. by apply shuffled_keys_NoDup. Qed.

Lemma elem_of_shuffled_keys rnd session k :
  k ∈ shuffled rnd (obj_keys (participants session))
  <-> k ∈ (participants session).*1.
Proof. by rewrite shuffled_perm, obj_keys_perm. Qed.

Lemma shuffle_links_resolvable rnd session :
  NoDup (participants session).*1 ->
  Forall (resolvable session (shuffle_links rnd session))
         (obj_keys (shuffle_links rnd session)).
Proof.
  intros Hnd. apply Forall_forall. intros k Hk%elem_of_obj_keys.
  pose proof (shuffled_keys_NoDup rnd _ Hnd) as Hnd'.
  rewrite shuffle_links_cycle in * by done.
  apply obj_get_is_Some in Hk as [toId Hto].
  exists toId. split; [done|].
  apply obj_get_Some_elem, cycle_links_elem in Hto as (i & Hi & Hi').
  split; apply obj_get_is_Some, (elem_of_shuffled_keys rnd);
    apply list_elem_of_lookup; eauto.
Qed.

Lemma performShuffle_Own code rnd st session :
  obj_get code (sessions st) = Some session ->
  NoDup (participants session).*1 ->
  performShuffle code rnd st
  = Done (add_sent (shuffle_messages rnd session st)
            (set_sessions (obj_alter (set_links (shuffle_links rnd session)) code) st)).
Proof.
  intros Hs Hnd. unfold performShuffle, js_lookup. rewrite Hs.
  fold (shuffle_links rnd session).
  rewrite forEach_notify by (by apply shuffle_links_resolvable). done.
Qed.

Lemma performShuffle_Absent code rnd st :
  js_lookup code (sessions st) = Absent -> performShuffle code rnd st = Done st.
Proof. intros Hs. unfold performShuffle. by rewrite Hs. Qed.

(** * Rings of links *)

Lemma cycle_links_get c i a :
  NoDup c -> c !! i = Some a ->
  obj_get a (cycle_links c) = c !! ((i + 1) mod length c).
Proof.
  intros Hnd Ha.
  pose proof (lookup_lt_Some _ _ _ Ha) as Hi.
  destruct (lookup_lt_is_Some_2 c ((i + 1) mod length c)) as [b Hb].
  { apply Nat.mod_upper_bound. lia. }
  rewrite Hb. apply obj_get_elem_NoDup.
  - by rewrite cycle_links_keys.
  - apply cycle_links_elem. eauto.
Qed.

Lemma follow_cycle c k i a :
  NoDup c -> c !! i = Some a ->
  follow (cycle_links c) k a = c !! ((i + k) mod length c).
Proof.
  intros Hnd. revert i a. induction k as [|k IH]; intros i a Ha.
  - pose proof (lookup_lt_Some _ _ _ Ha) as Hi. simpl.
    by rewrite Nat.add_0_r, Nat.mod_small.
  - pose proof (lookup_lt_Some _ _ _ Ha) as Hi.
    cbn [follow]. rewrite (cycle_links_get c i a) by done.
    destruct (lookup_lt_is_Some_2 c ((i + 1) mod length c)) as [b Hb].
    { apply Nat.mod_upper_bound. lia. }
    rewrite Hb. rewrite (IH _ _ Hb).
    rewrite Nat.Div0.add_mod_idemp_l. do 2 f_equal. lia.
Qed.

Lemma follow_cycle_returns c a :
  NoDup c -> a ∈ c -> follow (cycle_links c) (length c) a = Some a.
Proof.
  intros Hnd (i & Ha)%list_elem_of_lookup.
  pose proof (lookup_lt_Some _ _ _ Ha) as Hi.
  rewrite (follow_cycle c _ i a) by done.
  replace (i + length c) with (i + 1 * length c) by lia.
  by rewrite Nat.Div0.mod_add, Nat.mod_small.
Qed.

Lemma follow_cycle_not_before c a k :
  NoDup c -> a ∈ c -> 0 < k < length c ->
  follow (cycle_links c) k a ≠ Some a.
Proof.
  intros Hnd (i & Ha)%list_elem_of_lookup Hk Hf.
  pose proof (lookup_lt_Some _ _ _ Ha) as Hi.
  rewrite (follow_cycle c _ i a) in Hf by done.
  pose proof (NoDup_lookup _ _ _ _ Hnd Ha Hf) as Heq.
  destruct (decide (i + k < length c)).
  - rewrite Nat.mod_small in Heq by done. lia.
  - replace (i + k) with ((i + k - length c) + 1 * length c) in Heq by lia.
    rewrite Nat.Div0.mod_add, Nat.mod_small in Heq by lia. lia.
Qed.

(** * C1 *)

(** C1. For a session with n >= 2 participants, [performShuffle] returns
    and leaves exactly n links; their sources and their targets are
    exactly the session's participant identities; the links are the steps
    of one ring through all the participants, so that following them from
    any participant comes back to it after n steps and not before; and no
    participant is linked to itself. *)
Theorem shuffle_single_cycle code rnd st session :
  obj_get code (sessions st) = Some session ->
  NoDup (participants session).*1 ->
  2 <= length (obj_keys (participants session)) ->
  exists st' session',
    performShuffle code rnd st = Done st' /\
    obj_get code (sessions st') = Some session' /\
    participants session' = participants session /\
    length (links session') = length (obj_keys (participants session)) /\
    (links session').*1 ≡ₚ obj_keys (participants session) /\
    (links session').*2 ≡ₚ obj_keys (participants session) /\
    single_cycle (links session') (obj_keys (participants session)) /\
    (forall a b, (a, b) ∈ links session' -> a ≠ b) /\
    (forall a, a ∈ obj_keys (participants session) ->
       follow (links session') (length (obj_keys (participants session))) a
         = Some a /\
       forall k, 0 < k < length (obj_keys (participants session)) ->
         follow (links session') k a ≠ Some a).
Proof.
  intros Hs Hnd Hn.
  set (c := shuffled rnd (obj_keys (participants session))).
  assert (NoDup c) as Hc by (by apply shuffled_keys_NoDup).
  assert (c ≡ₚ obj_keys (participants session)) as Hperm by apply shuffled_perm.
  assert (length c = length (obj_keys (participants session))) as Hlen
    by (by rewrite Hperm).
  eexists _, (set_links (cycle_links c) session).
  split; [by apply performShuffle_Own|].
  split.
  { simpl. rewrite obj_alter_get_eq, Hs. simpl.
    by rewrite shuffle_links_cycle. }
  split; [done|]. simpl.
  split; [by rewrite cycle_links_length|].
  split; [by rewrite cycle_links_keys|].
  split; [by rewrite cycle_links_targets|].
  split; [by exists c|].
  split.
  { intros a b. apply cycle_links_irrefl; [done | lia]. }
  intros a Ha. rewrite <- Hperm in Ha. rewrite <- Hlen. split.
  - by apply follow_cycle_returns.
  - intros k Hk. by apply follow_cycle_not_before.
Qed.

(** * C2 *)

Lemma polite_flag_swap a b : a ≠ b -> polite_flag a b = negb (polite_flag b a).
Proof.
  intros Hne. unfold polite_flag, String.ltb.
  rewrite (String.compare_antisym b a).
  destruct (String.compare a b) eqn:Hc; simpl; try done.
  apply String.compare_eq_iff in Hc. congruence.
Qed.

Lemma polite_flag_irrefl a : polite_flag a a = false.
Proof.
  unfold polite_flag, String.ltb.
  pose proof (String.compare_antisym a a) as H.
  destruct (String.compare a a); simpl in H; congruence.
Qed.

Lemma shuffle_links_get rnd session x y :
  NoDup (participants session).*1 ->
  (x, y) ∈ shuffle_links rnd session ->
  obj_get x (shuffle_links rnd session) = Some y.
Proof.
  intros Hnd Hin. apply obj_get_elem_NoDup; [|done].
  rewrite shuffle_links_cycle, cycle_links_keys by done.
  by apply shuffled_keys_NoDup.
Qed.

Lemma shuffle_links_members rnd session x y :
  NoDup (participants session).*1 ->
  (x, y) ∈ shuffle_links rnd session ->
  x ∈ (participants session).*1 /\ y ∈ (participants session).*1.
Proof.
  intros Hnd. rewrite shuffle_links_cycle by done.
  intros (i & Hx & Hy)%cycle_links_elem.
  split; apply (elem_of_shuffled_keys rnd), list_elem_of_lookup; eauto.
Qed.

(** The [shuffle] messages of one run of [performShuffle]: one for each
    link whose source has an open socket, carrying the flag of that link. *)
Lemma shuffle_messages_elem rnd session st x m :
  NoDup (participants session).*1 -> sockets_own session ->
  (x, m) ∈ shuffle_messages rnd session st <->
  exists y toP,
    (x, y) ∈ shuffle_links rnd session /\
    obj_get y (participants session) = Some toP /\
    is_open x st = true /\
    m = shuffle y (name toP) (polite_flag x y).
Proof.
  intros Hnd Hown. unfold shuffle_messages. rewrite list_elem_of_bind. split.
  - intros (k & Hm & Hk). unfold shuffle_message in Hm.
    destruct (obj_get k (shuffle_links rnd session)) as [toId|] eqn:Hto;
      [|by apply elem_of_nil in Hm].
    destruct (obj_get k (participants session)) as [fromP|] eqn:HfromP;
      [|by apply elem_of_nil in Hm].
    destruct (obj_get toId (participants session)) as [toP|] eqn:HtoP;
      [|by apply elem_of_nil in Hm].
    destruct (is_open (socket fromP) st) eqn:Hopen;
      [|by apply elem_of_nil in Hm].
    apply list_elem_of_singleton in Hm. simplify_eq.
    rewrite (Hown k fromP) in * by (by apply obj_get_Some_elem).
    exists toId, toP. split_and!; try done. by apply obj_get_Some_elem.
  - intros (y & toP & Hin & HtoP & Hopen & ->).
    exists x. split; [|apply elem_of_obj_keys, list_elem_of_fmap;
                       by exists (x, y)].
    unfold shuffle_message. rewrite (shuffle_links_get rnd session x y) by done.
    destruct (shuffle_links_members rnd session x y Hnd Hin) as [Hx _].
    apply obj_get_is_Some in Hx as [fromP HfromP]. rewrite HfromP, HtoP.
    rewrite (Hown x fromP) by (by apply obj_get_Some_elem).
    rewrite Hopen. by apply list_elem_of_singleton.
Qed.

(** In a ring of two, each link has its reverse. *)
Lemma cycle_links_pair c a b :
  length c = 2 -> (a, b) ∈ cycle_links c -> (b, a) ∈ cycle_links c.
Proof.
  destruct c as [|x [|y [|z c]]]; try done. intros _.
  unfold cycle_links. simpl.
  rewrite !elem_of_cons, !elem_of_nil. naive_solver.
Qed.

Lemma told_polite_iff rnd session st x y :
  NoDup (participants session).*1 -> sockets_own session ->
  told_polite (shuffle_messages rnd session st) x y <->
  (x, y) ∈ shuffle_links rnd session /\ is_open x st = true /\
  polite_flag x y = true.
Proof.
  intros Hnd Hown. unfold told_polite. split.
  - intros (nm & Hin). apply shuffle_messages_elem in Hin; [|done..].
    destruct Hin as (y' & toP & Hl & _ & Hopen & Heq). by simplify_eq.
  - intros (Hl & Hopen & Hflag).
    destruct (shuffle_links_members rnd session x y Hnd Hl) as [_ Hy].
    apply obj_get_is_Some in Hy as [toP HtoP].
    exists (name toP). apply shuffle_messages_elem; [done..|].
    exists y, toP. by rewrite Hflag.
Qed.

(** C2, as the code has it. For every link (A -> B) that a shuffle over
    distinct identities produces, the flag sent to A (when A's socket is
    open) is [A > B]: a function of the ordered pair (A, B), which
    recomputed with the two identities exchanged gives the opposite flag,
    so that exactly one of the two directions of a pair is polite. No
    [shuffle] message carries any other flag. B is sent a flag about A only
    when B -> A is a link too: with two participants, both sockets open,
    exactly one of the two is told [polite: true]. *)
Theorem polite_flag_per_link code rnd st session :
  obj_get code (sessions st) = Some session ->
  NoDup (participants session).*1 ->
  sockets_own session ->
  exists st' session' extra,
    performShuffle code rnd st = Done st' /\
    obj_get code (sessions st') = Some session' /\
    sent st' = sent st ++ extra /\
    (forall a b, (a, b) ∈ links session' -> is_open a st = true ->
       exists partnerName,
         (a, shuffle b partnerName (polite_flag a b)) ∈ extra) /\
    (forall x y partnerName p, (x, shuffle y partnerName p) ∈ extra ->
       (x, y) ∈ links session' /\ p = polite_flag x y) /\
    (forall a b : string, a ≠ b -> polite_flag a b = negb (polite_flag b a)) /\
    (length (obj_keys (participants session)) = 2 ->
     forall a b, (a, b) ∈ links session' ->
       is_open a st = true -> is_open b st = true ->
       (told_polite extra a b /\ ~ told_polite extra b a) \/
       (~ told_polite extra a b /\ told_polite extra b a)).
Proof.
  intros Hs Hnd Hown.
  eexists _, (set_links (shuffle_links rnd session) session),
    (shuffle_messages rnd session st).
  split; [by apply performShuffle_Own|].
  split; [simpl; by rewrite obj_alter_get_eq, Hs|].
  split; [done|]. simpl.
  split.
  { intros a b Hl Hopen.
    destruct (shuffle_links_members rnd session a b Hnd Hl) as [_ Hb].
    apply obj_get_is_Some in Hb as [toP HtoP].
    exists (name toP). apply shuffle_messages_elem; [done..|]. by exists b, toP. }
  split.
  { intros x y nm p Hin. apply shuffle_messages_elem in Hin; [|done..].
    destruct Hin as (y' & toP & Hl & _ & _ & Heq). by simplify_eq. }
  split; [apply polite_flag_swap|].
  intros Hn a b Hl Ha Hb.
  assert ((b, a) ∈ shuffle_links rnd session) as Hl'.
  { rewrite shuffle_links_cycle in * by done.
    apply cycle_links_pair; [|done]. by rewrite shuffled_perm. }
  assert (a ≠ b) as Hne.
  { rewrite shuffle_links_cycle in Hl by done.
    eapply cycle_links_irrefl; [by apply shuffled_keys_NoDup| |done].
    rewrite shuffled_perm. lia. }
  rewrite !told_polite_iff by done.
  rewrite (polite_flag_swap a b Hne).
  destruct (polite_flag b a); simpl; [right | left]; naive_solver.
Qed.

(** C2, as the specification states it, fails on a ring of three. With
    [a], [b], [c] shuffled into the ring a -> b -> c -> a, the link
    (a -> b) is produced, neither [a] nor [b] is told [polite: true] for
    that pairing, and the flag computed from the side of [a] differs from
    the flag computed from the side of [b]. *)
Lemma polite_flag_unordered_pair_counterexample :
  exists st',
    performShuffle "X" ring_order trio = Done st' /\
    links <$> obj_get "X" (sessions st')
      = Some [("a", "b"); ("b", "c"); ("c", "a")] /\
    sent st' = [("a", shuffle "b" (JStr "B") false);
                ("b", shuffle "c" (JStr "C") false);
                ("c", shuffle "a" (JStr "A") true)] /\
    ~ told_polite (sent st') "a" "b" /\
    ~ told_polite (sent st') "b" "a" /\
    polite_flag "a" "b" ≠ polite_flag "b" "a".
Proof.
  eexists. split; [vm_compute; reflexivity|].
  split; [vm_compute; reflexivity|]. split; [vm_compute; reflexivity|].
  split_and!.
  - intros [nm H]. cbn [sent] in H.
    rewrite !elem_of_cons, elem_of_nil in H. naive_solver.
  - intros [nm H]. cbn [sent] in H.
    rewrite !elem_of_cons, elem_of_nil in H. naive_solver.
  - vm_compute. discriminate.
Qed.

(** * The invariant *)

Section invariant.
Context (strict : Prop).

Lemma consistent_initial : consistent strict initial.
Proof.
  split.
  - intros code s H. discriminate.
  - intros h code H. cbn in H. by rewrite lookup_empty in H.
Qed.

(** A handler that rewrites the session under [code] only, and the
    intervals for [code] only, keeps the invariant if the new session is in
    order. *)
Lemma consistent_update st st' code :
  consistent strict st ->
  (forall c, c ≠ code -> obj_get c (sessions st') = obj_get c (sessions st)) ->
  (forall s', obj_get code (sessions st') = Some s' ->
     NoDup (participants s').*1 /\ sockets_own s' /\ participants s' ≠ [] /\
     (length (obj_keys (participants s')) <= 2 -> timer s' = None) /\
     (strict -> timer s' = None -> length (obj_keys (participants s')) <= 2) /\
     code ∉ Object_prototype_keys) ->
  (forall h c, intervals st' !! h = Some c <->
     (c ≠ code /\ intervals st !! h = Some c) \/
     (c = code /\ timer_of code (sessions st') = Some h)) ->
  (forall h, timer_of code (sessions st') = Some h -> h < next_handle st') ->
  next_handle st <= next_handle st' ->
  consistent strict st'.
Proof.
  intros [Hss Hiv] Hother Hlocal Hivs Hnew Hnh. split.
  - intros c s Hs. destruct (decide (c = code)) as [->|Hne].
    + destruct (Hlocal s Hs) as (? & ? & ? & ? & ? & ?). split; try done.
      intros h Hh. apply Hivs. right. split; [done|].
      unfold timer_of. by rewrite Hs.
    + rewrite Hother in Hs by done. destruct (Hss c s Hs). split; try done.
      intros h Hh. apply Hivs. left. auto.
  - intros h c [[Hne Hh]|[-> Hh]]%Hivs.
    + destruct (Hiv h c Hh) as (? & s & Hs & Ht). split; [lia|].
      exists s. by rewrite Hother.
    + split; [auto|]. unfold timer_of in Hh.
      destruct (obj_get code (sessions st')) as [s'|]; [|done]. by exists s'.
Qed.

(** The three ways a handler treats the intervals of [code]. *)
Lemma intervals_kept st code ss' :
  consistent strict st ->
  timer_of code ss' = timer_of code (sessions st) ->
  forall h c, intervals st !! h = Some c <->
     (c ≠ code /\ intervals st !! h = Some c) \/
     (c = code /\ timer_of code ss' = Some h).
Proof.
  intros [Hss Hiv] Heq h c. rewrite Heq. unfold timer_of. split.
  - intros Hh. destruct (decide (c = code)) as [->|Hne]; [right | by left].
    destruct (Hiv h code Hh) as (_ & s & Hs & Ht). by rewrite Hs.
  - intros [[_ ?]|[-> Hh]]; [done|].
    destruct (obj_get code (sessions st)) as [s|] eqn:Hs; [|done].
    by apply (ok_live _ _ _ _ (Hss code s Hs)).
Qed.

Lemma consistent_timers st : consistent strict st -> timers_consistent st.
Proof.
  intros [Hss Hiv]. split; [|done].
  intros code s h Hs Ht. by apply (ok_live _ _ _ _ (Hss code s Hs)).
Qed.

Lemma cleared_lookup st code h c :
  timers_consistent st ->
  cleared code st !! h = Some c <-> c ≠ code /\ intervals st !! h = Some c.
Proof.
  intros [Hlive Hiv]. unfold cleared, timer_of.
  destruct (obj_get code (sessions st)) as [s|] eqn:Hs; simpl.
  - destruct (timer s) as [h0|] eqn:Ht.
    + pose proof (Hlive code s h0 Hs Ht) as Hh0.
      rewrite lookup_delete. case_decide; subst.
      * split; [done|]. intros [Hne Hh]. congruence.
      * split; [|naive_solver]. intros Hh. split; [|done]. intros ->.
        destruct (Hiv h code Hh) as (_ & s' & Hs' & Ht'). congruence.
    + split; [|naive_solver]. intros Hh. split; [|done]. intros ->.
      destruct (Hiv h code Hh) as (_ & s' & Hs' & Ht'). congruence.
  - split; [|naive_solver]. intros Hh. split; [|done]. intros ->.
    destruct (Hiv h code Hh) as (_ & s' & Hs' & Ht'). congruence.
Qed.

Lemma intervals_cleared st code ss' :
  consistent strict st ->
  timer_of code ss' = None ->
  forall h c, cleared code st !! h = Some c <->
     (c ≠ code /\ intervals st !! h = Some c) \/
     (c = code /\ timer_of code ss' = Some h).
Proof.
  intros Hc Hnone h c.
  rewrite cleared_lookup by (by apply consistent_timers). rewrite Hnone.
  naive_solver.
Qed.

Lemma intervals_restarted st code ss' :
  consistent strict st ->
  timer_of code ss' = Some (next_handle st) ->
  forall h c, <[next_handle st := code]> (cleared code st) !! h = Some c <->
     (c ≠ code /\ intervals st !! h = Some c) \/
     (c = code /\ timer_of code ss' = Some h).
Proof.
  intros Hc Hsome h c. rewrite Hsome, lookup_insert.
  case_decide as Hh; subst.
  - split; [naive_solver|]. intros [[Hne Hh]|[-> _]]; [|done].
    destruct (intervals_owned _ _ Hc _ _ Hh). lia.
  - rewrite cleared_lookup by (by apply consistent_timers). naive_solver.
Qed.

Lemma initiateShuffleCycle_Own code rnd st session :
  obj_get code (sessions st) = Some session ->
  NoDup (participants session).*1 ->
  initiateShuffleCycle code rnd st = Done (restarted code rnd session st).
Proof.
  intros Hs Hnd. unfold initiateShuffleCycle, js_lookup. rewrite Hs.
  unfold restarted, cleared, timer_of. rewrite Hs. simpl.
  destruct (timer session) as [h|] eqn:Ht.
  - rewrite (performShuffle_Own code rnd _ (set_timer None session)); last done.
    2: { simpl. by rewrite obj_alter_get_eq, Hs. }
    simpl.
    destruct (2 <? length (obj_keys (participants session)))%nat;
      unfold setInterval, add_sent, set_sessions; simpl; do 2 f_equal;
      rewrite !obj_alter_compose; by apply (obj_alter_ext _ _ _ _ session).
  - rewrite (performShuffle_Own code rnd _ session) by done. simpl.
    destruct (2 <? length (obj_keys (participants session)))%nat;
      unfold setInterval, add_sent, set_sessions; simpl; do 2 f_equal;
      rewrite ?obj_alter_compose; apply (obj_alter_ext _ _ _ _ session);
      try done; unfold set_links; simpl; by rewrite ?Ht.
Qed.

Lemma consistent_same st st' :
  sessions st' = sessions st -> intervals st' = intervals st ->
  next_handle st' = next_handle st -> consistent strict st -> consistent strict st'.
Proof.
  intros Hs Hi Hn [Hss Hiv]. split.
  - intros code s. rewrite Hs, Hi. apply Hss.
  - intros h code. rewrite Hs, Hi, Hn. apply Hiv.
Qed.

Lemma consistent_add_sent e st : consistent strict st -> consistent strict (add_sent e st).
Proof. by apply consistent_same. Qed.

(** The membership of [code] changes and no shuffle cycle starts: the
    session keeps the timer it had. *)
Lemma consistent_registered st0 st1 code session :
  consistent strict st0 ->
  (forall c, c ≠ code -> obj_get c (sessions st1) = obj_get c (sessions st0)) ->
  obj_get code (sessions st1) = Some session ->
  timer_of code (sessions st0) = timer session ->
  (length (obj_keys (participants session)) <= 2 -> timer session = None) ->
  (strict -> timer session = None ->
   length (obj_keys (participants session)) <= 2) ->
  intervals st1 = intervals st0 ->
  next_handle st1 = next_handle st0 ->
  NoDup (participants session).*1 -> sockets_own session ->
  participants session ≠ [] -> code ∉ Object_prototype_keys ->
  consistent strict st1.
Proof.
  intros Hc Hother Hs Hold Hnone Hlen Hiv Hnh Hnd Hown Hne Hcode.
  apply (consistent_update st0 st1 code); try done.
  - intros s' Hs'. rewrite Hs in Hs'. simplify_eq. split_and!; try done.
  - rewrite Hiv. apply intervals_kept; [done|].
    unfold timer_of at 1. by rewrite Hs.
  - intros h. unfold timer_of. rewrite Hs. simpl. intros Ht.
    rewrite Ht in Hold. unfold timer_of in Hold.
    destruct (obj_get code (sessions st0)) as [s0|] eqn:Hs0; [|done].
    simpl in Hold. rewrite Hnh.
    destruct (sessions_ok _ _ Hc _ _ Hs0) as [_ _ _ _ _ Hlive _].
    by destruct (intervals_owned _ _ Hc _ _ (Hlive h Hold)).
  - lia.
Qed.

(** ... and the session had, and keeps, no timer. *)
Lemma consistent_participants st0 st1 code session :
  consistent strict st0 ->
  (forall c, c ≠ code -> obj_get c (sessions st1) = obj_get c (sessions st0)) ->
  obj_get code (sessions st1) = Some session ->
  timer_of code (sessions st0) = timer session ->
  timer session = None ->
  length (obj_keys (participants session)) <= 2 ->
  intervals st1 = intervals st0 ->
  next_handle st1 = next_handle st0 ->
  NoDup (participants session).*1 -> sockets_own session ->
  participants session ≠ [] -> code ∉ Object_prototype_keys ->
  consistent strict st1.
Proof.
  intros Hc Hother Hs Hold Hnone Hlen Hiv Hnh Hnd Hown Hne Hcode.
  by apply (consistent_registered st0 st1 code session).
Qed.

(** The membership of [code] changed and the shuffle cycle is started
    again. *)
Lemma consistent_restarted st0 st1 code rnd session :
  consistent strict st0 ->
  (forall c, c ≠ code -> obj_get c (sessions st1) = obj_get c (sessions st0)) ->
  obj_get code (sessions st1) = Some session ->
  timer_of code (sessions st0) = timer session ->
  intervals st1 = intervals st0 ->
  next_handle st1 = next_handle st0 ->
  NoDup (participants session).*1 -> sockets_own session ->
  participants session ≠ [] -> code ∉ Object_prototype_keys ->
  consistent strict (restarted code rnd session st1).
Proof.
  intros Hc Hother Hs Hold Hiv Hnh Hnd Hown Hne Hcode.
  assert (cleared code st1 = cleared code st0) as Hcl.
  { unfold cleared. rewrite Hiv, Hold. unfold timer_of. by rewrite Hs. }
  apply (consistent_update st0 _ code); try done.
  - intros c Hc'. simpl. rewrite obj_alter_get_ne by done. auto.
  - intros s'. simpl. rewrite obj_alter_get_eq, Hs. simpl.
    intros ?; simplify_eq. simpl. split_and!; try done.
    + destruct (2 <? _)%nat eqn:Hlt; [|done].
      apply Nat.ltb_lt in Hlt. lia.
    + destruct (2 <? _)%nat eqn:Hlt; [done|].
      apply Nat.ltb_ge in Hlt. lia.
  - simpl. rewrite Hcl, Hnh.
    destruct (2 <? _)%nat eqn:Hlt.
    + apply intervals_restarted; [done|].
      unfold timer_of. by rewrite obj_alter_get_eq, Hs.
    + apply intervals_cleared; [done|].
      unfold timer_of. by rewrite obj_alter_get_eq, Hs.
  - intros h. unfold timer_of. simpl. rewrite obj_alter_get_eq, Hs. simpl.
    destruct (2 <? _)%nat; intros; simplify_eq. lia.
  - simpl. rewrite Hnh. destruct (2 <? _)%nat; lia.
Qed.

Lemma broadcastToSession_frame code message st :
  exists e, final (broadcastToSession code message st) = add_sent e st.
Proof.
  destruct (js_lookup code (sessions st)) as [session| |] eqn:Hl.
  - apply js_lookup_Own in Hl. rewrite (broadcastToSession_Own _ _ _ session Hl).
    by eexists.
  - unfold broadcastToSession. rewrite Hl. exists []. by rewrite add_sent_nil.
  - rewrite broadcastToSession_Absent by done. exists []. by rewrite add_sent_nil.
Qed.

Lemma consistent_alter_links st code L :
  consistent strict st -> consistent strict (set_sessions (obj_alter (set_links L) code) st).
Proof.
  intros Hc. apply (consistent_update st _ code); try done.
  - intros c Hne. simpl. by rewrite obj_alter_get_ne.
  - intros s'. simpl. rewrite obj_alter_get_eq.
    destruct (obj_get code (sessions st)) as [s|] eqn:Hs; [|done].
    simpl. intros ?; simplify_eq. destruct (sessions_ok _ _ Hc _ _ Hs). done.
  - simpl. apply intervals_kept; [done|].
    unfold timer_of. rewrite obj_alter_get_eq.
    by destruct (obj_get code (sessions st)).
  - intros h. simpl. unfold timer_of. rewrite obj_alter_get_eq.
    destruct (obj_get code (sessions st)) as [s|] eqn:Hs; [|done]. simpl.
    intros Ht. destruct (sessions_ok _ _ Hc _ _ Hs) as [_ _ _ _ _ Hlive _].
    by destruct (intervals_owned _ _ Hc _ _ (Hlive h Ht)).
Qed.

Lemma performShuffle_consistent code rnd st :
  consistent strict st -> consistent strict (final (performShuffle code rnd st)).
Proof.
  intros Hc. destruct (js_lookup code (sessions st)) as [session| |] eqn:Hl.
  - apply js_lookup_Own in Hl.
    rewrite (performShuffle_Own _ _ _ session Hl)
      by apply (sessions_ok _ _ Hc _ _ Hl).
    by apply consistent_add_sent, consistent_alter_links.
  - unfold performShuffle. by rewrite Hl.
  - by rewrite performShuffle_Absent.
Qed.

Lemma joinSession_consistent ws payload rnd st :
  consistent strict st ->
  (strict -> exists st', joinSession ws payload rnd st = Done st') ->
  consistent strict (final (joinSession ws payload rnd st)).
Proof.
  intros Hc Hdone. unfold joinSession in *.
  destruct (get_prop payload "sessionCode") as [sc|]; [|done].
  destruct (get_prop payload "participantName") as [pn|]; [|done].
  unfold ToPropertyKey in *.
  destruct (ToString sc) as [code|] eqn:Hkey; [|done].
  destruct (js_lookup code (sessions st)) as [s0| |] eqn:Hl; [|done|].
  - (* the session exists *)
    apply js_lookup_Own in Hl.
    destruct (sessions_ok _ _ Hc _ _ Hl) as [Hnd Hown Hne Htm Hst Hlive Hcode].
    set (ps := obj_set ws (mkParticipant pn ws) (participants s0)) in *.
    set (s1 := set_participants ps s0) in *.
    set (st2 := set_conns _ (set_sessions (obj_set code s1) st)) in *.
    assert (obj_get code (sessions st2) = Some s1) as Hs1
      by apply obj_set_get_eq.
    assert (sockets_own s1) as Hown1.
    { intros k p [?|?]%elem_of_obj_set; [by simplify_eq | by apply Hown]. }
    assert (length (obj_keys (participants s0)) <= length (obj_keys ps)) as Hge.
    { rewrite !length_obj_keys. apply obj_set_length_ge. }
    destruct (ToString pn) as [nm|]; last first.
    { (* the log line throws *)
      simpl. apply (consistent_registered st _ code s1); try done.
      - intros c Hne'. simpl. by rewrite obj_set_get_ne.
      - unfold timer_of. by rewrite Hl.
      - simpl. intros Hlen. apply Htm. lia.
      - intros Hs. by destruct (Hdone Hs).
      - by apply obj_set_NoDup.
      - apply obj_set_nonempty. }
    rewrite (broadcastToSession_Own _ _ _ s1 Hs1). simpl.
    destruct (2 <=? length (obj_keys ps))%nat eqn:Hlen.
    + rewrite (initiateShuffleCycle_Own _ _ _ s1);
        [|done|by apply obj_set_NoDup].
      apply (consistent_restarted st); try done.
      * intros c Hne'. simpl. by rewrite obj_set_get_ne.
      * unfold timer_of. by rewrite Hl.
      * by apply obj_set_NoDup.
      * apply obj_set_nonempty.
    + apply Nat.leb_gt in Hlen. simpl.
      apply (consistent_participants st _ code s1); try done.
      * intros c Hne'. simpl. by rewrite obj_set_get_ne.
      * unfold timer_of. by rewrite Hl.
      * simpl. apply Htm. lia.
      * subst s1. simpl. lia.
      * by apply obj_set_NoDup.
      * apply obj_set_nonempty.
  - (* the session is created *)
    apply js_lookup_Absent in Hl as [Hl Hcode]. simpl in *.
    set (s1 := set_participants [(ws, mkParticipant pn ws)]
                                (mkSession [] [] None)) in *.
    set (st2 := set_conns _ (set_sessions (obj_set code s1) st)) in *.
    assert (obj_get code (sessions st2) = Some s1) as Hs1
      by apply obj_set_get_eq.
    assert (sockets_own s1) as Hown1.
    { intros k p ?%list_elem_of_singleton. by simplify_eq. }
    assert (consistent strict st2) as Hc2.
    { apply (consistent_participants st _ code s1); try done.
      + intros c Hne'. simpl. by rewrite obj_set_get_ne.
      + unfold timer_of. by rewrite Hl.
      + simpl. rewrite length_obj_keys. simpl. lia.
      + simpl. apply NoDup_singleton. }
    destruct (ToString pn) as [nm|]; [|done].
    rewrite (broadcastToSession_Own _ _ _ s1 Hs1). simpl.
    rewrite length_obj_keys. simpl. by apply consistent_add_sent.
Qed.

Lemma relay_frame ws payload st :
  exists e, final (relay ws payload st) = add_sent e st.
Proof.
  unfold relay.
  destruct (get_prop payload "to") as [to|], (get_prop payload "signal");
    try (exists []; by rewrite add_sent_nil).
  destruct (ToPropertyKey (ws_sessionCode ws st)) as [code|];
    try (exists []; by rewrite add_sent_nil).
  destruct (js_lookup _ (sessions st)) as [session| |];
    try (exists []; by rewrite add_sent_nil).
  destruct (ToPropertyKey to) as [key|];
    try (exists []; by rewrite add_sent_nil).
  destruct (obj_get _ (participants session)) as [recipient|];
    try (exists []; by rewrite add_sent_nil).
  simpl. rewrite send_add_sent. by eexists.
Qed.

Lemma on_message_consistent ws message rnd st :
  consistent strict st ->
  (strict -> exists st', on_message ws message rnd st = Done st') ->
  consistent strict (final (on_message ws message rnd st)).
Proof.
  intros Hc Hdone. unfold on_message in *.
  destruct message as [data|]; [|done].
  destruct (get_prop data "type") as [[| | | |type| |]|]; try done;
    destruct (get_prop data "payload") as [payload|]; try done.
  repeat case_decide; try done.
  - by apply joinSession_consistent.
  - destruct (relay_frame ws payload st) as [e ->].
    by apply consistent_add_sent.
Qed.

Lemma clearInterval_sessions h st : sessions (clearInterval h st) = sessions st.
Proof. by destruct h. Qed.

Lemma clearInterval_next_handle h st :
  next_handle (clearInterval h st) = next_handle st.
Proof. by destruct h. Qed.

Lemma on_close_consistent ws rnd st :
  consistent strict st -> consistent strict (final (on_close ws rnd st)).
Proof.
  intros Hc. unfold on_close.
  set (st0 := set_conns _ st).
  assert (consistent strict st0) as Hc0 by (by apply (consistent_same st)).
  clearbody st0. clear Hc.
  destruct (list_find _ (obj_entries (sessions st0)))
    as [[i [code session]]|] eqn:Hfind; [|done].
  apply list_find_Some in Hfind as (Hi & Hin & _). simpl in Hin.
  assert (obj_get code (sessions st0) = Some session) as Hs.
  { apply elem_of_obj_entries, list_elem_of_lookup. eauto. }
  destruct (sessions_ok _ _ Hc0 _ _ Hs) as [Hnd Hown Hne Htm Hst Hlive Hcode].
  set (ps := obj_delete ws (participants session)).
  assert (S (length ps) = length (participants session)) as Hlen.
  { apply obj_delete_length; [done|]. by apply obj_get_is_Some. }
  case_decide as Hzero.
  - (* the last participant left *)
    simpl. apply (consistent_update st0 _ code); try done.
    + intros c Hne'. simpl. rewrite clearInterval_sessions.
      by rewrite obj_delete_get_ne.
    + intros s'. simpl. rewrite clearInterval_sessions.
      by rewrite obj_delete_get_eq.
    + assert (intervals (clearInterval (timer session) st0) = cleared code st0)
        as Hcl.
      { unfold cleared, timer_of. rewrite Hs. simpl. by destruct (timer session). }
      pose proof (intervals_cleared st0 code (obj_delete code (sessions st0)) Hc0)
        as Hiv.
      rewrite <- Hcl, <- (clearInterval_sessions (timer session)) in Hiv.
      apply Hiv. unfold timer_of.
      by rewrite clearInterval_sessions, obj_delete_get_eq.
    + intros h. simpl. unfold timer_of.
      by rewrite clearInterval_sessions, obj_delete_get_eq.
    + simpl. by rewrite clearInterval_next_handle.
  - (* others remain *)
    set (s1 := set_participants ps session).
    set (st1 := set_sessions (obj_alter (set_participants ps) code) st0).
    assert (obj_get code (sessions st1) = Some s1) as Hs1.
    { simpl. by rewrite obj_alter_get_eq, Hs. }
    rewrite (broadcastToSession_Own _ _ _ s1 Hs1). simpl.
    assert (NoDup (participants s1).*1) as Hnd1 by (by apply obj_delete_NoDup).
    assert (sockets_own s1) as Hown1.
    { intros k p ?%elem_of_obj_delete. by apply Hown. }
    assert (participants s1 ≠ []) as Hne1.
    { simpl. intros Hnil. apply Hzero. by rewrite length_obj_keys, Hnil. }
    destruct (1 <? length (obj_keys ps))%nat eqn:Hmore.
    + rewrite (initiateShuffleCycle_Own _ _ _ s1) by done.
      apply (consistent_restarted st0); try done.
      * intros c Hne'. simpl. by rewrite obj_alter_get_ne.
      * unfold timer_of. by rewrite Hs.
    + apply Nat.ltb_ge in Hmore. rewrite length_obj_keys in Hmore.
      simpl. apply (consistent_participants st0 _ code s1); try done.
      * intros c Hne'. simpl. by rewrite obj_alter_get_ne.
      * unfold timer_of. by rewrite Hs.
      * simpl. apply Htm. rewrite length_obj_keys. lia.
      * simpl. rewrite length_obj_keys. lia.
Qed.

Lemma interval_callback_consistent code st :
  consistent strict st -> consistent strict (final (interval_callback code st)).
Proof.
  intros Hc. unfold interval_callback.
  destruct (broadcastToSession_frame code
              (shuffle_countdown countdown_duration) st) as [e He].
  destruct (broadcastToSession _ _ st) as [st1|st1]; simpl in *; subst.
  - by apply (consistent_same st).
  - by apply consistent_add_sent.
Qed.

Lemma handle_consistent e st :
  consistent strict st ->
  (strict -> exists st', handle e st = Done st') ->
  consistent strict (final (handle e st)).
Proof.
  intros Hc Hdone.
  destruct e as [ws|ws message rnd|ws|ws rnd|h|rnd]; simpl in *.
  - by apply (consistent_same st).
  - by apply on_message_consistent.
  - by apply (consistent_same st).
  - by apply on_close_consistent.
  - destruct (intervals st !! h); [|done].
    by apply interval_callback_consistent.
  - destruct (timeouts st) as [|code rest]; [done|].
    apply performShuffle_consistent. by apply (consistent_same st).
Qed.

End invariant.

(** The invariant holds of every reachable state, and in its strict form
    as long as no handler has thrown. *)
Lemma reachable_consistent st : reachable st -> consistent False st.
Proof.
  induction 1 as [|st e _ IH _]; [apply consistent_initial|].
  by apply handle_consistent.
Qed.

Lemma reachable_without_throw_consistent st :
  reachable_without_throw st -> consistent True st.
Proof.
  induction 1 as [|st e st' _ IH He Hh]; [apply consistent_initial|].
  replace st' with (final (handle e st)) by (by rewrite Hh).
  apply handle_consistent; [done|]. intros _. by exists st'.
Qed.

Lemma reachable_without_throw_reachable st :
  reachable_without_throw st -> reachable st.
Proof.
  induction 1 as [|st e st' _ IH He Hh]; [constructor|].
  replace st' with (final (handle e st)) by (by rewrite Hh).
  by constructor.
Qed.

Lemma run_reachable es st st' :
  reachable st -> run es st = Some st' -> reachable st'.
Proof.
  revert st. induction es as [|e es IH]; intros st Hr; simpl.
  - intros ?; by simplify_eq.
  - destruct (enabled e st) eqn:He; [|done].
    apply IH. by apply reachable_step.
Qed.

Lemma reachable_after es : reachable (after es).
Proof.
  unfold after. destruct (run es initial) as [st|] eqn:Hrun; simpl.
  - by apply (run_reachable es initial), Hrun; constructor.
  - constructor.
Qed.

(** * C6 *)

Lemma elem_of_obj_values {V} (o : obj V) k v :
  obj_get k o = Some v -> v ∈ obj_values o.
Proof.
  intros Hk. unfold obj_values, obj_entries.
  apply list_elem_of_fmap. exists (k, v). split; [done|].
  apply list_elem_of_omap. exists k. split.
  - apply elem_of_obj_keys, obj_get_is_Some. eauto.
  - by rewrite Hk.
Qed.

Lemma broadcast_reaches session message st k p :
  sockets_own session ->
  obj_get k (participants session) = Some p -> is_open k st = true ->
  (k, message) ∈ broadcast_messages session message st.
Proof.
  intros Hown Hk Hopen. unfold broadcast_messages.
  apply list_elem_of_bind. exists p. split; [|by eapply elem_of_obj_values].
  rewrite (Hown k p) by (by apply obj_get_Some_elem).
  rewrite Hopen. by apply list_elem_of_singleton.
Qed.

Lemma broadcast_only session message st x m :
  sockets_own session ->
  (x, m) ∈ broadcast_messages session message st ->
  m = message /\ is_Some (obj_get x (participants session)).
Proof.
  intros Hown. unfold broadcast_messages.
  intros (p & Hin & Hp)%list_elem_of_bind.
  destruct (is_open (socket p) st); [|by apply elem_of_nil in Hin].
  apply list_elem_of_singleton in Hin. simplify_eq. split; [done|].
  unfold obj_values in Hp.
  apply list_elem_of_fmap in Hp as ([k p'] & -> & Hkp). simpl.
  apply elem_of_obj_entries in Hkp.
  rewrite (Hown k p') by (by apply obj_get_Some_elem). eauto.
Qed.


(** * C9 *)

Lemma restarted_one_timer st code rnd s :
  timers_consistent st ->
  obj_get code (sessions st) = Some s ->
  (forall h, timer s = Some h ->
     intervals (restarted code rnd s st) !! h = None) /\
  (forall h, intervals (restarted code rnd s st) !! h = Some code ->
     h = next_handle st).
Proof.
  intros Htc Hs. split.
  - intros h Ht. simpl.
    pose proof (timers_live _ Htc _ _ _ Hs Ht) as Hh.
    destruct (timers_owned _ Htc _ _ Hh) as [Hlt _].
    assert (cleared code st !! h = None) as Hcl.
    { unfold cleared, timer_of. rewrite Hs. simpl. rewrite Ht.
      apply lookup_delete_eq. }
    destruct (2 <? _)%nat; [|done].
    rewrite lookup_insert_ne by lia. done.
  - intros h. simpl. destruct (2 <? _)%nat.
    + rewrite lookup_insert. case_decide; [done|].
      rewrite cleared_lookup by done. naive_solver.
    + rewrite cleared_lookup by done. naive_solver.
Qed.

(** C9. In every reachable state a session code has at most one live
    interval. Whenever [initiateShuffleCycle] runs for a session, inside a
    handler or not, as long as the timers are in order, it returns, the
    timer the session held is no longer live, and at most one interval,
    the one just started, is live for the session. *)
Theorem at_most_one_live_timer st :
  reachable st ->
  (forall code h1 h2,
     intervals st !! h1 = Some code -> intervals st !! h2 = Some code ->
     h1 = h2) /\
  timers_consistent st /\
  (forall st1 code s rnd,
     timers_consistent st1 ->
     obj_get code (sessions st1) = Some s ->
     NoDup (participants s).*1 ->
     exists st2,
       initiateShuffleCycle code rnd st1 = Done st2 /\
       (forall h, timer s = Some h -> intervals st2 !! h = None) /\
       (forall h1 h2,
          intervals st2 !! h1 = Some code -> intervals st2 !! h2 = Some code ->
          h1 = h2)).
Proof.
  intros Hc%reachable_consistent. split_and!.
  - intros code h1 h2 H1 H2.
    destruct (intervals_owned _ _ Hc _ _ H1) as (_ & s1 & Hs1 & Ht1).
    destruct (intervals_owned _ _ Hc _ _ H2) as (_ & s2 & Hs2 & Ht2).
    congruence.
  - by apply (consistent_timers False).
  - intros st1 code s rnd Htc Hs Hnd.
    exists (restarted code rnd s st1).
    split; [by apply initiateShuffleCycle_Own|].
    destruct (restarted_one_timer st1 code rnd s Htc Hs) as [Hold Hnew].
    split; [done|]. intros h1 h2 H1%Hnew H2%Hnew. congruence.
Qed.

(** * C4 *)

Lemma own_keys_singleton k : own_keys [k] = [k].
Proof. apply Permutation_singleton_r, own_keys_perm. Qed.

(** What [performShuffle] does to a session of one participant: the
    participant is linked to itself and, if its socket is open, told that
    its partner is itself. *)
Lemma performShuffle_one code rnd st s k p :
  obj_get code (sessions st) = Some s ->
  participants s = [(k, p)] ->
  performShuffle code rnd st
  = Done (add_sent
            (if is_open (socket p) st
             then [(socket p, shuffle k (name p) false)] else [])
            (set_sessions (obj_alter (set_links [(k, k)]) code) st)).
Proof.
  intros Hs Hp. rewrite (performShuffle_Own _ _ _ s Hs); last first.
  { rewrite Hp. apply NoDup_singleton. }
  assert (shuffle_links rnd s = [(k, k)]) as Hl.
  { unfold shuffle_links, obj_keys. rewrite Hp. simpl.
    by rewrite own_keys_singleton. }
  unfold shuffle_messages. rewrite Hl. unfold obj_keys. simpl.
  rewrite own_keys_singleton. simpl. unfold shuffle_message. rewrite Hp. simpl.
  rewrite !decide_True by done. rewrite polite_flag_irrefl.
  by rewrite app_nil_r.
Qed.

(** For a session without participants (no reachable session is one)
    [performShuffle] sends nothing and leaves no link. *)
Lemma performShuffle_none code rnd st s :
  obj_get code (sessions st) = Some s ->
  participants s = [] ->
  performShuffle code rnd st
  = Done (set_sessions (obj_alter (set_links []) code) st).
Proof.
  intros Hs Hp. rewrite (performShuffle_Own _ _ _ s Hs); last first.
  { rewrite Hp. apply NoDup_nil_2. }
  assert (shuffle_links rnd s = []) as Hl.
  { unfold shuffle_links, obj_keys. by rewrite Hp. }
  unfold shuffle_messages. rewrite Hl. by rewrite add_sent_nil.
Qed.

(** C4 fails on the code for one participant. [a], [b], [c] join [X]; the
    interval ticks; [a] and [b] leave before the timeout it scheduled
    expires. In the state reached [X] holds [c] alone, and the expiry of the
    timeout runs [performShuffle], which links [c] to [c] and sends [c] a
    [shuffle] message naming [c] as its partner. *)
Theorem shuffle_of_one_participant_links_it_to_itself :
  let st := after two_leave_in_countdown in
  run two_leave_in_countdown initial = Some st /\
  participants <$> obj_get "X" (sessions st) = Some [member "c" "C"] /\
  enabled (TimeoutFires ring_order) st = true /\
  exists st',
    handle (TimeoutFires ring_order) st = Done st' /\
    links <$> obj_get "X" (sessions st') = Some [("c", "c")] /\
    sent st' = sent st ++ [("c", shuffle "c" (JStr "C") false)].
Proof.
  cbv zeta. split_and!; [vm_compute; reflexivity..|].
  eexists. split; [vm_compute; reflexivity|].
  split; vm_compute; reflexivity.
Qed.

(** * C7 *)

(** What the code does by design when the close handler finds [ws] alone
    in the session [code]: the session's timer is no longer live, no
    interval is live for [code], and the entry is gone. *)
Lemma last_leave_tears_down strict st ws rnd :
  consistent strict st ->
  forall i code session,
    list_find (fun e => is_Some (obj_get ws (participants e.2)))
              (obj_entries (sessions st)) = Some (i, (code, session)) ->
    length (obj_keys (obj_delete ws (participants session))) = 0 ->
    exists st',
      on_close ws rnd st = Done st' /\
      obj_get code (sessions st') = None /\
      (forall h, intervals st' !! h ≠ Some code) /\
      timeouts st' = timeouts st /\ sent st' = sent st.
Proof.
  intros Hc i code session Hfind Hzero.
  pose proof (on_close_consistent strict ws rnd st Hc) as Hc'.
  unfold on_close in *. simpl in *. rewrite Hfind in *.
  rewrite decide_True in * by done. simpl in Hc'.
  eexists. split; [done|]. simpl.
  assert (obj_get code (obj_delete code (sessions (clearInterval (timer session)
            (set_conns (alter (fun c => mkConn (sessionCode c) CLOSED) ws) st))))
          = None) as Hgone by apply obj_delete_get_eq.
  split; [done|]. split.
  - intros h Hh. destruct (intervals_owned _ _ Hc' _ _ Hh) as (_ & s & Hs & _).
    simpl in Hs. congruence.
  - by destruct (timer session).
Qed.

(** A timer callback for a code that names no session, own or inherited,
    does nothing but consume the timeout. *)
Lemma timeout_on_absent_session st rnd code rest :
  timeouts st = code :: rest ->
  js_lookup code (sessions st) = Absent ->
  handle (TimeoutFires rnd) st
  = Done (mkServer (sessions st) (conns st) (intervals st) rest
                   (next_handle st) (sent st)).
Proof.
  intros Hto Habs. simpl. rewrite Hto. unfold timeout_callback.
  by rewrite performShuffle_Absent.
Qed.

(** C7 fails on the code when the code of a torn-down session is used
    again before a pending timeout expires. [a], [b], [c] join [X]; the
    interval ticks; all three leave: [X] is removed and its interval is
    cancelled, but the timeout scheduled by the tick is still pending. [d]
    then joins [X]. The timeout expires against the new session: it rewrites
    its links and sends [d] a [shuffle] message. *)
Theorem stale_timeout_fires_on_recreated_session :
  let torn := after all_leave_in_countdown in
  let st := after rejoin_in_countdown in
  run all_leave_in_countdown initial = Some torn /\
  sessions torn = [] /\ intervals torn = ∅ /\ timeouts torn = ["X"] /\
  run rejoin_in_countdown initial = Some st /\
  obj_get "X" (sessions st)
    = Some (mkSession [member "d" "D"] [] None) /\
  enabled (TimeoutFires ring_order) st = true /\
  exists st',
    handle (TimeoutFires ring_order) st = Done st' /\
    obj_get "X" (sessions st')
      = Some (mkSession [member "d" "D"] [("d", "d")] None) /\
    sent st' = sent st ++ [("d", shuffle "d" (JStr "D") false)].
Proof.
  cbv zeta. split_and!; [vm_compute; reflexivity..|].
  eexists. split; [vm_compute; reflexivity|].
  split; vm_compute; reflexivity.
Qed.

(** * C8 *)

(** C8 fails on the code when a connection joins twice. After [a] has
    joined [X] and then [Y], [a] is a participant of both, while its socket
    records [Y] only; when [a] then closes, the handler stops at the first
    session that has [a], removes [X], and leaves [a], with a closed socket,
    a participant of [Y] for good. *)
Theorem second_join_keeps_first_membership :
  let st := after join_twice in
  run join_twice initial = Some st /\
  obj_get "X" (sessions st) = Some (mkSession [member "a" "A"] [] None) /\
  obj_get "Y" (sessions st) = Some (mkSession [member "a" "A"] [] None) /\
  ws_sessionCode "a" st = JStr "Y" /\
  enabled (Closes "a" ring_order) st = true /\
  exists st',
    handle (Closes "a" ring_order) st = Done st' /\
    sessions st' = [("Y", mkSession [member "a" "A"] [] None)] /\
    is_open "a" st' = false.
Proof.
  cbv zeta. split_and!; [vm_compute; reflexivity..|].
  eexists. split; [vm_compute; reflexivity|].
  split; vm_compute; reflexivity.
Qed.

(** * C10 *)

(** What the guard of the relay does achieve: a signal from a socket whose
    recorded code, read as a key, names no session is ignored. *)
Lemma signal_without_session_ignored ws payload st to signal code :
  get_prop payload "to" = Some to ->
  get_prop payload "signal" = Some signal ->
  ToPropertyKey (ws_sessionCode ws st) = Some code ->
  js_lookup code (sessions st) = Absent ->
  relay ws payload st = Done st.
Proof.
  intros Hto Hsig Hcode Habs. unfold relay. by rewrite Hto, Hsig, Hcode, Habs.
Qed.

(** C10 fails on the code when a session is stored under the key
    "undefined". [a] joins the session whose code is the string
    "undefined"; [b] connects and joins nothing, so that its
    [ws.sessionCode] is unset and it is a participant of no session. A
    [webrtc-signal] from [b] addressed to [a] is looked up in
    [sessions[undefined]], that is in the session of [a], and forwarded. *)
Theorem signal_from_unjoined_reaches_undefined_session :
  let st := after undefined_session in
  run undefined_session initial = Some st /\
  ws_sessionCode "b" st = JUndefined /\
  sessions st = [("undefined", mkSession [member "a" "A"] [] None)] /\
  enabled (Receives "b" (signal_msg "a" (JStr "offer")) ring_order) st = true /\
  exists st',
    handle (Receives "b" (signal_msg "a" (JStr "offer")) ring_order) st
      = Done st' /\
    sent st' = sent st ++ [("a", webrtc_signal "b" (JStr "offer"))].
Proof.
  cbv zeta. split_and!; [vm_compute; reflexivity..|].
  eexists. split; [vm_compute; reflexivity|].
  vm_compute; reflexivity.
Qed.

(** * C3 *)

(** A join whose code can be used as a key and is not a member of
    [Object.prototype] registers the connection, with the name given, in
    the session stored under the key of the code, whatever the code and the
    name are; the handler returns if the name can be converted to a string
    and throws, after the registration, if it cannot. *)
Lemma joinSession_joined strict ws payload rnd st sc pn code :
  consistent strict st ->
  get_prop payload "sessionCode" = Some sc ->
  get_prop payload "participantName" = Some pn ->
  ToPropertyKey sc = Some code ->
  js_lookup code (sessions st) ≠ Inherited ->
  exists s,
    obj_get code (sessions (final (joinSession ws payload rnd st))) = Some s /\
    obj_get ws (participants s) = Some (mkParticipant pn ws) /\
    ((exists st', joinSession ws payload rnd st = Done st') <->
     is_Some (ToString pn)).
Proof.
  intros Hc Hsc Hpn Hkey Hinh. unfold joinSession. rewrite Hsc, Hpn, Hkey.
  unfold ToPropertyKey in Hkey. rewrite Hkey.
  destruct (js_lookup code (sessions st)) as [s0| |] eqn:Hl; [|done|].
  - apply js_lookup_Own in Hl.
    destruct (sessions_ok _ _ Hc _ _ Hl) as [Hnd _ _ _ _ _ _].
    set (ps := obj_set ws (mkParticipant pn ws) (participants s0)).
    set (s1 := set_participants ps s0).
    set (st2 := set_conns _ (set_sessions (obj_set code s1) st)).
    assert (obj_get code (sessions st2) = Some s1) as Hs1
      by apply obj_set_get_eq.
    destruct (ToString pn) as [nm|]; last first.
    { exists s1. split; [done|]. split; [apply obj_set_get_eq|].
      split; [by intros [? ?] | by intros [? ?]]. }
    rewrite (broadcastToSession_Own _ _ _ s1 Hs1). simpl.
    destruct (2 <=? length (obj_keys ps))%nat.
    + rewrite (initiateShuffleCycle_Own _ _ _ s1);
        [|done|by apply obj_set_NoDup].
      eexists. simpl. rewrite obj_alter_get_eq, obj_set_get_eq. simpl.
      split; [done|]. simpl. split; [apply obj_set_get_eq|].
      split; eauto.
    + exists s1. split; [done|]. split; [apply obj_set_get_eq|].
      split; eauto.
  - simpl.
    set (s1 := set_participants [(ws, mkParticipant pn ws)]
                                (mkSession [] [] None)).
    set (st2 := set_conns _ (set_sessions (obj_set code s1) st)).
    assert (obj_get code (sessions st2) = Some s1) as Hs1
      by apply obj_set_get_eq.
    destruct (ToString pn) as [nm|]; last first.
    { exists s1. split; [done|]. split; [simpl; by rewrite decide_True|].
      split; [by intros [? ?] | by intros [? ?]]. }
    rewrite (broadcastToSession_Own _ _ _ s1 Hs1). simpl.
    rewrite length_obj_keys. simpl.
    exists s1. split; [done|]. split; [simpl; by rewrite decide_True|].
    split; eauto.
Qed.

Lemma undefined_not_inherited {V} (o : obj V) :
  js_lookup "undefined" o ≠ Inherited.
Proof.
  unfold js_lookup. destruct (obj_get _ _); [done|].
  rewrite bool_decide_eq_false_2; [done|].
  unfold Object_prototype_keys. rewrite !elem_of_cons, elem_of_nil.
  naive_solver.
Qed.

(** C3, as the code has it. A message that [JSON.parse] rejects, a
    message that parses to [null], and a [joinSession] whose payload is
    missing or [null] leave the whole state as it was before the message:
    no session is created or modified, the record of the connection and the
    state of its socket are untouched, nothing is sent; but the handler
    does not drop them: an exception leaves it, uncaught. A message of
    another type is ignored. A [joinSession] whose payload lacks only the
    session code or only the participant name is not rejected: the missing
    field reads as [undefined]. Without a code the connection is
    registered, under the name given, in the session stored under the key
    "undefined", and the handler returns if the name can be converted to a
    string. Without a name the connection is registered under the name
    [undefined] in the session of the code given, and the handler returns,
    if the code can be used as a key and names no member of
    [Object.prototype]; a code that cannot be used as a key makes the
    handler throw with the state unchanged. *)
Theorem malformed_message_handling ws rnd st :
  reachable st ->
  on_message ws None rnd st = Thrown st /\
  on_message ws (Some JNull) rnd st = Thrown st /\
  (forall data payload,
     get_prop data "type" = Some (JStr "joinSession") ->
     get_prop data "payload" = Some payload ->
     payload = JUndefined \/ payload = JNull ->
     on_message ws (Some data) rnd st = Thrown st) /\
  (forall data type payload,
     get_prop data "type" = Some type ->
     get_prop data "payload" = Some payload ->
     type ≠ JStr "joinSession" -> type ≠ JStr "webrtc-signal" ->
     on_message ws (Some data) rnd st = Done st) /\
  (forall data payload pn,
     get_prop data "type" = Some (JStr "joinSession") ->
     get_prop data "payload" = Some payload ->
     get_prop payload "sessionCode" = Some JUndefined ->
     get_prop payload "participantName" = Some pn ->
     exists s,
       obj_get "undefined" (sessions (final (on_message ws (Some data) rnd st)))
         = Some s /\
       obj_get ws (participants s) = Some (mkParticipant pn ws) /\
       ((exists st', on_message ws (Some data) rnd st = Done st') <->
        is_Some (ToString pn))) /\
  (forall data payload sc,
     get_prop data "type" = Some (JStr "joinSession") ->
     get_prop data "payload" = Some payload ->
     get_prop payload "sessionCode" = Some sc ->
     get_prop payload "participantName" = Some JUndefined ->
     (forall code, ToPropertyKey sc = Some code ->
        code ∉ Object_prototype_keys ->
        exists st' s,
          on_message ws (Some data) rnd st = Done st' /\
          obj_get code (sessions st') = Some s /\
          obj_get ws (participants s) = Some (mkParticipant JUndefined ws)) /\
     (ToPropertyKey sc = None ->
        on_message ws (Some data) rnd st = Thrown st)).
Proof.
  intros Hc%reachable_consistent. split_and!; try done.
  - intros data payload Ht Hp Hbad. unfold on_message. rewrite Ht, Hp.
    rewrite decide_True by done. by destruct Hbad as [-> | ->].
  - intros data type payload Ht Hp Hj Hr. unfold on_message. rewrite Ht, Hp.
    destruct type; try done.
    rewrite !decide_False; [done|congruence|congruence].
  - intros data payload pn Ht Hp Hsc Hpn. unfold on_message. rewrite Ht, Hp.
    rewrite decide_True by done.
    apply (joinSession_joined False ws payload rnd st JUndefined pn); try done.
    apply undefined_not_inherited.
  - intros data payload sc Ht Hp Hsc Hpn. unfold on_message.
    rewrite Ht, Hp. rewrite decide_True by done. split.
    + intros code Hkey Hcode.
      assert (js_lookup code (sessions st) ≠ Inherited) as Hinh.
      { unfold js_lookup. destruct (obj_get code (sessions st)); [done|].
        by rewrite bool_decide_eq_false_2. }
      destruct (joinSession_joined False ws payload rnd st sc JUndefined code)
        as (s & Hs & Hws & Hdone); try done.
      destruct (proj2 Hdone) as [st' Hst']; [by eexists|].
      rewrite Hst' in *. by exists st', s.
    + intros Hkey. unfold joinSession. by rewrite Hsc, Hpn, Hkey.
Qed.

(** C3, as the specification states it, fails twice from the state in
    which [a] has just connected. A frame that is not JSON is not dropped:
    the exception of [JSON.parse] leaves the handler, uncaught. And the
    message [{type: 'joinSession', payload: {participantName: 'A'}}],
    which has no session code, is not rejected: it creates a session under
    the key "undefined", registers [a] in it and sends [a] the list of
    names. *)
Lemma join_without_code_counterexample :
  let st := after [Connects "a"] in
  run [Connects "a"] initial = Some st /\
  sessions st = [] /\
  uncaught (on_message "a" None ring_order st) = true /\
  exists st',
    on_message "a" (join_without_code "A") ring_order st = Done st' /\
    sessions st' = [("undefined", mkSession [member "a" "A"] [] None)] /\
    sent st' = sent st ++ [("a", participantListUpdate [JStr "A"])] /\
    sessions st' ≠ sessions st.
Proof.
  cbv zeta. split_and!; [vm_compute; reflexivity..|].
  eexists. split; [vm_compute; reflexivity|].
  split_and!; [vm_compute; reflexivity..|]. vm_compute. discriminate.
Qed.

(** * C5 *)



(** * The theorems at concrete inputs *)

Lemma sockets_own_Forall session :
  Forall (fun kp => socket kp.2 = kp.1) (participants session) ->
  sockets_own session.
Proof. intros H k p Hin. by apply (proj1 (Forall_forall _ _) H (k, p)). Qed.

(** C1: the hypotheses of [shuffle_single_cycle] hold of a concrete input. *)
Lemma shuffle_single_cycle_witness :
  let code := "X" in
  let rnd := ring_order in
  let st := trio in
  let session := trio_session in
  ((obj_get code (sessions st) = Some session) /\
   (NoDup (participants session).*1) /\
   (2 <= length (obj_keys (participants session)))) /\
  (exists st' session',
    performShuffle code rnd st = Done st' /\
    obj_get code (sessions st') = Some session' /\
    participants session' = participants session /\
    length (links session') = length (obj_keys (participants session)) /\
    (links session').*1 ≡ₚ obj_keys (participants session) /\
    (links session').*2 ≡ₚ obj_keys (participants session) /\
    single_cycle (links session') (obj_keys (participants session)) /\
    (forall a b, (a, b) ∈ links session' -> a ≠ b) /\
    (forall a, a ∈ obj_keys (participants session) ->
       follow (links session') (length (obj_keys (participants session))) a
         = Some a /\
       forall k, 0 < k < length (obj_keys (participants session)) ->
         follow (links session') k a ≠ Some a)).
Proof.
  intros code rnd st session.
  assert (obj_get code (sessions st) = Some session) as H1
    by (vm_compute; reflexivity).
  assert (NoDup (participants session).*1) as H2
    by (apply (bool_decide_unpack _); vm_compute; exact I).
  assert (2 <= length (obj_keys (participants session))) as H3
    by (vm_compute; lia).
  split; [repeat (split; [assumption|]); assumption|].
  exact (shuffle_single_cycle code rnd st session H1 H2 H3).
Defined.

(** C2: the hypotheses of [polite_flag_per_link] hold of a concrete input. *)
Lemma polite_flag_per_link_witness :
  let code := "X" in
  let rnd := ring_order in
  let st := trio in
  let session := trio_session in
  ((obj_get code (sessions st) = Some session) /\
   (NoDup (participants session).*1) /\
   (sockets_own session)) /\
  (exists st' session' extra,
    performShuffle code rnd st = Done st' /\
    obj_get code (sessions st') = Some session' /\
    sent st' = sent st ++ extra /\
    (forall a b, (a, b) ∈ links session' -> is_open a st = true ->
       exists partnerName,
         (a, shuffle b partnerName (polite_flag a b)) ∈ extra) /\
    (forall x y partnerName p, (x, shuffle y partnerName p) ∈ extra ->
       (x, y) ∈ links session' /\ p = polite_flag x y) /\
    (forall a b : string, a ≠ b -> polite_flag a b = negb (polite_flag b a)) /\
    (length (obj_keys (participants session)) = 2 ->
     forall a b, (a, b) ∈ links session' ->
       is_open a st = true -> is_open b st = true ->
       (told_polite extra a b /\ ~ told_polite extra b a) \/
       (~ told_polite extra a b /\ told_polite extra b a))).
Proof.
  intros code rnd st session.
  assert (obj_get code (sessions st) = Some session) as H1
    by (vm_compute; reflexivity).
  assert (NoDup (participants session).*1) as H2
    by (apply (bool_decide_unpack _); vm_compute; exact I).
  assert (sockets_own session) as H3
    by (apply sockets_own_Forall, (bool_decide_unpack _); vm_compute; exact I).
  split; [repeat (split; [assumption|]); assumption|].
  exact (polite_flag_per_link code rnd st session H1 H2 H3).
Defined.

(** C3: the hypotheses of [malformed_message_handling] hold of a concrete input. *)
Lemma malformed_message_handling_witness :
  let ws := "a" in
  let rnd := ring_order in
  let st := after [Connects "a"] in
  (reachable st) /\
  (on_message ws None rnd st = Thrown st /\
  on_message ws (Some JNull) rnd st = Thrown st /\
  (forall data payload,
     get_prop data "type" = Some (JStr "joinSession") ->
     get_prop data "payload" = Some payload ->
     payload = JUndefined \/ payload = JNull ->
     on_message ws (Some data) rnd st = Thrown st) /\
  (forall data type payload,
     get_prop data "type" = Some type ->
     get_prop data "payload" = Some payload ->
     type ≠ JStr "joinSession" -> type ≠ JStr "webrtc-signal" ->
     on_message ws (Some data) rnd st = Done st) /\
  (forall data payload pn,
     get_prop data "type" = Some (JStr "joinSession") ->
     get_prop data "payload" = Some payload ->
     get_prop payload "sessionCode" = Some JUndefined ->
     get_prop payload "participantName" = Some pn ->
     exists s,
       obj_get "undefined" (sessions (final (on_message ws (Some data) rnd st)))
         = Some s /\
       obj_get ws (participants s) = Some (mkParticipant pn ws) /\
       ((exists st', on_message ws (Some data) rnd st = Done st') <->
        is_Some (ToString pn))) /\
  (forall data payload sc,
     get_prop data "type" = Some (JStr "joinSession") ->
     get_prop data "payload" = Some payload ->
     get_prop payload "sessionCode" = Some sc ->
     get_prop payload "participantName" = Some JUndefined ->
     (forall code, ToPropertyKey sc = Some code ->
        code ∉ Object_prototype_keys ->
        exists st' s,
          on_message ws (Some data) rnd st = Done st' /\
          obj_get code (sessions st') = Some s /\
          obj_get ws (participants s) = Some (mkParticipant JUndefined ws)) /\
     (ToPropertyKey sc = None ->
        on_message ws (Some data) rnd st = Thrown st))).
Proof.
  intros ws rnd st.
  assert (reachable st) as H1
    by (apply reachable_after).
  split; [repeat (split; [assumption|]); assumption|].
  exact (malformed_message_handling ws rnd st H1).
Defined.


(** C9: the hypotheses of [at_most_one_live_timer] hold of a concrete input. *)
Lemma at_most_one_live_timer_witness :
  let st := after three_join in
  (reachable st) /\
  ((forall code h1 h2,
     intervals st !! h1 = Some code -> intervals st !! h2 = Some code ->
     h1 = h2) /\
  timers_consistent st /\
  (forall st1 code s rnd,
     timers_consistent st1 ->
     obj_get code (sessions st1) = Some s ->
     NoDup (participants s).*1 ->
     exists st2,
       initiateShuffleCycle code rnd st1 = Done st2 /\
       (forall h, timer s = Some h -> intervals st2 !! h = None) /\
       (forall h1 h2,
          intervals st2 !! h1 = Some code -> intervals st2 !! h2 = Some code ->
          h1 = h2))).
Proof.
  intros st.
  assert (reachable st) as H1
    by (apply reachable_after).
  split; [repeat (split; [assumption|]); assumption|].
  exact (at_most_one_live_timer st H1).
Defined.


(** * Further properties of the server *)

#[local] Arguments Nat.ltb : simpl never.
#[local] Arguments Nat.leb : simpl never.
#[local] Arguments Nat.modulo : simpl never.

(** ** The shuffle loop *)

Lemma shuffle_from_ext rnd rnd' i a :
  (forall k, k <= i -> rnd k = rnd' k) ->
  shuffle_from rnd i a = shuffle_from rnd' i a.
Proof.
  revert a. induction i as [|i IH]; intros a Heq; simpl; [done|].
  rewrite (Heq (S i)) by lia. apply IH. intros k Hk. apply Heq. lia.
Qed.

Lemma swap_drop i j a :
  j <= i -> drop (S i) (swap i j a) = drop (S i) a.
Proof.
  intros Hj. unfold swap.
  destruct (a !! i), (a !! j); try done.
  by rewrite !drop_insert_lt by lia.
Qed.

Lemma swap_lookup_l i j a x :
  a !! j = Some x -> i < length a -> swap i j a !! i = Some x.
Proof.
  intros Hj Hi. unfold swap.
  destruct (lookup_lt_is_Some_2 a i Hi) as [y Hy]. rewrite Hy, Hj.
  destruct (decide (i = j)) as [->|Hne].
  - rewrite list_lookup_insert_eq by (by rewrite length_insert). congruence.
  - rewrite list_lookup_insert_ne by done.
    by rewrite list_lookup_insert_eq.
Qed.

Lemma swap_out_of_range i j a : length a <= i -> swap i j a = a.
Proof. intros Hi. unfold swap. by rewrite (lookup_ge_None_2 a i Hi). Qed.

(** Once the tail beyond index [i] is in place, the rest of the loop can
    bring the head into any order. *)
Lemma shuffle_from_complete i a p :
  p ≡ₚ a -> drop (S i) a = drop (S i) p ->
  exists rnd, shuffle_from rnd i a = p.
Proof.
  revert a. induction i as [|i IH]; intros a Hperm Hdrop.
  - exists (fun _ => 0). simpl.
    destruct a as [|x a'], p as [|y p']; try done.
    + by apply Permutation_nil_r in Hperm.
    + by apply Permutation_nil_cons in Hperm.
    + simpl in Hdrop. rewrite !drop_0 in Hdrop. subst p'.
      apply (Permutation_app_inv_r a' [y] [x]) in Hperm.
      by apply Permutation_singleton_inj in Hperm as ->.
  - assert (length p = length a) as Hlen by (by rewrite Hperm).
    destruct (decide (S i < length a)) as [Hlt|Hge].
    + destruct (lookup_lt_is_Some_2 p (S i)) as [y Hy]; [lia|].
      assert (take (S (S i)) p ≡ₚ take (S (S i)) a) as Htake.
      { apply (Permutation_app_inv_r (drop (S (S i)) p)).
        rewrite take_drop, <- Hdrop, take_drop. done. }
      assert (y ∈ take (S (S i)) a) as Hin.
      { rewrite <- Htake. apply elem_of_take. exists (S i). split; [done|lia]. }
      apply elem_of_take in Hin as (j & Hj & Hjlt).
      set (a' := swap (S i) j a).
      destruct (IH a') as [rnd' Hrnd'].
      { unfold a'. by rewrite swap_perm. }
      { rewrite (drop_S a' y (S i)) by (by apply swap_lookup_l).
        rewrite (drop_S p y (S i)) by done.
        unfold a'. rewrite swap_drop by lia. by rewrite Hdrop. }
      exists (draw_at (S i) j rnd'). cbn [shuffle_from].
      replace (draw_at (S i) j rnd' (S i)) with j
        by (unfold draw_at; by rewrite decide_True).
      rewrite Nat.mod_small by lia. fold a'.
      rewrite <- Hrnd'. apply shuffle_from_ext.
      intros k Hk. unfold draw_at. rewrite decide_False by lia. done.
    + destruct (IH a) as [rnd' Hrnd']; [done| |].
      { rewrite !drop_ge by lia. done. }
      exists rnd'. simpl. rewrite swap_out_of_range by lia. done.
Qed.

(** X1. Whatever the draws of [Math.random], the shuffle loop of
    [performShuffle] leaves an array with the same elements, each as many
    times as before, and so of the same length: it loses and invents no
    identity, also on an array with repeated or no elements. *)
Theorem shuffle_loop_permutes (rnd : nat -> nat) (a : list string) :
  shuffled rnd a ≡ₚ a /\ length (shuffled rnd a) = length a /\
  (forall x, x ∈ shuffled rnd a <-> x ∈ a).
Proof.
  pose proof (shuffled_perm rnd a) as Hperm. split_and!; [done| |].
  - by rewrite Hperm.
  - intros x. by rewrite Hperm.
Qed.

(** X2. Every ordering of the array is the result of the shuffle loop for
    some sequence of draws: the loop can reach each arrangement of the
    participants, none is excluded. *)
Theorem shuffle_loop_reaches_every_order (a p : list string) :
  p ≡ₚ a -> exists rnd, shuffled rnd a = p.
Proof.
  intros Hperm. apply shuffle_from_complete; [done|].
  assert (length p = length a) as Hlen by (by rewrite Hperm).
  rewrite !drop_ge by lia. done.
Qed.

(** ** What a shuffle sends and what it leaves alone *)

Lemma shuffle_message_recipients session newLinks st keys :
  sockets_own session ->
  Forall (resolvable session newLinks) keys ->
  (keys ≫= shuffle_message session newLinks st).*1
  = filter (fun k => is_open k st = true) keys.
Proof.
  intros Hown Hall. induction Hall as [|k keys Hk Hall IH]; [done|].
  rewrite bind_cons, fmap_app, IH, filter_cons.
  destruct Hk as (toId & Hto & [fromP HfromP] & [toP HtoP]).
  unfold shuffle_message. rewrite Hto, HfromP, HtoP.
  rewrite (Hown k fromP) by (by apply obj_get_Some_elem).
  destruct (is_open k st) eqn:Hopen.
  - by rewrite decide_True.
  - by rewrite decide_False.
Qed.

(** X3. A shuffle sends one [shuffle] message to each participant whose
    socket is open, and none to the others: the recipients are distinct,
    each is told the participant it is linked to, that participant's name
    and the flag of the link. A participant whose socket is not open is
    told nothing, yet it keeps its place in the ring: it has a partner and
    is the partner of someone. *)
Theorem shuffle_delivery code rnd st session :
  obj_get code (sessions st) = Some session ->
  NoDup (participants session).*1 ->
  sockets_own session ->
  exists st' session' extra,
    performShuffle code rnd st = Done st' /\
    obj_get code (sessions st') = Some session' /\
    sent st' = sent st ++ extra /\
    NoDup extra.*1 /\
    (forall x m, (x, m) ∈ extra ->
       is_open x st = true /\
       exists y toP,
         obj_get x (links session') = Some y /\
         obj_get y (participants session) = Some toP /\
         m = shuffle y (name toP) (polite_flag x y)) /\
    (forall k, k ∈ (participants session).*1 -> is_open k st = true ->
       exists m, (k, m) ∈ extra) /\
    (forall k, k ∈ (participants session).*1 -> is_open k st = false ->
       (forall m, (k, m) ∉ extra) /\
       is_Some (obj_get k (links session')) /\
       k ∈ (links session').*2).
Proof.
  intros Hs Hnd Hown.
  pose proof (shuffled_keys_NoDup rnd _ Hnd) as Hc.
  pose proof (shuffle_links_cycle rnd _ Hnd) as Hl.
  eexists _, (set_links (shuffle_links rnd session) session),
    (shuffle_messages rnd session st).
  split; [by apply performShuffle_Own|].
  split; [simpl; by rewrite obj_alter_get_eq, Hs|].
  split; [done|]. simpl.
  assert (forall k, k ∈ (participants session).*1 ->
                    exists y, (k, y) ∈ shuffle_links rnd session) as Hout.
  { intros k Hk. apply (elem_of_shuffled_keys rnd) in Hk.
    rewrite <- (cycle_links_keys (shuffled rnd _)), <- Hl in Hk.
    apply list_elem_of_fmap in Hk as ([k' y] & -> & Hin). eauto. }
  split_and!.
  - unfold shuffle_messages.
    rewrite shuffle_message_recipients;
      [|done|by apply shuffle_links_resolvable].
    apply NoDup_filter, NoDup_obj_keys.
    rewrite Hl, cycle_links_keys. done.
  - intros x m Hin. apply shuffle_messages_elem in Hin; [|done..].
    destruct Hin as (y & toP & Hxy & HtoP & Hopen & ->).
    split; [done|]. exists y, toP. split_and!; try done.
    by apply shuffle_links_get.
  - intros k Hk Hopen. destruct (Hout k Hk) as [y Hy].
    destruct (shuffle_links_members rnd session k y Hnd Hy) as [_ Hyin].
    apply obj_get_is_Some in Hyin as [toP HtoP].
    eexists. apply shuffle_messages_elem; [done..|]. by exists y, toP.
  - intros k Hk Hclosed. split_and!.
    + intros m Hin. apply shuffle_messages_elem in Hin; [|done..].
      destruct Hin as (y & toP & _ & _ & Hopen & _). congruence.
    + destruct (Hout k Hk) as [y Hy].
      rewrite (shuffle_links_get rnd session k y) by done. eauto.
    + rewrite Hl, cycle_links_targets. by apply (elem_of_shuffled_keys rnd).
Qed.

(** X4. In every reachable state, [performShuffle], for any session code,
    touches the links of that session and the socket log only: it creates
    and removes no session, changes no participant list and no timer,
    leaves the links of the other sessions, the sockets, the live intervals
    and the pending timeouts as they are, and takes nothing back that was
    sent. *)
Theorem shuffle_changes_links_only code rnd st :
  reachable st ->
  let st' := final (performShuffle code rnd st) in
  conns st' = conns st /\ intervals st' = intervals st /\
  timeouts st' = timeouts st /\ next_handle st' = next_handle st /\
  (exists extra, sent st' = sent st ++ extra) /\
  (sessions st').*1 = (sessions st).*1 /\
  (forall c, obj_get c (sessions st) = None -> obj_get c (sessions st') = None) /\
  (forall c s, obj_get c (sessions st) = Some s ->
     exists s', obj_get c (sessions st') = Some s' /\
       participants s' = participants s /\ timer s' = timer s /\
       (c ≠ code -> links s' = links s)).
Proof.
  intros Hc%reachable_consistent. simpl.
  destruct (js_lookup code (sessions st)) as [session| |] eqn:Hl.
  - apply js_lookup_Own in Hl.
    rewrite (performShuffle_Own _ _ _ session Hl)
      by apply (sessions_ok _ _ Hc _ _ Hl).
    simpl. split_and!; try done.
    + by eexists.
    + apply obj_alter_keys.
    + intros c Hnone. destruct (decide (code = c)) as [->|Hne]; [congruence|].
      by rewrite obj_alter_get_ne.
    + intros c s Hs. destruct (decide (code = c)) as [->|Hne].
      * rewrite obj_alter_get_eq, Hs. simpl. eexists. split; [done|].
        split_and!; try done.
      * rewrite obj_alter_get_ne by done. exists s. by split_and!.
  - unfold performShuffle. rewrite Hl. simpl. split_and!; try done.
    + exists []. by rewrite app_nil_r.
    + intros c s Hs. exists s. by split_and!.
  - rewrite performShuffle_Absent by done. simpl. split_and!; try done.
    + exists []. by rewrite app_nil_r.
    + intros c s Hs. exists s. by split_and!.
Qed.

(** ** Joining *)

Lemma is_open_record_code ws sc x st :
  is_open x (set_conns (alter (fun c => mkConn sc (readyState c)) ws) st)
  = is_open x st.
Proof.
  unfold is_open. simpl. rewrite lookup_alter. case_decide; subst; [|done].
  by destruct (conns st !! x).
Qed.

Lemma broadcast_messages_is_open session message st st' :
  (forall x, is_open x st' = is_open x st) ->
  broadcast_messages session message st'
  = broadcast_messages session message st.
Proof.
  intros Heq. unfold broadcast_messages.
  induction (obj_values (participants session)) as [|p ps IH]; [done|].
  by rewrite !bind_cons, IH, Heq.
Qed.

Lemma joinSession_result strict ws payload rnd st sc pn code :
  consistent strict st ->
  get_prop payload "sessionCode" = Some sc ->
  get_prop payload "participantName" = Some pn ->
  ToPropertyKey sc = Some code ->
  js_lookup code (sessions st) ≠ Inherited ->
  is_Some (ToString pn) ->
  let old := default (mkSession [] [] None) (obj_get code (sessions st)) in
  let ps := obj_set ws (mkParticipant pn ws) (participants old) in
  joinSession ws payload rnd st
  = Done (if (2 <=? length ps)%nat
          then restarted code rnd (set_participants ps old)
                         (joined_base ws code sc pn st)
          else joined_base ws code sc pn st).
Proof.
  intros Hc Hsc Hpn Hkey Hinh [nm Hnm]. cbv zeta.
  unfold joinSession, joined_base.
  rewrite Hsc, Hpn, Hkey, Hnm. unfold ToPropertyKey in Hkey. rewrite Hkey.
  destruct (js_lookup code (sessions st)) as [s0| |] eqn:Hl; [|done|].
  - apply js_lookup_Own in Hl. rewrite Hl. unfold default, from_option, id.
    destruct (sessions_ok _ _ Hc _ _ Hl) as [Hnd _ _ _ _ _ _].
    set (ps := obj_set ws (mkParticipant pn ws) (participants s0)).
    set (s1 := set_participants ps s0).
    set (st2 := set_conns _ (set_sessions (obj_set code s1) st)).
    assert (obj_get code (sessions st2) = Some s1) as Hs1
      by apply obj_set_get_eq.
    rewrite (broadcastToSession_Own _ _ _ s1 Hs1). cbn [bind].
    rewrite length_obj_keys.
    destruct (2 <=? length ps)%nat; [|done].
    apply initiateShuffleCycle_Own; [done|]. by apply obj_set_NoDup.
  - apply js_lookup_Absent in Hl as [Hl _]. rewrite Hl.
    unfold default, from_option, id. cbn [participants].
    set (ps := obj_set ws (mkParticipant pn ws) []).
    set (s1 := set_participants ps (mkSession [] [] None)).
    set (st2 := set_conns _ (set_sessions (obj_set code s1) st)).
    assert (obj_get code (sessions st2) = Some s1) as Hs1
      by apply obj_set_get_eq.
    rewrite (broadcastToSession_Own _ _ _ s1 Hs1). cbn [bind].
    rewrite length_obj_keys.
    destruct (2 <=? length ps)%nat eqn:Hlen; [|done].
    apply Nat.leb_le in Hlen. simpl in Hlen. lia.
Qed.

Lemma joinSession_throws ws payload rnd st sc pn code :
  get_prop payload "sessionCode" = Some sc ->
  get_prop payload "participantName" = Some pn ->
  ToPropertyKey sc = Some code ->
  js_lookup code (sessions st) ≠ Inherited ->
  ToString pn = None ->
  joinSession ws payload rnd st = Thrown (registered ws code sc pn st).
Proof.
  intros Hsc Hpn Hkey Hinh Hnm. unfold joinSession, registered.
  rewrite Hsc, Hpn, Hkey, Hnm.
  destruct (js_lookup code (sessions st)) as [s0| |] eqn:Hl; [|done|].
  - apply js_lookup_Own in Hl. by rewrite Hl.
  - apply js_lookup_Absent in Hl as [Hl _]. by rewrite Hl.
Qed.

Lemma obj_entries_singleton {V} k (v : V) : obj_entries [(k, v)] = [(k, v)].
Proof.
  unfold obj_entries, obj_keys. simpl. rewrite own_keys_singleton. simpl.
  by rewrite decide_True.
Qed.

(** X5. The first join of a code that can be used as a key and names no
    session (and no member of [Object.prototype]), from an open socket,
    under a name that can be converted to a string: the session is created
    last in the table with the joiner as its only participant, no links and
    no timer; the socket records the code as received; the joiner alone is
    sent the list of names, which holds its own name; there is no shuffle
    and no timer is started; the other sessions are as they were. *)
Theorem first_join_creates_session ws payload rnd st sc pn code :
  get_prop payload "sessionCode" = Some sc ->
  get_prop payload "participantName" = Some pn ->
  ToPropertyKey sc = Some code ->
  js_lookup code (sessions st) = Absent ->
  is_Some (ToString pn) ->
  is_open ws st = true ->
  exists st',
    joinSession ws payload rnd st = Done st' /\
    sessions st'
      = sessions st ++ [(code, mkSession [(ws, mkParticipant pn ws)] [] None)] /\
    ws_sessionCode ws st' = sc /\
    sent st' = sent st ++ [(ws, participantListUpdate [pn])] /\
    intervals st' = intervals st /\ timeouts st' = timeouts st /\
    next_handle st' = next_handle st.
Proof.
  intros Hsc Hpn Hkey Habs [nm Hnm] Hopen. unfold joinSession.
  rewrite Hsc, Hpn, Hkey, Habs, Hnm.
  unfold ToPropertyKey in Hkey. rewrite Hkey.
  apply js_lookup_Absent in Habs as [Hnone Hcode]. simpl.
  set (s1 := set_participants [(ws, mkParticipant pn ws)]
                              (mkSession [] [] None)).
  set (st2 := set_conns _ (set_sessions (obj_set code s1) st)).
  assert (obj_get code (sessions st2) = Some s1) as Hs1
    by apply obj_set_get_eq.
  rewrite (broadcastToSession_Own _ _ _ s1 Hs1). simpl.
  rewrite length_obj_keys. simpl.
  eexists. split; [done|]. simpl. split_and!; try done.
  - apply obj_set_keys_new. by apply obj_get_None.
  - unfold ws_sessionCode. simpl. rewrite lookup_alter_eq.
    unfold is_open in Hopen. by destruct (conns st !! ws).
  - f_equal. unfold broadcast_messages, obj_values. simpl.
    rewrite !obj_entries_singleton. simpl.
    unfold st2. rewrite is_open_record_code.
    change (is_open ws (set_sessions _ st)) with (is_open ws st).
    by rewrite Hopen.
Qed.

(** X6. A join under a name inherited from [Object.prototype]
    ("constructor", "toString", "__proto__", ...) is never served: in every
    reachable state no session is stored under such a name, the handler
    throws on it, and nothing has changed when it does. *)
Theorem join_under_inherited_name_throws ws payload rnd st sc pn code :
  reachable st ->
  get_prop payload "sessionCode" = Some sc ->
  get_prop payload "participantName" = Some pn ->
  ToPropertyKey sc = Some code ->
  code ∈ Object_prototype_keys ->
  obj_get code (sessions st) = None /\
  joinSession ws payload rnd st = Thrown st.
Proof.
  intros Hc%reachable_consistent Hsc Hpn Hkey Hin.
  assert (obj_get code (sessions st) = None) as Hnone.
  { destruct (obj_get _ (sessions st)) as [s|] eqn:Hs; [|done].
    by destruct (ok_code _ _ _ _ (sessions_ok _ _ Hc _ _ Hs)). }
  split; [done|]. unfold joinSession. rewrite Hsc, Hpn, Hkey.
  unfold js_lookup. rewrite Hnone. by rewrite bool_decide_eq_true_2.
Qed.

Lemma obj_entries_keys {V} (o : obj V) : (obj_entries o).*1 = obj_keys o.
Proof.
  unfold obj_entries.
  assert (forall k, k ∈ obj_keys o -> is_Some (obj_get k o)) as Hall.
  { intros k Hk. by apply obj_get_is_Some, elem_of_obj_keys. }
  induction (obj_keys o) as [|k ks IH]; [done|]. simpl.
  destruct (Hall k) as [v Hv]; [left|]. rewrite Hv. simpl.
  f_equal. apply IH. intros k' Hk'. apply Hall. by right.
Qed.

Lemma broadcast_recipients session message st :
  sockets_own session ->
  (broadcast_messages session message st).*1
  = filter (fun k => is_open k st = true) (obj_keys (participants session)).
Proof.
  intros Hown. unfold broadcast_messages, obj_values.
  rewrite <- obj_entries_keys.
  assert (forall k v, (k, v) ∈ obj_entries (participants session) ->
                      socket v = k) as Hall.
  { intros k v Hin. by apply Hown, obj_get_Some_elem, elem_of_obj_entries. }
  induction (obj_entries (participants session)) as [|[k v] L IH]; [done|].
  rewrite !fmap_cons, bind_cons, fmap_app, filter_cons. simpl.
  rewrite IH by (intros k' v' Hin; apply Hall; by right).
  rewrite (Hall k v) by left.
  destruct (is_open k st) eqn:Hopen.
  - by rewrite decide_True.
  - by rewrite decide_False.
Qed.

Lemma broadcast_recipients_NoDup session message st :
  sockets_own session -> NoDup (participants session).*1 ->
  NoDup (broadcast_messages session message st).*1.
Proof.
  intros Hown Hnd. rewrite broadcast_recipients by done.
  by apply NoDup_filter, NoDup_obj_keys.
Qed.

Lemma broadcast_messages_elem session message st x m :
  sockets_own session ->
  (x, m) ∈ broadcast_messages session message st <->
  m = message /\ is_Some (obj_get x (participants session)) /\
  is_open x st = true.
Proof.
  intros Hown. split.
  - intros Hin. destruct (broadcast_only _ _ _ _ _ Hown Hin) as [-> Hx].
    split_and!; [done..|].
    unfold broadcast_messages in Hin.
    apply list_elem_of_bind in Hin as (p & Hin & _).
    destruct (is_open (socket p) st) eqn:Hopen; [|by apply elem_of_nil in Hin].
    apply list_elem_of_singleton in Hin. by simplify_eq.
  - intros (-> & [p Hp] & Hopen). by eapply broadcast_reaches.
Qed.

Lemma joinSession_session strict ws payload rnd st sc pn code :
  consistent strict st ->
  get_prop payload "sessionCode" = Some sc ->
  get_prop payload "participantName" = Some pn ->
  ToPropertyKey sc = Some code ->
  js_lookup code (sessions st) ≠ Inherited ->
  let old := default (mkSession [] [] None) (obj_get code (sessions st)) in
  let st' := final (joinSession ws payload rnd st) in
  exists s',
    obj_get code (sessions st') = Some s' /\
    participants s'
      = obj_set ws (mkParticipant pn ws) (participants old) /\
    (forall c, c ≠ code -> obj_get c (sessions st') = obj_get c (sessions st)) /\
    conns st' = alter (fun c => mkConn sc (readyState c)) ws (conns st) /\
    ((exists st1, joinSession ws payload rnd st = Done st1) <->
     is_Some (ToString pn)).
Proof.
  intros Hc Hsc Hpn Hkey Hinh. cbv zeta.
  destruct (ToString pn) as [nm|] eqn:Hnm.
  - rewrite (joinSession_result strict ws payload rnd st sc pn code)
      by (by rewrite ?Hnm).
    destruct (2 <=? _)%nat.
    + eexists. simpl.
      rewrite obj_alter_get_eq, obj_set_get_eq. simpl. split_and!; try done.
      * intros c Hne. rewrite obj_alter_get_ne, obj_set_get_ne by done. done.
      * split; eauto.
    + eexists. simpl.
      rewrite obj_set_get_eq. split_and!; try done.
      * intros c Hne. by rewrite obj_set_get_ne.
      * split; eauto.
  - rewrite (joinSession_throws ws payload rnd st sc pn code) by done.
    eexists. simpl. rewrite obj_set_get_eq. split_and!; try done.
    + intros c Hne. by rewrite obj_set_get_ne.
    + split; [by intros [? ?] | by intros [? ?]].
Qed.

(** X7. A connection that joins again the session it is in gets no second
    entry: the keys of the participants, and their order, are as before,
    the entry of the connection now carries the name just given, and the
    entries of the others are untouched. This is so whether the handler
    then returns or throws at its log line, which it does exactly when the
    name cannot be converted to a string. *)
Theorem rejoin_overwrites_entry ws payload rnd st sc pn code s0 p0 :
  reachable st ->
  get_prop payload "sessionCode" = Some sc ->
  get_prop payload "participantName" = Some pn ->
  ToPropertyKey sc = Some code ->
  obj_get code (sessions st) = Some s0 ->
  obj_get ws (participants s0) = Some p0 ->
  exists s',
    obj_get code (sessions (final (joinSession ws payload rnd st))) = Some s' /\
    (participants s').*1 = (participants s0).*1 /\
    obj_get ws (participants s') = Some (mkParticipant pn ws) /\
    (forall k, k ≠ ws ->
       obj_get k (participants s') = obj_get k (participants s0)) /\
    ((exists st', joinSession ws payload rnd st = Done st') <->
     is_Some (ToString pn)).
Proof.
  intros Hc%reachable_consistent Hsc Hpn Hkey Hs Hws.
  destruct (joinSession_session False ws payload rnd st sc pn code)
    as (s' & Hs' & Hps & _ & _ & Hdone); [done..| |].
  { unfold js_lookup. by rewrite Hs. }
  rewrite Hs in Hps. simpl in Hps.
  exists s'. split_and!; try done.
  - rewrite Hps. apply obj_set_keys_old, obj_get_is_Some. eauto.
  - rewrite Hps. apply obj_set_get_eq.
  - intros k Hne. rewrite Hps. by apply obj_set_get_ne.
Qed.

Lemma join_new_member ws payload rnd st sc pn code s0 :
  reachable st ->
  get_prop payload "sessionCode" = Some sc ->
  get_prop payload "participantName" = Some pn ->
  ToPropertyKey sc = Some code ->
  obj_get code (sessions st) = Some s0 ->
  obj_get ws (participants s0) = None ->
  is_Some (ToString pn) ->
  exists st' s' plu shuf,
    joinSession ws payload rnd st = Done st' /\
    obj_get code (sessions st') = Some s' /\
    participants s' = participants s0 ++ [(ws, mkParticipant pn ws)] /\
    single_cycle (links s') (obj_keys (participants s')) /\
    (timer s' = None <-> length (participants s') <= 2) /\
    sent st' = sent st ++ plu ++ shuf /\
    NoDup plu.*1 /\ NoDup shuf.*1 /\
    (forall x m, (x, m) ∈ plu <->
       m = participantListUpdate (names_of (participants s')) /\
       is_Some (obj_get x (participants s')) /\ is_open x st = true) /\
    (forall x m, (x, m) ∈ shuf <->
       exists y toP,
         obj_get x (links s') = Some y /\
         obj_get y (participants s') = Some toP /\
         is_open x st = true /\
         m = shuffle y (name toP) (polite_flag x y)) /\
    (forall c, c ≠ code ->
       obj_get c (sessions st') = obj_get c (sessions st)).
Proof.
  intros Hc%reachable_consistent Hsc Hpn Hkey Hs Hws Hprint.
  destruct (sessions_ok _ _ Hc _ _ Hs) as [Hnd Hown Hne _ _ _ _].
  set (ps := participants s0 ++ [(ws, mkParticipant pn ws)]).
  assert (obj_set ws (mkParticipant pn ws) (participants s0) = ps) as Hps
    by (by apply obj_set_keys_new, obj_get_None).
  set (s1 := set_participants ps s0).
  assert (NoDup (participants s1).*1) as Hnd1
    by (simpl; rewrite <- Hps; by apply obj_set_NoDup).
  assert (sockets_own s1) as Hown1.
  { intros k p [Hin|Hin%list_elem_of_singleton]%elem_of_app;
      [by apply Hown | by simplify_eq]. }
  assert (2 <= length ps) as Hlen.
  { unfold ps. rewrite length_app. simpl.
    destruct (participants s0); [done|simpl; lia]. }
  assert (js_lookup code (sessions st) ≠ Inherited) as Hinh
    by (unfold js_lookup; by rewrite Hs).
  pose proof (joinSession_result False ws payload rnd st sc pn code
                Hc Hsc Hpn Hkey Hinh Hprint) as Hrun.
  cbv zeta in Hrun. rewrite Hs in Hrun.
  unfold default, from_option, id in Hrun. rewrite Hps in Hrun.
  fold s1 in Hrun. rewrite (proj2 (Nat.leb_le _ _) Hlen) in Hrun.
  rewrite Hrun. clear Hrun.
  set (base := joined_base ws code sc pn st).
  assert (forall x, is_open x base = is_open x st) as Hopen.
  { intros x. unfold base, joined_base. rewrite is_open_add_sent.
    by rewrite is_open_record_code. }
  assert (obj_get code (sessions base) = Some s1) as Hbase.
  { unfold base, joined_base. rewrite Hs.
    unfold default, from_option, id. rewrite Hps. simpl.
    apply obj_set_get_eq. }
  assert (sent base
          = sent st ++ broadcast_messages s1
                         (participantListUpdate (names_of ps)) st) as Hsent.
  { unfold base, joined_base. rewrite Hs.
    unfold default, from_option, id. rewrite Hps. fold s1. simpl. f_equal.
    apply broadcast_messages_is_open. intros x.
    by rewrite is_open_record_code. }
  assert (forall c, c ≠ code ->
            obj_get c (sessions base) = obj_get c (sessions st)) as Hother.
  { intros c Hne'. unfold base, joined_base. simpl.
    by rewrite obj_set_get_ne. }
  clearbody base.
  eexists (restarted code rnd s1 base), _,
    (broadcast_messages s1 (participantListUpdate (names_of ps)) st),
    (shuffle_messages rnd s1 base).
  split; [done|].
  split; [simpl; by rewrite obj_alter_get_eq, Hbase|]. simpl.
  split; [done|].
  split.
  { exists (shuffled rnd (obj_keys ps)). split_and!.
    - by apply (shuffled_keys_NoDup rnd s1).
    - apply shuffled_perm.
    - by apply (shuffle_links_cycle rnd s1). }
  split.
  { rewrite <- length_obj_keys.
    destruct (2 <? length (obj_keys ps))%nat eqn:Hlt; split; try done.
    - apply Nat.ltb_lt in Hlt. lia.
    - apply Nat.ltb_ge in Hlt. lia. }
  split; [by rewrite Hsent, app_assoc|].
  split; [by apply broadcast_recipients_NoDup|].
  split.
  { unfold shuffle_messages.
    rewrite shuffle_message_recipients;
      [|done|by apply shuffle_links_resolvable].
    apply NoDup_filter, NoDup_obj_keys.
    rewrite (shuffle_links_cycle rnd s1), cycle_links_keys by done.
    by apply (shuffled_keys_NoDup rnd s1). }
  split; [intros x m; by apply broadcast_messages_elem|].
  split.
  { intros x m. rewrite shuffle_messages_elem by done.
    setoid_rewrite Hopen. split.
    - intros (y & toP & Hxy & HtoP & Hox & ->).
      exists y, toP. split_and!; try done. by apply shuffle_links_get.
    - intros (y & toP & Hxy & HtoP & Hox & ->).
      exists y, toP. split_and!; try done. by apply obj_get_Some_elem. }
  intros c Hne'. rewrite obj_alter_get_ne by done. by apply Hother.
Qed.

(** X8. A connection that joins a session it is not yet in: it is added
    last; the shuffle cycle starts again, so that the links are one ring
    through all the participants, the joiner included, and the session has a
    timer exactly when it now has more than two participants; the list of
    names, the joiner's included, goes once to each participant whose
    socket is open and to nobody else, and only after it the [shuffle]
    messages, one for each participant whose socket is open, telling it the
    participant it is now linked to, that participant's name and the flag
    of the link; the other sessions are as they were. *)
Theorem join_restarts_shuffle_cycle ws payload rnd st sc pn code s0 :
  reachable st ->
  get_prop payload "sessionCode" = Some sc ->
  get_prop payload "participantName" = Some pn ->
  ToPropertyKey sc = Some code ->
  obj_get code (sessions st) = Some s0 ->
  obj_get ws (participants s0) = None ->
  is_Some (ToString pn) ->
  exists st' s' plu shuf,
    joinSession ws payload rnd st = Done st' /\
    obj_get code (sessions st') = Some s' /\
    participants s' = participants s0 ++ [(ws, mkParticipant pn ws)] /\
    single_cycle (links s') (obj_keys (participants s')) /\
    (timer s' = None <-> length (participants s') <= 2) /\
    sent st' = sent st ++ plu ++ shuf /\
    NoDup plu.*1 /\ NoDup shuf.*1 /\
    (forall x m, (x, m) ∈ plu <->
       m = participantListUpdate (names_of (participants s')) /\
       is_Some (obj_get x (participants s')) /\ is_open x st = true) /\
    (forall x m, (x, m) ∈ shuf <->
       exists y toP,
         obj_get x (links s') = Some y /\
         obj_get y (participants s') = Some toP /\
         is_open x st = true /\
         m = shuffle y (name toP) (polite_flag x y)) /\
    (forall c, c ≠ code ->
       obj_get c (sessions st') = obj_get c (sessions st)).
Proof. exact (join_new_member ws payload rnd st sc pn code s0). Qed.

Lemma perm_pair {A} (l : list A) x y :
  l ≡ₚ [x; y] -> l = [x; y] \/ l = [y; x].
Proof.
  intros Hperm. pose proof (Permutation_length Hperm) as Hlen.
  destruct l as [|u [|v [|w l]]]; try done.
  assert (u ∈ [x; y]) as Hu by (rewrite <- Hperm; left).
  apply elem_of_cons in Hu as [->|Hu%list_elem_of_singleton].
  - apply Permutation.Permutation_cons_inv in Hperm.
    left. f_equal. by apply Permutation_singleton_inj in Hperm as ->.
  - subst u. assert ([x; y] ≡ₚ [y; x]) as Hsw by apply Permutation_swap.
    rewrite Hsw in Hperm.
    apply Permutation.Permutation_cons_inv in Hperm.
    right. f_equal. by apply Permutation_singleton_inj in Hperm as ->.
Qed.

Lemma cycle_links_of_pair c x y :
  c ≡ₚ [x; y] -> cycle_links c ≡ₚ [(x, y); (y, x)].
Proof.
  intros [-> | ->]%perm_pair; unfold cycle_links; simpl; [done|].
  apply Permutation_swap.
Qed.

(** X9. When a second participant joins a session of one, both sockets
    open, the two are paired with each other: the links are a -> b and
    b -> a, no recurring timer is started, each of the two is sent the list
    of names once and then one [shuffle] message naming the other with the
    other's name, and exactly one of the two messages carries
    [polite: true]. *)
Theorem second_participant_is_paired ws payload rnd st sc pn code s0 a pa :
  reachable st ->
  get_prop payload "sessionCode" = Some sc ->
  get_prop payload "participantName" = Some pn ->
  ToPropertyKey sc = Some code ->
  obj_get code (sessions st) = Some s0 ->
  is_Some (ToString pn) ->
  participants s0 = [(a, pa)] ->
  a ≠ ws ->
  is_open a st = true ->
  is_open ws st = true ->
  exists st' s' plu shuf,
    joinSession ws payload rnd st = Done st' /\
    obj_get code (sessions st') = Some s' /\
    participants s' = [(a, pa); (ws, mkParticipant pn ws)] /\
    links s' ≡ₚ [(a, ws); (ws, a)] /\
    timer s' = None /\
    sent st' = sent st ++ plu ++ shuf /\
    plu ≡ₚ [(a, participantListUpdate (names_of (participants s')));
            (ws, participantListUpdate (names_of (participants s')))] /\
    shuf ≡ₚ [(a, shuffle ws pn (polite_flag a ws));
             (ws, shuffle a (name pa) (polite_flag ws a))] /\
    polite_flag a ws = negb (polite_flag ws a).
Proof.
  intros Hr Hsc Hpn Hkey Hs Hprint Hp0 Hne Hoa Hows.
  assert (obj_get ws (participants s0) = None) as Hnew.
  { rewrite Hp0. simpl. by rewrite decide_False. }
  destruct (join_new_member ws payload rnd st sc pn code s0
              Hr Hsc Hpn Hkey Hs Hnew Hprint)
    as (st' & s' & plu & shuf & Hrun & Hs' & Hps & (c & Hc & Hcp & Hl) & Htm &
        Hsent & Hnp & Hns & Hplu & Hshuf & _).
  rewrite Hp0 in Hps. simpl in Hps.
  assert (obj_keys (participants s') ≡ₚ [a; ws]) as Hkeys
    by (rewrite obj_keys_perm, Hps; done).
  assert (links s' ≡ₚ [(a, ws); (ws, a)]) as Hlinks.
  { rewrite Hl. apply cycle_links_of_pair. by rewrite Hcp. }
  assert (obj_get a (links s') = Some ws /\ obj_get ws (links s') = Some a)
    as [Hla Hlw].
  { assert (NoDup (links s').*1) as Hnd
      by (rewrite Hl, cycle_links_keys; done).
    split; apply obj_get_elem_NoDup; try done; rewrite Hlinks;
      [left | right; left]. }
  assert (forall x, is_Some (obj_get x (participants s')) <-> x = a \/ x = ws)
    as Hmem.
  { intros x. rewrite obj_get_is_Some, Hps. simpl.
    rewrite !elem_of_cons, elem_of_nil. naive_solver. }
  exists st', s', plu, shuf. split_and!; try done.
  - apply Htm. rewrite Hps. simpl. lia.
  - apply NoDup_Permutation.
    + by apply NoDup_fmap_1 in Hnp.
    + apply NoDup_cons. split; [|apply NoDup_singleton].
      intros ?%list_elem_of_singleton. by simplify_eq.
    + intros [x m]. rewrite Hplu, Hmem, !elem_of_cons, elem_of_nil.
      split.
      * intros (-> & [-> | ->] & _); auto.
      * intros [?|[?|[]]]; simplify_eq; auto.
  - apply NoDup_Permutation.
    + by apply NoDup_fmap_1 in Hns.
    + apply NoDup_cons. split; [|apply NoDup_singleton].
      intros ?%list_elem_of_singleton. by simplify_eq.
    + intros [x m]. rewrite Hshuf, !elem_of_cons, elem_of_nil. split.
      * intros (y & toP & Hy & HtoP & _ & ->).
        assert (x = a \/ x = ws) as [-> | ->].
        { apply Hmem, obj_get_is_Some. rewrite <- obj_keys_perm, <- Hcp.
          rewrite <- (cycle_links_keys c), <- Hl.
          apply obj_get_is_Some. eauto. }
        -- rewrite Hla in Hy. simplify_eq. rewrite Hps in HtoP. simpl in HtoP.
           rewrite decide_False, decide_True in HtoP by done.
           simplify_eq. by left.
        -- rewrite Hlw in Hy. simplify_eq. rewrite Hps in HtoP. simpl in HtoP.
           rewrite decide_True in HtoP by done. simplify_eq. right. by left.
      * intros [?|[?|[]]]; simplify_eq.
        -- exists ws, (mkParticipant pn ws). split_and!; try done.
           rewrite Hps. simpl. by rewrite decide_False, decide_True.
        -- exists a, pa. split_and!; try done.
           rewrite Hps. simpl. by rewrite decide_True.
  - by apply polite_flag_swap.
Qed.

(** X19. A join under a name that cannot be converted to a string, for a
    code that can be used as a key and names no member of
    [Object.prototype], stops midway: the connection is stored among the
    participants of the session (created if absent, otherwise with its
    links and its timer as they were) and the socket records the code; then
    the handler throws. Nothing is sent, so that nobody learns of the new
    participant, no shuffle takes place and no timer is started or
    cancelled; the other sessions are as they were. *)
Theorem join_under_unprintable_name_stops_midway
    ws payload rnd st sc pn code :
  get_prop payload "sessionCode" = Some sc ->
  get_prop payload "participantName" = Some pn ->
  ToPropertyKey sc = Some code ->
  code ∉ Object_prototype_keys ->
  ToString pn = None ->
  let old := default (mkSession [] [] None) (obj_get code (sessions st)) in
  exists st' s',
    joinSession ws payload rnd st = Thrown st' /\
    obj_get code (sessions st') = Some s' /\
    participants s' = obj_set ws (mkParticipant pn ws) (participants old) /\
    links s' = links old /\ timer s' = timer old /\
    (forall c, c ≠ code -> obj_get c (sessions st') = obj_get c (sessions st)) /\
    conns st' = alter (fun c => mkConn sc (readyState c)) ws (conns st) /\
    sent st' = sent st /\ intervals st' = intervals st /\
    timeouts st' = timeouts st /\ next_handle st' = next_handle st.
Proof.
  intros Hsc Hpn Hkey Hcode Hnm. cbv zeta.
  rewrite (joinSession_throws ws payload rnd st sc pn code); try done.
  - eexists _, _. split; [done|]. unfold registered. simpl.
    rewrite obj_set_get_eq. split_and!; try done.
    intros c Hne. by rewrite obj_set_get_ne.
  - unfold js_lookup. destruct (obj_get code (sessions st)); [done|].
    by rewrite bool_decide_eq_false_2.
Qed.

(** ** Leaving *)

Lemma elem_of_obj_entries_2 {V} (o : obj V) k v :
  obj_get k o = Some v -> (k, v) ∈ obj_entries o.
Proof.
  intros Hk. unfold obj_entries. apply list_elem_of_omap. exists k. split.
  - apply elem_of_obj_keys, obj_get_is_Some. eauto.
  - by rewrite Hk.
Qed.

Lemma close_finds st ws code session :
  obj_get code (sessions st) = Some session ->
  is_Some (obj_get ws (participants session)) ->
  only_member_of ws code st ->
  exists i,
    list_find (fun e => is_Some (obj_get ws (participants e.2)))
              (obj_entries (sessions st)) = Some (i, (code, session)).
Proof.
  intros Hs Hws Honly.
  destruct (list_find_elem_of
              (fun e : string * Session => is_Some (obj_get ws (participants e.2)))
              (obj_entries (sessions st)) (code, session))
    as [[i [c s]] Hfind]; [by apply elem_of_obj_entries_2|done|].
  exists i. rewrite Hfind.
  apply list_find_Some in Hfind as (Hi & HP & _). simpl in HP.
  assert (obj_get c (sessions st) = Some s) as Hcs.
  { apply elem_of_obj_entries, list_elem_of_lookup. eauto. }
  assert (c = code) as -> by (by eapply Honly).
  congruence.
Qed.

Lemma close_finds_none st ws :
  (forall c s, obj_get c (sessions st) = Some s ->
               obj_get ws (participants s) = None) ->
  list_find (fun e => is_Some (obj_get ws (participants e.2)))
            (obj_entries (sessions st)) = None.
Proof.
  intros Hnone. apply list_find_None, Forall_forall. intros [c s] Hin.
  apply elem_of_obj_entries in Hin. simpl. rewrite (Hnone c s Hin).
  by intros [? ?].
Qed.

Lemma is_open_closed ws x st :
  is_open x (closed ws st) = if decide (x = ws) then false else is_open x st.
Proof.
  unfold is_open, closed. simpl. rewrite lookup_alter.
  destruct (decide (ws = x)) as [->|Hne].
  - rewrite decide_True by done. by destruct (conns st !! x).
  - by rewrite decide_False by done.
Qed.

(** X10. The close of a connection that is a participant of no session
    only marks its socket closed: the sessions, the live intervals and the
    pending timeouts are as they were and nothing is sent. *)
Theorem close_outside_sessions_changes_nothing ws rnd st :
  in_no_session ws st ->
  exists st',
    on_close ws rnd st = Done st' /\
    sessions st' = sessions st /\ intervals st' = intervals st /\
    timeouts st' = timeouts st /\ sent st' = sent st /\
    next_handle st' = next_handle st /\
    is_open ws st' = false /\
    (forall x, x ≠ ws -> conns st' !! x = conns st !! x).
Proof.
  intros Hnone. unfold on_close.
  change (sessions (set_conns _ st)) with (sessions st).
  rewrite close_finds_none by done.
  eexists. split; [done|]. simpl. split_and!; try done.
  - pose proof (is_open_closed ws ws st) as H. rewrite decide_True in H by done.
    exact H.
  - intros x Hne. by rewrite lookup_alter_ne.
Qed.

Lemma on_close_result strict ws rnd st code session :
  consistent strict st ->
  obj_get code (sessions st) = Some session ->
  is_Some (obj_get ws (participants session)) ->
  only_member_of ws code st ->
  let ps := obj_delete ws (participants session) in
  let s1 := set_participants ps session in
  let st1 := set_sessions (obj_alter (set_participants ps) code) (closed ws st) in
  let st2 := add_sent (broadcast_messages s1
                         (participantListUpdate (names_of ps)) st1) st1 in
  on_close ws rnd st
  = Done (if decide (length ps = 0)
          then set_sessions (obj_delete code)
                            (clearInterval (timer session) (closed ws st))
          else if (1 <? length ps)%nat then restarted code rnd s1 st2
               else st2).
Proof.
  intros Hc Hs Hws Honly. cbv zeta. unfold on_close. fold (closed ws st).
  change (sessions (closed ws st)) with (sessions st).
  destruct (close_finds st ws code session Hs Hws Honly) as [i ->].
  rewrite !length_obj_keys.
  destruct (decide (length (obj_delete ws (participants session)) = 0));
    [done|].
  set (ps := obj_delete ws (participants session)).
  set (s1 := set_participants ps session).
  set (st1 := set_sessions (obj_alter (set_participants ps) code) (closed ws st)).
  assert (obj_get code (sessions st1) = Some s1) as Hs1.
  { unfold st1. simpl. by rewrite obj_alter_get_eq, Hs. }
  rewrite (broadcastToSession_Own _ _ _ s1 Hs1). cbn [bind].
  destruct (1 <? length ps)%nat; [|done].
  apply initiateShuffleCycle_Own; [done|].
  apply obj_delete_NoDup, (sessions_ok _ _ Hc _ _ Hs).
Qed.

(** X11. A participant leaves a session in which others remain (and it is
    in no other session): it is removed and the others keep their entries
    and their order; each of the remaining participants whose socket is
    open is sent the new list of names once, and nobody else is sent it. If
    two or more remain, the shuffle cycle starts again after that: the
    links are one ring through the remaining participants and none
    mentions the one that left. If one remains, there is no shuffle: no
    [shuffle] message is sent and the links stay as they were. In both
    cases the session has a timer exactly when more than two remain, and
    the other sessions are as they were. *)
Theorem leave_updates_the_others ws rnd st code session :
  reachable st ->
  obj_get code (sessions st) = Some session ->
  is_Some (obj_get ws (participants session)) ->
  only_member_of ws code st ->
  2 <= length (participants session) ->
  exists st' s' plu shuf,
    on_close ws rnd st = Done st' /\
    obj_get code (sessions st') = Some s' /\
    participants s' = obj_delete ws (participants session) /\
    S (length (participants s')) = length (participants session) /\
    obj_get ws (participants s') = None /\
    (forall k, k ≠ ws ->
       obj_get k (participants s') = obj_get k (participants session)) /\
    sent st' = sent st ++ plu ++ shuf /\
    NoDup plu.*1 /\
    (forall x m, (x, m) ∈ plu <->
       m = participantListUpdate (names_of (participants s')) /\
       is_Some (obj_get x (participants s')) /\ is_open x st = true) /\
    (2 <= length (participants s') ->
       single_cycle (links s') (obj_keys (participants s')) /\
       forall x y, (x, y) ∈ links s' -> x ≠ ws /\ y ≠ ws) /\
    (length (participants s') = 1 ->
       links s' = links session /\ shuf = []) /\
    (timer s' = None <-> length (participants s') <= 2) /\
    (forall c, c ≠ code ->
       obj_get c (sessions st') = obj_get c (sessions st)).
Proof.
  intros Hc%reachable_consistent Hs Hws Honly Hlen.
  destruct (sessions_ok _ _ Hc _ _ Hs) as [Hnd Hown _ Htm _ _ _].
  rewrite (on_close_result False ws rnd st code session) by done. cbv zeta.
  set (ps := obj_delete ws (participants session)).
  set (s1 := set_participants ps session).
  assert (S (length ps) = length (participants session)) as Hlen'.
  { apply obj_delete_length; [done|]. by apply obj_get_is_Some. }
  rewrite decide_False by lia.
  set (st1 := set_sessions (obj_alter (set_participants ps) code) (closed ws st)).
  assert (NoDup (participants s1).*1) as Hnd1 by (by apply obj_delete_NoDup).
  assert (sockets_own s1) as Hown1.
  { intros k p ?%elem_of_obj_delete. by apply Hown. }
  assert (obj_get ws ps = None) as Hgone by apply obj_delete_get_eq.
  assert (forall x m,
            (x, m) ∈ broadcast_messages s1
                       (participantListUpdate (names_of ps)) st1 <->
            m = participantListUpdate (names_of ps) /\
            is_Some (obj_get x ps) /\ is_open x st = true) as Hplu.
  { intros x m. rewrite broadcast_messages_elem by done. simpl.
    change (is_open x st1) with (is_open x (closed ws st)).
    rewrite is_open_closed. split.
    - intros (-> & Hx & Hopen). case_decide; [done|]. done.
    - intros (-> & Hx & Hopen). split_and!; try done.
      rewrite decide_False; [done|]. intros ->.
      rewrite Hgone in Hx. by destruct Hx. }
  set (st2 := add_sent _ st1).
  assert (forall c, c ≠ code ->
            obj_get c (sessions st2) = obj_get c (sessions st)) as Hother.
  { intros c Hne. simpl. by rewrite obj_alter_get_ne. }
  assert (obj_get code (sessions st2) = Some s1) as Hs2.
  { simpl. by rewrite obj_alter_get_eq, Hs. }
  assert (sent st2 = sent st ++ broadcast_messages s1
                       (participantListUpdate (names_of ps)) st1) as Hsent
    by done.
  clearbody st2.
  destruct (1 <? length ps)%nat eqn:Hmore.
  - apply Nat.ltb_lt in Hmore.
    eexists (restarted code rnd s1 st2), _, _, (shuffle_messages rnd s1 st2).
    split; [done|].
    split; [simpl; by rewrite obj_alter_get_eq, Hs2|]. simpl.
    split_and!; try done.
    + intros k Hne. by apply obj_delete_get_ne.
    + by rewrite Hsent, app_assoc.
    + by apply broadcast_recipients_NoDup.
    + intros _. split.
      * exists (shuffled rnd (obj_keys ps)). split_and!.
        -- by apply (shuffled_keys_NoDup rnd s1).
        -- apply shuffled_perm.
        -- by apply (shuffle_links_cycle rnd s1).
      * intros x y Hxy.
        destruct (shuffle_links_members rnd s1 x y Hnd1 Hxy) as [Hx Hy].
        simpl in Hx, Hy. apply obj_get_is_Some in Hx, Hy.
        split; intros ->; rewrite Hgone in *; by (destruct Hx || destruct Hy).
    + unfold ps in *. lia.
    + rewrite <- length_obj_keys.
      destruct (2 <? length (obj_keys ps))%nat eqn:Hlt; split; try done.
      * apply Nat.ltb_lt in Hlt. lia.
      * apply Nat.ltb_ge in Hlt. lia.
    + intros c Hne. rewrite obj_alter_get_ne by done. by apply Hother.
  - apply Nat.ltb_ge in Hmore.
    eexists st2, s1, _, []. split; [done|]. split; [done|]. simpl.
    split_and!; try done.
    + intros k Hne. by apply obj_delete_get_ne.
    + by rewrite app_nil_r.
    + by apply broadcast_recipients_NoDup.
    + intros H. exfalso. simpl in H. unfold ps in *. lia.
    + simpl. split; [intros _; unfold ps in *; lia|].
      intros _. apply Htm. rewrite length_obj_keys. unfold ps in *. lia.
Qed.

(** X12. The last participant of a session leaves (and it is in no other
    session): the entry of the session is removed, no interval is live for
    its code, nothing is sent, and the other sessions, the other intervals
    and the pending timeouts are as they were. A timeout that was pending
    for the code and expires while the code names no session changes
    nothing: it is consumed and that is all. *)
Theorem last_leave_removes_session ws rnd st code session p :
  reachable st ->
  obj_get code (sessions st) = Some session ->
  participants session = [(ws, p)] ->
  only_member_of ws code st ->
  exists st',
    on_close ws rnd st = Done st' /\
    obj_get code (sessions st') = None /\
    (forall c, c ≠ code ->
       obj_get c (sessions st') = obj_get c (sessions st)) /\
    (forall h, intervals st' !! h ≠ Some code) /\
    intervals st' = intervals st /\
    timeouts st' = timeouts st /\ sent st' = sent st /\
    (forall rnd' rest, timeouts st' = code :: rest ->
       handle (TimeoutFires rnd') st'
       = Done (mkServer (sessions st') (conns st') (intervals st') rest
                        (next_handle st') (sent st'))).
Proof.
  intros Hc%reachable_consistent Hs Hp Honly.
  destruct (sessions_ok _ _ Hc _ _ Hs) as [_ _ _ Htm _ _ Hcode].
  assert (timer session = None) as Hnone.
  { apply Htm. rewrite length_obj_keys, Hp. simpl. lia. }
  assert (is_Some (obj_get ws (participants session))) as Hws.
  { rewrite Hp. simpl. rewrite decide_True by done. eauto. }
  rewrite (on_close_result False ws rnd st code session) by done.
  cbv zeta. rewrite Hp. simpl. destruct (decide (ws = ws)); [|done]. simpl.
  rewrite Hnone. simpl.
  eexists. split; [done|]. simpl.
  assert (obj_get code (obj_delete code (sessions st)) = None) as Hgone
    by apply obj_delete_get_eq.
  split_and!; try done.
  - intros c Hne. by apply obj_delete_get_ne.
  - intros h Hh. destruct (intervals_owned _ _ Hc _ _ Hh) as (_ & s & Hs' & Ht).
    congruence.
  - intros rnd' rest ->. unfold timeout_callback.
    rewrite performShuffle_Absent; [done|].
    apply js_lookup_Absent. by split.
Qed.

(** ** Relaying and broadcasting *)

(** X13. A [webrtc-signal], from any socket, with any payload, in any
    state, changes no session, no socket record and no timer; either
    nothing is sent, or exactly one message is, to an open socket, and it
    carries the signal of the payload and the sender's identity. Nothing
    comes back to the sender about a signal that was dropped. *)
Theorem relay_touches_only_the_recipient ws payload st :
  let st' := final (relay ws payload st) in
  sessions st' = sessions st /\ conns st' = conns st /\
  intervals st' = intervals st /\ timeouts st' = timeouts st /\
  next_handle st' = next_handle st /\
  (sent st' = sent st \/
   exists recipient signal,
     get_prop payload "signal" = Some signal /\
     is_open recipient st = true /\
     sent st' = sent st ++ [(recipient, webrtc_signal ws signal)]).
Proof.
  cbv zeta. unfold relay.
  destruct (get_prop payload "to") as [to|]; [|by split_and!; auto].
  destruct (get_prop payload "signal") as [signal|]; [|by split_and!; auto].
  destruct (ToPropertyKey (ws_sessionCode ws st)) as [code|];
    [|by split_and!; auto].
  destruct (js_lookup _ (sessions st)) as [session| |];
    [|by split_and!; auto..].
  destruct (ToPropertyKey to) as [key|]; [|by split_and!; auto].
  destruct (obj_get _ (participants session)) as [recipient|];
    [|by split_and!; auto].
  simpl. unfold send.
  destruct (is_open (socket recipient) st) eqn:Hopen; simpl.
  - split_and!; try done. right. by exists (socket recipient), signal.
  - split_and!; auto.
Qed.

(** X14. A broadcast to a session reaches each participant whose socket is
    open, once, in the order of the participants, and nobody else; the
    participants whose socket is closing or closed are passed over without
    an error; nothing but the socket log changes. *)
Theorem broadcast_reaches_open_participants code message st session :
  obj_get code (sessions st) = Some session ->
  NoDup (participants session).*1 ->
  sockets_own session ->
  exists extra,
    broadcastToSession code message st
    = Done (mkServer (sessions st) (conns st) (intervals st) (timeouts st)
                     (next_handle st) (sent st ++ extra)) /\
    extra.*1 = filter (fun k => is_open k st = true)
                      (obj_keys (participants session)) /\
    NoDup extra.*1 /\
    (forall x m, (x, m) ∈ extra <->
       m = message /\ is_Some (obj_get x (participants session)) /\
       is_open x st = true).
Proof.
  intros Hs Hnd Hown. exists (broadcast_messages session message st).
  split; [by apply broadcastToSession_Own|].
  split; [by apply broadcast_recipients|].
  split; [by apply broadcast_recipients_NoDup|].
  intros x m. by apply broadcast_messages_elem.
Qed.

(** ** The session table *)

(** X15. In every reachable state the session table is in order: no
    session is without participants (a session does not outlive its last
    participant), the participants of a session have distinct keys, each
    is stored under the identity of its own socket, and no session is
    stored under a name inherited from [Object.prototype]. *)
Theorem sessions_stay_well_formed st :
  reachable st ->
  forall code s, obj_get code (sessions st) = Some s ->
    participants s ≠ [] /\
    NoDup (participants s).*1 /\
    (forall k p, (k, p) ∈ participants s -> socket p = k) /\
    code ∉ Object_prototype_keys.
Proof.
  intros Hc%reachable_consistent code s Hs.
  destruct (sessions_ok _ _ Hc _ _ Hs). by split_and!.
Qed.

(** X16. One round of the recurring cycle: in a reachable state without
    pending timeouts, the tick of a live interval followed by the expiry of
    the timeout it scheduled shuffles the session anew: the participants
    and the timer of the session are as before the round, the interval is
    still live, no timeout is left pending, and the links are one ring
    through all the participants. *)
Theorem recurring_round_reshuffles st h code rnd :
  reachable st ->
  intervals st !! h = Some code ->
  timeouts st = [] ->
  exists s st1 st2 s2,
    obj_get code (sessions st) = Some s /\
    handle (IntervalFires h) st = Done st1 /\
    enabled (TimeoutFires rnd) st1 = true /\
    handle (TimeoutFires rnd) st1 = Done st2 /\
    obj_get code (sessions st2) = Some s2 /\
    participants s2 = participants s /\ timer s2 = Some h /\
    intervals st2 !! h = Some code /\ timeouts st2 = [] /\
    2 < length (participants s2) /\
    single_cycle (links s2) (obj_keys (participants s2)).
Proof.
  intros Hc%reachable_consistent Hh Hto.
  destruct (intervals_owned _ _ Hc _ _ Hh) as (_ & s & Hs & Ht).
  destruct (sessions_ok _ _ Hc _ _ Hs) as [Hnd Hown _ Htm _ _ _].
  assert (2 < length (participants s)) as Hlen.
  { rewrite <- length_obj_keys.
    destruct (decide (2 < length (obj_keys (participants s)))); [done|].
    rewrite Htm in Ht by lia. done. }
  exists s. eexists _, _, (set_links (shuffle_links rnd s) s).
  split; [done|]. simpl. rewrite Hh. unfold interval_callback.
  rewrite (broadcastToSession_Own _ _ _ s Hs). cbn [bind].
  split; [reflexivity|]. simpl. rewrite Hto. simpl.
  split; [done|]. unfold timeout_callback.
  split; [by apply performShuffle_Own|]. simpl.
  rewrite obj_alter_get_eq, Hs. simpl. split_and!; try done.
  exists (shuffled rnd (obj_keys (participants s))). split_and!.
  - by apply shuffled_keys_NoDup.
  - apply shuffled_perm.
  - by apply shuffle_links_cycle.
Qed.

(** X20. In every reachable state, throws included: a session of at most
    two participants has no timer and no interval is live for its code;
    every live interval is the timer of a session of more than two
    participants, and a tick of it sends the countdown, with duration 10,
    to each participant of that session whose socket is open and to nobody
    else, queues one timeout for the code of the session, and changes
    nothing else. *)
Theorem recurring_timer_only_above_two st :
  reachable st ->
  (forall code s, obj_get code (sessions st) = Some s ->
     length (participants s) <= 2 ->
     timer s = None /\ forall h, intervals st !! h ≠ Some code) /\
  (forall h code, intervals st !! h = Some code ->
     exists s countdown,
       obj_get code (sessions st) = Some s /\ timer s = Some h /\
       2 < length (participants s) /\
       handle (IntervalFires h) st
       = Done (mkServer (sessions st) (conns st) (intervals st)
                        (timeouts st ++ [code]) (next_handle st)
                        (sent st ++ countdown)) /\
       NoDup countdown.*1 /\
       (forall x m, (x, m) ∈ countdown <->
          m = shuffle_countdown 10 /\
          is_Some (obj_get x (participants s)) /\ is_open x st = true)).
Proof.
  intros Hc%reachable_consistent. split.
  - intros code s Hs Hlen.
    destruct (sessions_ok _ _ Hc _ _ Hs) as [_ _ _ Htm _ _ _].
    assert (timer s = None) as Hnone
      by (apply Htm; rewrite length_obj_keys; lia).
    split; [done|]. intros h Hh.
    destruct (intervals_owned _ _ Hc _ _ Hh) as (_ & s' & Hs' & Ht'). congruence.
  - intros h code Hh.
    destruct (intervals_owned _ _ Hc _ _ Hh) as (_ & s & Hs & Ht).
    destruct (sessions_ok _ _ Hc _ _ Hs) as [Hnd Hown _ Htm _ _ _].
    exists s, (broadcast_messages s (shuffle_countdown 10) st).
    split_and!; try done.
    + rewrite <- length_obj_keys.
      destruct (decide (2 < length (obj_keys (participants s)))); [done|].
      rewrite Htm in Ht by lia. done.
    + simpl. rewrite Hh. unfold interval_callback.
      by rewrite (broadcastToSession_Own _ _ _ s Hs).
    + by apply broadcast_recipients_NoDup.
    + intros x m. by apply broadcast_messages_elem.
Qed.

Lemma run_done_reachable es st st' :
  reachable_without_throw st -> run_done es st = Some st' ->
  reachable_without_throw st'.
Proof.
  revert st. induction es as [|e es IH]; intros st Hr; simpl.
  - intros ?; by simplify_eq.
  - destruct (enabled e st) eqn:He; [|done].
    destruct (handle e st) as [st1|st1] eqn:Hh; [|done].
    apply IH. by apply (quiet_step st e).
Qed.

(** X21. As long as every handler has returned normally, a session has a
    recurring timer exactly when it has more than two participants, and
    that timer is a live interval for its code. (A join that throws midway
    can leave more than two participants without one.) *)
Theorem timer_iff_more_than_two_without_throw st :
  reachable_without_throw st ->
  forall code s, obj_get code (sessions st) = Some s ->
    (is_Some (timer s) <-> 2 < length (participants s)) /\
    (forall h, timer s = Some h -> intervals st !! h = Some code).
Proof.
  intros Hc%reachable_without_throw_consistent code s Hs.
  destruct (sessions_ok _ _ Hc _ _ Hs) as [_ _ _ Htm Hst Hlive _].
  rewrite <- length_obj_keys. split; [|done]. split.
  - intros [h Hh].
    destruct (decide (2 < length (obj_keys (participants s)))); [done|].
    rewrite Htm in Hh by lia. done.
  - intros Hlen. destruct (timer s) as [h|] eqn:Ht; [by eexists|].
    specialize (Hst I eq_refl). lia.
Qed.

(** ** The countdown of the client *)

#[local] Arguments round_to_double : simpl never.

Lemma round_to_double_exact (z : Z) :
  (- 2 ^ 53 <= z <= 2 ^ 53)%Z -> round_to_double z = z.
Proof.
  intros Hz. unfold round_to_double.
  by rewrite (proj2 (Z.leb_le _ _)) by lia.
Qed.

Lemma countdown_ticking (d : Z) (k : nat) :
  (Z.of_nat k < d)%Z -> (d <= 2 ^ 53)%Z ->
  Nat.iter k countdown_tick (countdown_start d)
  = mkCountdown (d - Z.of_nat k)%Z (Some (d - Z.of_nat k)%Z)
                (ShufflingIn d) true.
Proof.
  induction k as [|k IH]; intros Hk Hd.
  - simpl. unfold countdown_start. by rewrite Z.sub_0_r.
  - rewrite Nat.iter_succ, IH by lia. unfold countdown_tick. simpl.
    rewrite round_to_double_exact by lia.
    rewrite (proj2 (Z.leb_gt _ _)) by lia.
    by replace (d - Z.of_nat k - 1)%Z with (d - Z.of_nat (S k))%Z by lia.
Qed.

(** X17. The countdown the client shows on [shuffle-countdown]: for a
    duration d >= 1 (and within the range in which the language counts
    exactly) the interval fires exactly d times; after k < d
    firings it is still live and the countdown shows d - k, while the
    status message still reads the duration received; the d-th firing
    clears the interval, sets the countdown to [null] and the status to
    'Shuffling...'. *)
Theorem countdown_runs_for_duration (d : Z) (n : nat) :
  (1 <= d <= 2 ^ 53)%Z ->
  Z.of_nat n = d ->
  (forall k, k < n ->
     Nat.iter k countdown_tick (countdown_start d)
     = mkCountdown (d - Z.of_nat k)%Z (Some (d - Z.of_nat k)%Z)
                   (ShufflingIn d) true) /\
  Nat.iter n countdown_tick (countdown_start d)
  = mkCountdown 0 None ShufflingNow false /\
  countdown_tick (Nat.iter n countdown_tick (countdown_start d))
  = Nat.iter n countdown_tick (countdown_start d).
Proof.
  intros Hd Hn. split_and!.
  - intros k Hk. apply countdown_ticking; lia.
  - destruct n as [|n]; [lia|].
    rewrite Nat.iter_succ, countdown_ticking by lia.
    unfold countdown_tick. simpl.
    rewrite round_to_double_exact by lia.
    rewrite (proj2 (Z.leb_le _ _)) by lia. f_equal. lia.
  - destruct n as [|n]; [lia|].
    rewrite Nat.iter_succ, countdown_ticking by lia.
    unfold countdown_tick. simpl.
    rewrite round_to_double_exact by lia.
    by rewrite (proj2 (Z.leb_le _ _)) by lia.
Qed.

(** X18. A countdown started with a duration d of zero or less, above
    -2^53 so that d - 1 is still counted exactly, is shown all the same and
    stops only at the first firing of its interval, one second later, with
    the local duration at d - 1. At d = -2^53 the subtraction no longer
    changes the number. *)
Theorem countdown_of_nothing_stops_at_once (d : Z) :
  (- 2 ^ 53 < d <= 0)%Z ->
  cd_live (countdown_start d) = true /\
  cd_countdown (countdown_start d) = Some d /\
  countdown_tick (countdown_start d)
  = mkCountdown (d - 1)%Z None ShufflingNow false /\
  countdown_tick (countdown_start (- 2 ^ 53))
  = mkCountdown (- 2 ^ 53)%Z None ShufflingNow false.
Proof.
  intros Hd. split_and!; try done.
  unfold countdown_tick, countdown_start. simpl.
  rewrite round_to_double_exact by lia.
  by rewrite (proj2 (Z.leb_le _ _)) by lia.
Qed.

(** * The further properties at concrete inputs *)

(** X2: the hypotheses of [shuffle_loop_reaches_every_order] hold of a concrete input. *)
Lemma shuffle_loop_reaches_every_order_witness :
  let a := ["a"; "b"; "c"] in
  let p := ["c"; "a"; "b"] in
  (p ≡ₚ a) /\
  (exists rnd, shuffled rnd a = p).
Proof.
  intros a p.
  assert (p ≡ₚ a) as H1
    by (apply (bool_decide_unpack _); vm_compute; exact I).
  split; [repeat (split; [assumption|]); assumption|].
  exact (shuffle_loop_reaches_every_order a p H1).
Defined.

(** X3: the hypotheses of [shuffle_delivery] hold of a concrete input. *)
Lemma shuffle_delivery_witness :
  let code := "X" in
  let rnd := ring_order in
  let st := after b_closing in
  let session := joined_session in
  ((obj_get code (sessions st) = Some session) /\
   (NoDup (participants session).*1) /\
   (sockets_own session)) /\
  (exists st' session' extra,
    performShuffle code rnd st = Done st' /\
    obj_get code (sessions st') = Some session' /\
    sent st' = sent st ++ extra /\
    NoDup extra.*1 /\
    (forall x m, (x, m) ∈ extra ->
       is_open x st = true /\
       exists y toP,
         obj_get x (links session') = Some y /\
         obj_get y (participants session) = Some toP /\
         m = shuffle y (name toP) (polite_flag x y)) /\
    (forall k, k ∈ (participants session).*1 -> is_open k st = true ->
       exists m, (k, m) ∈ extra) /\
    (forall k, k ∈ (participants session).*1 -> is_open k st = false ->
       (forall m, (k, m) ∉ extra) /\
       is_Some (obj_get k (links session')) /\
       k ∈ (links session').*2)).
Proof.
  intros code rnd st session.
  assert (obj_get code (sessions st) = Some session) as H1
    by (vm_compute; reflexivity).
  assert (NoDup (participants session).*1) as H2
    by (apply (bool_decide_unpack _); vm_compute; exact I).
  assert (sockets_own session) as H3
    by (apply sockets_own_Forall, (bool_decide_unpack _); vm_compute; exact I).
  split; [repeat (split; [assumption|]); assumption|].
  exact (shuffle_delivery code rnd st session H1 H2 H3).
Defined.

(** X4: the hypotheses of [shuffle_changes_links_only] hold of a concrete input. *)
Lemma shuffle_changes_links_only_witness :
  let code := "X" in
  let rnd := ring_order in
  let st := after three_join in
  (reachable st) /\
  (let st' := final (performShuffle code rnd st) in
  conns st' = conns st /\ intervals st' = intervals st /\
  timeouts st' = timeouts st /\ next_handle st' = next_handle st /\
  (exists extra, sent st' = sent st ++ extra) /\
  (sessions st').*1 = (sessions st).*1 /\
  (forall c, obj_get c (sessions st) = None -> obj_get c (sessions st') = None) /\
  (forall c s, obj_get c (sessions st) = Some s ->
     exists s', obj_get c (sessions st') = Some s' /\
       participants s' = participants s /\ timer s' = timer s /\
       (c ≠ code -> links s' = links s))).
Proof.
  intros code rnd st.
  assert (reachable st) as H1
    by (apply reachable_after).
  split; [repeat (split; [assumption|]); assumption|].
  exact (shuffle_changes_links_only code rnd st H1).
Defined.

(** X5: the hypotheses of [first_join_creates_session] hold of a concrete input. *)
Lemma first_join_creates_session_witness :
  let ws := "a" in
  let payload := join_payload "X" "A" in
  let rnd := ring_order in
  let st := after [Connects "a"] in
  let sc := JStr "X" in
  let pn := JStr "A" in
  let code := "X" in
  ((get_prop payload "sessionCode" = Some sc) /\
   (get_prop payload "participantName" = Some pn) /\
   (ToPropertyKey sc = Some code) /\
   (js_lookup code (sessions st) = Absent) /\
   (is_Some (ToString pn)) /\
   (is_open ws st = true)) /\
  (exists st',
    joinSession ws payload rnd st = Done st' /\
    sessions st'
      = sessions st ++ [(code, mkSession [(ws, mkParticipant pn ws)] [] None)] /\
    ws_sessionCode ws st' = sc /\
    sent st' = sent st ++ [(ws, participantListUpdate [pn])] /\
    intervals st' = intervals st /\ timeouts st' = timeouts st /\
    next_handle st' = next_handle st).
Proof.
  intros ws payload rnd st sc pn code.
  assert (get_prop payload "sessionCode" = Some sc) as H1
    by (vm_compute; reflexivity).
  assert (get_prop payload "participantName" = Some pn) as H2
    by (vm_compute; reflexivity).
  assert (ToPropertyKey sc = Some code) as H3
    by (vm_compute; reflexivity).
  assert (js_lookup code (sessions st) = Absent) as H4
    by (vm_compute; reflexivity).
  assert (is_Some (ToString pn)) as H5
    by (vm_compute; eauto).
  assert (is_open ws st = true) as H6
    by (vm_compute; reflexivity).
  split; [repeat (split; [assumption|]); assumption|].
  exact (first_join_creates_session ws payload rnd st sc pn code H1 H2 H3 H4 H5 H6).
Defined.

(** X6: the hypotheses of [join_under_inherited_name_throws] hold of a concrete input. *)
Lemma join_under_inherited_name_throws_witness :
  let ws := "a" in
  let payload := join_payload "constructor" "A" in
  let rnd := ring_order in
  let st := after [Connects "a"] in
  let sc := JStr "constructor" in
  let pn := JStr "A" in
  let code := "constructor" in
  ((reachable st) /\
   (get_prop payload "sessionCode" = Some sc) /\
   (get_prop payload "participantName" = Some pn) /\
   (ToPropertyKey sc = Some code) /\
   (code ∈ Object_prototype_keys)) /\
  (obj_get code (sessions st) = None /\
  joinSession ws payload rnd st = Thrown st).
Proof.
  intros ws payload rnd st sc pn code.
  assert (reachable st) as H1
    by (apply reachable_after).
  assert (get_prop payload "sessionCode" = Some sc) as H2
    by (vm_compute; reflexivity).
  assert (get_prop payload "participantName" = Some pn) as H3
    by (vm_compute; reflexivity).
  assert (ToPropertyKey sc = Some code) as H4
    by (vm_compute; reflexivity).
  assert (code ∈ Object_prototype_keys) as H5
    by (apply (bool_decide_unpack _); vm_compute; exact I).
  split; [repeat (split; [assumption|]); assumption|].
  exact (join_under_inherited_name_throws ws payload rnd st sc pn code H1 H2 H3 H4 H5).
Defined.

(** X7: the hypotheses of [rejoin_overwrites_entry] hold of a concrete input. *)
Lemma rejoin_overwrites_entry_witness :
  let ws := "a" in
  let payload := join_payload "X" "Anna" in
  let rnd := ring_order in
  let st := after three_join in
  let sc := JStr "X" in
  let pn := JStr "Anna" in
  let code := "X" in
  let s0 := joined_session in
  let p0 := mkParticipant (JStr "A") "a" in
  ((reachable st) /\
   (get_prop payload "sessionCode" = Some sc) /\
   (get_prop payload "participantName" = Some pn) /\
   (ToPropertyKey sc = Some code) /\
   (obj_get code (sessions st) = Some s0) /\
   (obj_get ws (participants s0) = Some p0)) /\
  (exists s',
    obj_get code (sessions (final (joinSession ws payload rnd st))) = Some s' /\
    (participants s').*1 = (participants s0).*1 /\
    obj_get ws (participants s') = Some (mkParticipant pn ws) /\
    (forall k, k ≠ ws ->
       obj_get k (participants s') = obj_get k (participants s0)) /\
    ((exists st', joinSession ws payload rnd st = Done st') <->
     is_Some (ToString pn))).
Proof.
  intros ws payload rnd st sc pn code s0 p0.
  assert (reachable st) as H1
    by (apply reachable_after).
  assert (get_prop payload "sessionCode" = Some sc) as H2
    by (vm_compute; reflexivity).
  assert (get_prop payload "participantName" = Some pn) as H3
    by (vm_compute; reflexivity).
  assert (ToPropertyKey sc = Some code) as H4
    by (vm_compute; reflexivity).
  assert (obj_get code (sessions st) = Some s0) as H5
    by (vm_compute; reflexivity).
  assert (obj_get ws (participants s0) = Some p0) as H6
    by (vm_compute; reflexivity).
  split; [repeat (split; [assumption|]); assumption|].
  exact (rejoin_overwrites_entry ws payload rnd st sc pn code s0 p0 H1 H2 H3 H4 H5 H6).
Defined.

(** X8: the hypotheses of [join_restarts_shuffle_cycle] hold of a concrete input. *)
Lemma join_restarts_shuffle_cycle_witness :
  let ws := "d" in
  let payload := join_payload "X" "D" in
  let rnd := ring_order in
  let st := after three_joined_one_waiting in
  let sc := JStr "X" in
  let pn := JStr "D" in
  let code := "X" in
  let s0 := joined_session in
  ((reachable st) /\
   (get_prop payload "sessionCode" = Some sc) /\
   (get_prop payload "participantName" = Some pn) /\
   (ToPropertyKey sc = Some code) /\
   (obj_get code (sessions st) = Some s0) /\
   (obj_get ws (participants s0) = None) /\
   (is_Some (ToString pn))) /\
  (exists st' s' plu shuf,
    joinSession ws payload rnd st = Done st' /\
    obj_get code (sessions st') = Some s' /\
    participants s' = participants s0 ++ [(ws, mkParticipant pn ws)] /\
    single_cycle (links s') (obj_keys (participants s')) /\
    (timer s' = None <-> length (participants s') <= 2) /\
    sent st' = sent st ++ plu ++ shuf /\
    NoDup plu.*1 /\ NoDup shuf.*1 /\
    (forall x m, (x, m) ∈ plu <->
       m = participantListUpdate (names_of (participants s')) /\
       is_Some (obj_get x (participants s')) /\ is_open x st = true) /\
    (forall x m, (x, m) ∈ shuf <->
       exists y toP,
         obj_get x (links s') = Some y /\
         obj_get y (participants s') = Some toP /\
         is_open x st = true /\
         m = shuffle y (name toP) (polite_flag x y)) /\
    (forall c, c ≠ code ->
       obj_get c (sessions st') = obj_get c (sessions st))).
Proof.
  intros ws payload rnd st sc pn code s0.
  assert (reachable st) as H1
    by (apply reachable_after).
  assert (get_prop payload "sessionCode" = Some sc) as H2
    by (vm_compute; reflexivity).
  assert (get_prop payload "participantName" = Some pn) as H3
    by (vm_compute; reflexivity).
  assert (ToPropertyKey sc = Some code) as H4
    by (vm_compute; reflexivity).
  assert (obj_get code (sessions st) = Some s0) as H5
    by (vm_compute; reflexivity).
  assert (obj_get ws (participants s0) = None) as H6
    by (vm_compute; reflexivity).
  assert (is_Some (ToString pn)) as H7
    by (vm_compute; eauto).
  split; [repeat (split; [assumption|]); assumption|].
  exact (join_restarts_shuffle_cycle ws payload rnd st sc pn code s0 H1 H2 H3 H4 H5 H6 H7).
Defined.

(** X9: the hypotheses of [second_participant_is_paired] hold of a concrete input. *)
Lemma second_participant_is_paired_witness :
  let ws := "b" in
  let payload := join_payload "X" "B" in
  let rnd := ring_order in
  let st := after one_joined in
  let sc := JStr "X" in
  let pn := JStr "B" in
  let code := "X" in
  let s0 := mkSession [("a", mkParticipant (JStr "A") "a")] [] None in
  let a := "a" in
  let pa := mkParticipant (JStr "A") "a" in
  ((reachable st) /\
   (get_prop payload "sessionCode" = Some sc) /\
   (get_prop payload "participantName" = Some pn) /\
   (ToPropertyKey sc = Some code) /\
   (obj_get code (sessions st) = Some s0) /\
   (is_Some (ToString pn)) /\
   (participants s0 = [(a, pa)]) /\
   (a ≠ ws) /\
   (is_open a st = true) /\
   (is_open ws st = true)) /\
  (exists st' s' plu shuf,
    joinSession ws payload rnd st = Done st' /\
    obj_get code (sessions st') = Some s' /\
    participants s' = [(a, pa); (ws, mkParticipant pn ws)] /\
    links s' ≡ₚ [(a, ws); (ws, a)] /\
    timer s' = None /\
    sent st' = sent st ++ plu ++ shuf /\
    plu ≡ₚ [(a, participantListUpdate (names_of (participants s')));
            (ws, participantListUpdate (names_of (participants s')))] /\
    shuf ≡ₚ [(a, shuffle ws pn (polite_flag a ws));
             (ws, shuffle a (name pa) (polite_flag ws a))] /\
    polite_flag a ws = negb (polite_flag ws a)).
Proof.
  intros ws payload rnd st sc pn code s0 a pa.
  assert (reachable st) as H1
    by (apply reachable_after).
  assert (get_prop payload "sessionCode" = Some sc) as H2
    by (vm_compute; reflexivity).
  assert (get_prop payload "participantName" = Some pn) as H3
    by (vm_compute; reflexivity).
  assert (ToPropertyKey sc = Some code) as H4
    by (vm_compute; reflexivity).
  assert (obj_get code (sessions st) = Some s0) as H5
    by (vm_compute; reflexivity).
  assert (is_Some (ToString pn)) as H6
    by (vm_compute; eauto).
  assert (participants s0 = [(a, pa)]) as H7
    by (vm_compute; reflexivity).
  assert (a ≠ ws) as H8
    by (discriminate).
  assert (is_open a st = true) as H9
    by (vm_compute; reflexivity).
  assert (is_open ws st = true) as H10
    by (vm_compute; reflexivity).
  split; [repeat (split; [assumption|]); assumption|].
  exact (second_participant_is_paired ws payload rnd st sc pn code s0 a pa H1 H2 H3 H4 H5 H6 H7 H8 H9 H10).
Defined.

(** X19: the hypotheses of [join_under_unprintable_name_stops_midway] hold of a concrete input. *)
Lemma join_under_unprintable_name_stops_midway_witness :
  let ws := "c" in
  let payload := unprintable_join_payload in
  let rnd := ring_order in
  let st := after two_join in
  let sc := JStr "X" in
  let pn := unprintable in
  let code := "X" in
  ((get_prop payload "sessionCode" = Some sc) /\
   (get_prop payload "participantName" = Some pn) /\
   (ToPropertyKey sc = Some code) /\
   (code ∉ Object_prototype_keys) /\
   (ToString pn = None)) /\
  (let old := default (mkSession [] [] None) (obj_get code (sessions st)) in
  exists st' s',
    joinSession ws payload rnd st = Thrown st' /\
    obj_get code (sessions st') = Some s' /\
    participants s' = obj_set ws (mkParticipant pn ws) (participants old) /\
    links s' = links old /\ timer s' = timer old /\
    (forall c, c ≠ code -> obj_get c (sessions st') = obj_get c (sessions st)) /\
    conns st' = alter (fun c => mkConn sc (readyState c)) ws (conns st) /\
    sent st' = sent st /\ intervals st' = intervals st /\
    timeouts st' = timeouts st /\ next_handle st' = next_handle st).
Proof.
  intros ws payload rnd st sc pn code.
  assert (get_prop payload "sessionCode" = Some sc) as H1
    by (vm_compute; reflexivity).
  assert (get_prop payload "participantName" = Some pn) as H2
    by (vm_compute; reflexivity).
  assert (ToPropertyKey sc = Some code) as H3
    by (vm_compute; reflexivity).
  assert (code ∉ Object_prototype_keys) as H4
    by (apply (bool_decide_unpack _); vm_compute; exact I).
  assert (ToString pn = None) as H5
    by (vm_compute; reflexivity).
  split; [repeat (split; [assumption|]); assumption|].
  exact (join_under_unprintable_name_stops_midway ws payload rnd st sc pn code H1 H2 H3 H4 H5).
Defined.

(** X10: the hypotheses of [close_outside_sessions_changes_nothing] hold of a concrete input. *)
Lemma close_outside_sessions_changes_nothing_witness :
  let ws := "a" in
  let rnd := ring_order in
  let st := after [Connects "a"] in
  (in_no_session ws st) /\
  (exists st',
    on_close ws rnd st = Done st' /\
    sessions st' = sessions st /\ intervals st' = intervals st /\
    timeouts st' = timeouts st /\ sent st' = sent st /\
    next_handle st' = next_handle st /\
    is_open ws st' = false /\
    (forall x, x ≠ ws -> conns st' !! x = conns st !! x)).
Proof.
  intros ws rnd st.
  assert (sessions st = []) as Hsessions by (vm_compute; reflexivity).
  assert (in_no_session ws st) as H1
    by (intros c s Hs; rewrite Hsessions in Hs; discriminate).
  split; [repeat (split; [assumption|]); assumption|].
  exact (close_outside_sessions_changes_nothing ws rnd st H1).
Defined.

(** X11: the hypotheses of [leave_updates_the_others] hold of a concrete input. *)
Lemma leave_updates_the_others_witness :
  let ws := "a" in
  let rnd := ring_order in
  let st := after three_join in
  let code := "X" in
  let session := joined_session in
  ((reachable st) /\
   (obj_get code (sessions st) = Some session) /\
   (is_Some (obj_get ws (participants session))) /\
   (only_member_of ws code st) /\
   (2 <= length (participants session))) /\
  (exists st' s' plu shuf,
    on_close ws rnd st = Done st' /\
    obj_get code (sessions st') = Some s' /\
    participants s' = obj_delete ws (participants session) /\
    S (length (participants s')) = length (participants session) /\
    obj_get ws (participants s') = None /\
    (forall k, k ≠ ws ->
       obj_get k (participants s') = obj_get k (participants session)) /\
    sent st' = sent st ++ plu ++ shuf /\
    NoDup plu.*1 /\
    (forall x m, (x, m) ∈ plu <->
       m = participantListUpdate (names_of (participants s')) /\
       is_Some (obj_get x (participants s')) /\ is_open x st = true) /\
    (2 <= length (participants s') ->
       single_cycle (links s') (obj_keys (participants s')) /\
       forall x y, (x, y) ∈ links s' -> x ≠ ws /\ y ≠ ws) /\
    (length (participants s') = 1 ->
       links s' = links session /\ shuf = []) /\
    (timer s' = None <-> length (participants s') <= 2) /\
    (forall c, c ≠ code ->
       obj_get c (sessions st') = obj_get c (sessions st))).
Proof.
  intros ws rnd st code session.
  assert (sessions st = [("X", joined_session)]) as Hsessions
    by (vm_compute; reflexivity).
  assert (reachable st) as H1
    by (apply reachable_after).
  assert (obj_get code (sessions st) = Some session) as H2
    by (vm_compute; reflexivity).
  assert (is_Some (obj_get ws (participants session))) as H3
    by (vm_compute; eauto).
  assert (only_member_of ws code st) as H4
    by (intros c s Hs _; rewrite Hsessions in Hs; simpl in Hs; case_decide; [symmetry; assumption|discriminate]).
  assert (2 <= length (participants session)) as H5
    by (vm_compute; lia).
  split; [repeat (split; [assumption|]); assumption|].
  exact (leave_updates_the_others ws rnd st code session H1 H2 H3 H4 H5).
Defined.

(** X12: the hypotheses of [last_leave_removes_session] hold of a concrete input. *)
Lemma last_leave_removes_session_witness :
  let ws := "c" in
  let rnd := ring_order in
  let st := after two_leave_in_countdown in
  let code := "X" in
  let session := mkSession [("c", mkParticipant (JStr "C") "c")] [("b", "c"); ("c", "b")] None in
  let p := mkParticipant (JStr "C") "c" in
  ((reachable st) /\
   (obj_get code (sessions st) = Some session) /\
   (participants session = [(ws, p)]) /\
   (only_member_of ws code st)) /\
  (exists st',
    on_close ws rnd st = Done st' /\
    obj_get code (sessions st') = None /\
    (forall c, c ≠ code ->
       obj_get c (sessions st') = obj_get c (sessions st)) /\
    (forall h, intervals st' !! h ≠ Some code) /\
    intervals st' = intervals st /\
    timeouts st' = timeouts st /\ sent st' = sent st /\
    (forall rnd' rest, timeouts st' = code :: rest ->
       handle (TimeoutFires rnd') st'
       = Done (mkServer (sessions st') (conns st') (intervals st') rest
                        (next_handle st') (sent st')))).
Proof.
  intros ws rnd st code session p.
  assert (sessions st = [("X", session)]) as Hsessions
    by (vm_compute; reflexivity).
  assert (reachable st) as H1
    by (apply reachable_after).
  assert (obj_get code (sessions st) = Some session) as H2
    by (vm_compute; reflexivity).
  assert (participants session = [(ws, p)]) as H3
    by (vm_compute; reflexivity).
  assert (only_member_of ws code st) as H4
    by (intros c s Hs _; rewrite Hsessions in Hs; simpl in Hs; case_decide; [symmetry; assumption|discriminate]).
  split; [repeat (split; [assumption|]); assumption|].
  exact (last_leave_removes_session ws rnd st code session p H1 H2 H3 H4).
Defined.

(** X14: the hypotheses of [broadcast_reaches_open_participants] hold of a concrete input. *)
Lemma broadcast_reaches_open_participants_witness :
  let code := "X" in
  let message := shuffle_countdown 10 in
  let st := after b_closing in
  let session := joined_session in
  ((obj_get code (sessions st) = Some session) /\
   (NoDup (participants session).*1) /\
   (sockets_own session)) /\
  (exists extra,
    broadcastToSession code message st
    = Done (mkServer (sessions st) (conns st) (intervals st) (timeouts st)
                     (next_handle st) (sent st ++ extra)) /\
    extra.*1 = filter (fun k => is_open k st = true)
                      (obj_keys (participants session)) /\
    NoDup extra.*1 /\
    (forall x m, (x, m) ∈ extra <->
       m = message /\ is_Some (obj_get x (participants session)) /\
       is_open x st = true)).
Proof.
  intros code message st session.
  assert (obj_get code (sessions st) = Some session) as H1
    by (vm_compute; reflexivity).
  assert (NoDup (participants session).*1) as H2
    by (apply (bool_decide_unpack _); vm_compute; exact I).
  assert (sockets_own session) as H3
    by (apply sockets_own_Forall, (bool_decide_unpack _); vm_compute; exact I).
  split; [repeat (split; [assumption|]); assumption|].
  exact (broadcast_reaches_open_participants code message st session H1 H2 H3).
Defined.

(** X15: the hypotheses of [sessions_stay_well_formed] hold of a concrete input. *)
Lemma sessions_stay_well_formed_witness :
  let st := after three_join in
  (reachable st) /\
  (forall code s, obj_get code (sessions st) = Some s ->
    participants s ≠ [] /\
    NoDup (participants s).*1 /\
    (forall k p, (k, p) ∈ participants s -> socket p = k) /\
    code ∉ Object_prototype_keys).
Proof.
  intros st.
  assert (reachable st) as H1
    by (apply reachable_after).
  split; [repeat (split; [assumption|]); assumption|].
  exact (sessions_stay_well_formed st H1).
Defined.

(** X16: the hypotheses of [recurring_round_reshuffles] hold of a concrete input. *)
Lemma recurring_round_reshuffles_witness :
  let st := after three_join in
  let h := 0 in
  let code := "X" in
  let rnd := ring_order in
  ((reachable st) /\
   (intervals st !! h = Some code) /\
   (timeouts st = [])) /\
  (exists s st1 st2 s2,
    obj_get code (sessions st) = Some s /\
    handle (IntervalFires h) st = Done st1 /\
    enabled (TimeoutFires rnd) st1 = true /\
    handle (TimeoutFires rnd) st1 = Done st2 /\
    obj_get code (sessions st2) = Some s2 /\
    participants s2 = participants s /\ timer s2 = Some h /\
    intervals st2 !! h = Some code /\ timeouts st2 = [] /\
    2 < length (participants s2) /\
    single_cycle (links s2) (obj_keys (participants s2))).
Proof.
  intros st h code rnd.
  assert (reachable st) as H1
    by (apply reachable_after).
  assert (intervals st !! h = Some code) as H2
    by (vm_compute; reflexivity).
  assert (timeouts st = []) as H3
    by (vm_compute; reflexivity).
  split; [repeat (split; [assumption|]); assumption|].
  exact (recurring_round_reshuffles st h code rnd H1 H2 H3).
Defined.

(** X20: the hypotheses of [recurring_timer_only_above_two] hold of a concrete input. *)
Lemma recurring_timer_only_above_two_witness :
  let st := after three_join in
  (reachable st) /\
  ((forall code s, obj_get code (sessions st) = Some s ->
     length (participants s) <= 2 ->
     timer s = None /\ forall h, intervals st !! h ≠ Some code) /\
  (forall h code, intervals st !! h = Some code ->
     exists s countdown,
       obj_get code (sessions st) = Some s /\ timer s = Some h /\
       2 < length (participants s) /\
       handle (IntervalFires h) st
       = Done (mkServer (sessions st) (conns st) (intervals st)
                        (timeouts st ++ [code]) (next_handle st)
                        (sent st ++ countdown)) /\
       NoDup countdown.*1 /\
       (forall x m, (x, m) ∈ countdown <->
          m = shuffle_countdown 10 /\
          is_Some (obj_get x (participants s)) /\ is_open x st = true))).
Proof.
  intros st.
  assert (reachable st) as H1
    by (apply reachable_after).
  split; [repeat (split; [assumption|]); assumption|].
  exact (recurring_timer_only_above_two st H1).
Defined.

(** X21: the hypotheses of [timer_iff_more_than_two_without_throw] hold of a concrete input. *)
Lemma timer_iff_more_than_two_without_throw_witness :
  let st := after three_join in
  (reachable_without_throw st) /\
  (forall code s, obj_get code (sessions st) = Some s ->
    (is_Some (timer s) <-> 2 < length (participants s)) /\
    (forall h, timer s = Some h -> intervals st !! h = Some code)).
Proof.
  intros st.
  assert (reachable_without_throw st) as H1
    by (apply (run_done_reachable three_join initial); [constructor|vm_compute; reflexivity]).
  split; [repeat (split; [assumption|]); assumption|].
  exact (timer_iff_more_than_two_without_throw st H1).
Defined.

(** X17: the hypotheses of [countdown_runs_for_duration] hold of a concrete input. *)
Lemma countdown_runs_for_duration_witness :
  let d := 10%Z in
  let n := 10 in
  (((1 <= d <= 2 ^ 53)%Z) /\
   (Z.of_nat n = d)) /\
  ((forall k, k < n ->
     Nat.iter k countdown_tick (countdown_start d)
     = mkCountdown (d - Z.of_nat k)%Z (Some (d - Z.of_nat k)%Z)
                   (ShufflingIn d) true) /\
  Nat.iter n countdown_tick (countdown_start d)
  = mkCountdown 0 None ShufflingNow false /\
  countdown_tick (Nat.iter n countdown_tick (countdown_start d))
  = Nat.iter n countdown_tick (countdown_start d)).
Proof.
  intros d n.
  assert ((1 <= d <= 2 ^ 53)%Z) as H1
    by (lia).
  assert (Z.of_nat n = d) as H2
    by (reflexivity).
  split; [repeat (split; [assumption|]); assumption|].
  exact (countdown_runs_for_duration d n H1 H2).
Defined.

(** X18: the hypotheses of [countdown_of_nothing_stops_at_once] hold of a concrete input. *)
Lemma countdown_of_nothing_stops_at_once_witness :
  let d := 0%Z in
  ((- 2 ^ 53 < d <= 0)%Z) /\
  (cd_live (countdown_start d) = true /\
  cd_countdown (countdown_start d) = Some d /\
  countdown_tick (countdown_start d)
  = mkCountdown (d - 1)%Z None ShufflingNow false /\
  countdown_tick (countdown_start (- 2 ^ 53))
  = mkCountdown (- 2 ^ 53)%Z None ShufflingNow false).
Proof.
  intros d.
  assert ((- 2 ^ 53 < d <= 0)%Z) as H1
    by (lia).
  split; [repeat (split; [assumption|]); assumption|].
  exact (countdown_of_nothing_stops_at_once d H1).
Defined.

